(** * ELEMENTS: reference-element basis functions

    A shallow embedding of the arbitrary-order tensor-product Lagrange
    element [HexN] (src/element_types/elements3D.cpp), of the 1D evaluator
    [QuadN::lagrange_1D] (src/element_types/elements2D.cpp) and of the
    static tables of the fixed-order elements Quad4/8/12 and Hex8/20/32.

    Conventions of the embedding.
    - [real_t] is an arbitrary field [F] (exact arithmetic); the concrete
      instances below are evaluated over the rationals.  In a field the
      quotient by zero is zero, so every statement that relies on a
      quotient also states that its divisor is not zero.
    - [int] indices and sizes are natural numbers; the loops below only
      produce non-negative values.
    - A one-dimensional [CArray] is a sequence read with [nth 0] and
      written with [set_nth 0]; a two-dimensional one is a sequence of
      rows.  A freshly allocated array holds zeros. *)

Set Warnings "-notation-overridden,-ambiguous-paths,-rewrite-rw".

From HB Require Import structures.
From mathcomp Require Import ssreflect ssrfun ssrbool eqtype ssrnat seq div.
From mathcomp Require Import choice fintype bigop ssralg poly ssrint rat.
From mathcomp Require Import ssrnum ring_tactic field_tactic.

Set Implicit Arguments.
Unset Strict Implicit.
Unset Printing Implicit Defensive.

Import GRing.Theory.
Local Open Scope ring_scope.

(** ** Arrays and loops *)

Section Arrays.

Variable T : Type.
Variable t0 : T.

(** [a(i, d)] on a two-dimensional array. *)
Definition get2 (a : seq (seq T)) (i d : nat) : T := nth t0 (nth [::] a i) d.

(** [a(i, d) = v]. *)
Definition set2 (a : seq (seq T)) (i d : nat) (v : T) : seq (seq T) :=
  set_nth [::] a i (set_nth t0 (nth [::] a i) d v).

(** [for (k in ks) for (j in js) for (i in ns) body(i, j, k)], the state
    threaded through the three nested loops, [i] running fastest. *)
Definition for3 (S : Type) (ks js ns : seq nat)
    (body : nat -> nat -> nat -> S -> S) (st : S) : S :=
  foldl (fun st k =>
    foldl (fun st j =>
      foldl (fun st i => body i j k st) st ns) st js) st ks.

(** The triples [(i, j, k)] in the order in which [for3] visits them. *)
Definition loop_triples (ks js ns : seq nat) : seq (nat * nat * nat) :=
  flatten [seq flatten [seq [seq (i, j, k) | i <- ns] | j <- js] | k <- ks].

End Arrays.

(** [for (i = 0; i < n; i++)] *)
Definition range (n : nat) : seq nat := iota 0 n.

(** [for (i = 0; i < n; i = i + 2)] *)
Definition range_step2 (n : nat) : seq nat := [seq i <- iota 0 n | ~~ odd i].

(** The first [n] entries of the array [nodes] exist and are pairwise
    distinct. *)
Definition distinct_nodes (T : eqType) (n : nat) (nodes : seq T) : bool :=
  (n <= size nodes)%N && uniq (take n nodes).

(** ** HexN: arbitrary-order hexahedral element (elements3D.cpp) *)

Module HexN.

Section Defs.

Variable F : fieldType.

(** The data members of the class that the member functions below use. *)
Record t : Type := Mk {
  num_nodes_1d_ : nat;
  num_nodes_ : nat;
  num_verts_1d_ : nat;
  num_verts_ : nat;
  num_basis_ : nat;
  order_ : nat;
  HexN_Nodes_1d_ : seq F;
  HexN_Nodes_ : seq (seq F);
  HexN_Verts_1d_ : seq F;
  HexN_Verts_ : seq (seq F);
  Vert_Node_map_ : seq nat
}.

Definition with_Nodes_1d (e : t) (a : seq F) : t :=
  Mk (num_nodes_1d_ e) (num_nodes_ e) (num_verts_1d_ e) (num_verts_ e)
     (num_basis_ e) (order_ e) a (HexN_Nodes_ e) (HexN_Verts_1d_ e)
     (HexN_Verts_ e) (Vert_Node_map_ e).

Definition with_Nodes (e : t) (a : seq (seq F)) : t :=
  Mk (num_nodes_1d_ e) (num_nodes_ e) (num_verts_1d_ e) (num_verts_ e)
     (num_basis_ e) (order_ e) (HexN_Nodes_1d_ e) a (HexN_Verts_1d_ e)
     (HexN_Verts_ e) (Vert_Node_map_ e).

Definition with_Verts_1d (e : t) (a : seq F) : t :=
  Mk (num_nodes_1d_ e) (num_nodes_ e) (num_verts_1d_ e) (num_verts_ e)
     (num_basis_ e) (order_ e) (HexN_Nodes_1d_ e) (HexN_Nodes_ e) a
     (HexN_Verts_ e) (Vert_Node_map_ e).

Definition with_Vert_Node_map (e : t) (a : seq nat) : t :=
  Mk (num_nodes_1d_ e) (num_nodes_ e) (num_verts_1d_ e) (num_verts_ e)
     (num_basis_ e) (order_ e) (HexN_Nodes_1d_ e) (HexN_Nodes_ e)
     (HexN_Verts_1d_ e) (HexN_Verts_ e) a.

(** [HexN::node_rid]: [i + j*num_nodes_1d_ + k*num_nodes_1d_*num_nodes_1d_]. *)
Definition node_rid (e : t) (i j k : nat) : nat :=
  (i + j * num_nodes_1d_ e + k * num_nodes_1d_ e * num_nodes_1d_ e)%N.

(** [HexN::vert_rid]: [i + j*num_verts_1d_ + k*num_verts_1d_*num_verts_1d_]. *)
Definition vert_rid (e : t) (i j k : nat) : nat :=
  (i + j * num_verts_1d_ e + k * num_verts_1d_ e * num_verts_1d_ e)%N.

(** *** The 1D Lagrange evaluator *)

(** One pass of the inner loop of [lagrange_basis_1D] over [vert_j]; the
    state is [(numerator, denominator, interpolant)]. *)
Definition basis_1D_step (Verts : seq F) (x_point : F) (vert_i : nat)
    (st : F * F * F) (vert_j : nat) : F * F * F :=
  let: (numerator, denominator, _) := st in
  let: (numerator, denominator) :=
    if vert_j != vert_i
    then (numerator * (x_point - nth 0 Verts vert_j),
          denominator * (nth 0 Verts vert_i - nth 0 Verts vert_j))
    else (numerator, denominator) in
  (numerator, denominator, numerator / denominator).

(** The inner loop of [lagrange_basis_1D] for one [vert_i], from the
    placeholders [numerator = denominator = interpolant = 1.0]. *)
Definition basis_1D_loop (e : t) (x_point : F) (vert_i : nat) : F * F * F :=
  foldl (basis_1D_step (HexN_Verts_1d_ e) x_point vert_i) (1, 1, 1)
        (range (num_verts_1d_ e)).

(** [HexN::lagrange_basis_1D(interp, x_point)]. *)
Definition lagrange_basis_1D (e : t) (interp : seq F) (x_point : F) : seq F :=
  foldl (fun interp vert_i =>
           let: (_, _, interpolant) := basis_1D_loop e x_point vert_i in
           set_nth 0 interp vert_i interpolant)
        interp (range (num_verts_1d_ e)).

(** The innermost loop of [lagrange_derivative_1D] over [N]. *)
Definition product_gradient_loop (Verts : seq F) (x_point : F)
    (num_verts_1d vert_i vert_j : nat) : F :=
  foldl (fun product_gradient N =>
           if (N != vert_j) && (N != vert_i)
           then product_gradient * (x_point - nth 0 Verts N)
           else product_gradient)
        1 (range num_verts_1d).

(** One pass of the loop of [lagrange_derivative_1D] over [vert_j]; the
    state is [(denominator, num_gradient, gradient)]. *)
Definition derivative_1D_step (Verts : seq F) (x_point : F)
    (num_verts_1d vert_i : nat) (st : F * F * F) (vert_j : nat) : F * F * F :=
  let: (denominator, num_gradient, _) := st in
  let: (denominator, num_gradient) :=
    if vert_j != vert_i
    then (denominator * (nth 0 Verts vert_i - nth 0 Verts vert_j),
          num_gradient
          + product_gradient_loop Verts x_point num_verts_1d vert_i vert_j)
    else (denominator, num_gradient) in
  (denominator, num_gradient, num_gradient / denominator).

Definition derivative_1D_loop (e : t) (x_point : F) (vert_i : nat)
  : F * F * F :=
  foldl (derivative_1D_step (HexN_Verts_1d_ e) x_point (num_verts_1d_ e) vert_i)
        (1, 0, 0) (range (num_verts_1d_ e)).

(** [HexN::lagrange_derivative_1D(derivative, x_point)]. *)
Definition lagrange_derivative_1D (e : t) (derivative : seq F) (x_point : F)
  : seq F :=
  foldl (fun derivative vert_i =>
           let: (_, _, gradient) := derivative_1D_loop e x_point vert_i in
           set_nth 0 derivative vert_i gradient)
        derivative (range (num_verts_1d_ e)).

(** *** Tensor-product basis and its partial derivatives *)

(** The loop [val_3d(i, d) = val_1d(i); val_1d(i) = 0.0] that saves the
    1D values of axis [d] and clears the scratch array. *)
Definition save_axis (n d : nat) (st : seq (seq F) * seq F)
  : seq (seq F) * seq F :=
  foldl (fun st i =>
           let: (val_3d, val_1d) := st in
           (set2 0 val_3d i d (nth 0 val_1d i), set_nth 0 val_1d i 0))
        st (range n).

(** The last save loop of [partial_mu_basis]:
    [Dval_3d(i,2) = Dval_1d(i); val_1d(i) = 0.0], which clears [val_1d]
    and leaves [Dval_1d] as it is. *)
Definition save_axis_mu (n : nat) (st : seq (seq F) * seq F * seq F)
  : seq (seq F) * seq F * seq F :=
  foldl (fun st i =>
           let: (Dval_3d, Dval_1d, val_1d) := st in
           (set2 0 Dval_3d i 2 (nth 0 Dval_1d i), Dval_1d, set_nth 0 val_1d i 0))
        st (range n).

(** The closing triple loop shared by [basis] and the three partials:
    [out(vert_rid(i,j,k)) = a(i,0) * b(j,1) * c(k,2)]. *)
Definition tensor_loop (e : t) (a b c : seq (seq F)) (out : seq F) : seq F :=
  let n := num_verts_1d_ e in
  for3 (range n) (range n) (range n)
       (fun i j k out =>
          let vert_rlid := vert_rid e i j k in
          set_nth 0 out vert_rlid (get2 0 a i 0 * get2 0 b j 1 * get2 0 c k 2))
       out.

(** [HexN::basis(basis, point)]. *)
Definition basis (e : t) (basis point : seq F) : seq F :=
  let n := num_verts_1d_ e in
  let val_1d := nseq n 0 in
  let val_3d := nseq n (nseq 3 0) in
  let val_1d := lagrange_basis_1D e val_1d (nth 0 point 0) in
  let: (val_3d, val_1d) := save_axis n 0 (val_3d, val_1d) in
  let val_1d := lagrange_basis_1D e val_1d (nth 0 point 1) in
  let: (val_3d, val_1d) := save_axis n 1 (val_3d, val_1d) in
  let val_1d := lagrange_basis_1D e val_1d (nth 0 point 2) in
  let: (val_3d, val_1d) := save_axis n 2 (val_3d, val_1d) in
  tensor_loop e val_3d val_3d val_3d basis.

(** [HexN::partial_xi_basis(partial_xi, point)]. *)
Definition partial_xi_basis (e : t) (partial_xi point : seq F) : seq F :=
  let n := num_verts_1d_ e in
  let val_1d := nseq n 0 in
  let val_3d := nseq n (nseq 3 0) in
  let Dval_1d := nseq n 0 in
  let Dval_3d := nseq n (nseq 3 0) in
  let Dval_1d := lagrange_derivative_1D e Dval_1d (nth 0 point 0) in
  let: (Dval_3d, Dval_1d) := save_axis n 0 (Dval_3d, Dval_1d) in
  let val_1d := lagrange_basis_1D e val_1d (nth 0 point 1) in
  let: (val_3d, val_1d) := save_axis n 1 (val_3d, val_1d) in
  let val_1d := lagrange_basis_1D e val_1d (nth 0 point 2) in
  let: (val_3d, val_1d) := save_axis n 2 (val_3d, val_1d) in
  tensor_loop e Dval_3d val_3d val_3d partial_xi.

(** [HexN::partial_eta_basis(partial_eta, point)]. *)
Definition partial_eta_basis (e : t) (partial_eta point : seq F) : seq F :=
  let n := num_verts_1d_ e in
  let val_1d := nseq n 0 in
  let val_3d := nseq n (nseq 3 0) in
  let Dval_1d := nseq n 0 in
  let Dval_3d := nseq n (nseq 3 0) in
  let val_1d := lagrange_basis_1D e val_1d (nth 0 point 0) in
  let: (val_3d, val_1d) := save_axis n 0 (val_3d, val_1d) in
  let Dval_1d := lagrange_derivative_1D e Dval_1d (nth 0 point 1) in
  let: (Dval_3d, Dval_1d) := save_axis n 1 (Dval_3d, Dval_1d) in
  let val_1d := lagrange_basis_1D e val_1d (nth 0 point 2) in
  let: (val_3d, val_1d) := save_axis n 2 (val_3d, val_1d) in
  tensor_loop e val_3d Dval_3d val_3d partial_eta.

(** [HexN::partial_mu_basis(partial_mu, point)]. *)
Definition partial_mu_basis (e : t) (partial_mu point : seq F) : seq F :=
  let n := num_verts_1d_ e in
  let val_1d := nseq n 0 in
  let val_3d := nseq n (nseq 3 0) in
  let Dval_1d := nseq n 0 in
  let Dval_3d := nseq n (nseq 3 0) in
  let val_1d := lagrange_basis_1D e val_1d (nth 0 point 0) in
  let: (val_3d, val_1d) := save_axis n 0 (val_3d, val_1d) in
  let val_1d := lagrange_basis_1D e val_1d (nth 0 point 1) in
  let: (val_3d, val_1d) := save_axis n 1 (val_3d, val_1d) in
  let Dval_1d := lagrange_derivative_1D e Dval_1d (nth 0 point 2) in
  let: (Dval_3d, Dval_1d, val_1d) := save_axis_mu n (Dval_3d, Dval_1d, val_1d) in
  tensor_loop e val_3d val_3d Dval_3d partial_mu.

(** The partial derivative with respect to reference axis [d]
    (0: xi, 1: eta, otherwise mu). *)
Definition partial_basis (d : nat) (e : t) (out point : seq F) : seq F :=
  match d with
  | 0 => partial_xi_basis e out point
  | 1 => partial_eta_basis e out point
  | _ => partial_mu_basis e out point
  end.

(** *** Construction *)

(** [lobatto_nodes_1D(nodes, num)] belongs to the quadrature component,
    which is outside this file's sources: it is a parameter here.  It
    receives the array to fill and the number of nodes wanted. *)
Variable lobatto_nodes_1D : seq F -> nat -> seq F.

(** The loop [HexN_Verts_1d_(vert_id) = HexN_Nodes_1d_(i); vert_id++]
    over the node indices [idx]. *)
Definition save_verts_1d (e : t) (idx : seq nat) : t :=
  (foldl (fun st i =>
            let: (e, vert_id) := st in
            (with_Verts_1d e
               (set_nth 0 (HexN_Verts_1d_ e) vert_id (nth 0 (HexN_Nodes_1d_ e) i)),
             vert_id.+1))
         (e, 0%N) idx).1.

(** [HexN::create_lobatto_nodes(element_order)]. *)
Definition create_lobatto_nodes (e : t) (element_order : nat) : t :=
  let num_nodes_1d :=
    if element_order == 0%N then 2%N else (2 * element_order + 1)%N in
  let e := with_Nodes_1d e (lobatto_nodes_1D (HexN_Nodes_1d_ e) num_nodes_1d) in
  let e :=
    for3 (range num_nodes_1d) (range num_nodes_1d) (range num_nodes_1d)
         (fun num_i num_j num_k e =>
            let node_rlid := node_rid e num_i num_j num_k in
            let a := HexN_Nodes_ e in
            let a := set2 0 a node_rlid 0 (nth 0 (HexN_Nodes_1d_ e) num_i) in
            let a := set2 0 a node_rlid 1 (nth 0 (HexN_Nodes_1d_ e) num_j) in
            let a := set2 0 a node_rlid 2 (nth 0 (HexN_Nodes_1d_ e) num_k) in
            with_Nodes e a)
         e in
  if element_order == 0%N
  then save_verts_1d e (range num_nodes_1d)
  else save_verts_1d e (range_step2 num_nodes_1d).

(** The loop nest that fills [Vert_Node_map_] over the node indices [idx]
    of each axis: [Vert_Node_map_(vert_rid) = node_rid(i,j,k); vert_rid++]. *)
Definition fill_vert_node_map (e : t) (idx : seq nat) : t :=
  (for3 idx idx idx
        (fun i j k st =>
           let: (e, vert_rid) := st in
           let node_id := node_rid e i j k in
           (with_Vert_Node_map e (set_nth 0%N (Vert_Node_map_ e) vert_rid node_id),
            vert_rid.+1))
        (e, 0%N)).1.

(** [HexN::setup_HexN(elem_order)].  The function has no failure path:
    it returns normally on every order. *)
Definition setup_HexN (elem_order : nat) : t :=
  let e :=
    if elem_order == 0%N then
      let num_nodes_1d := 2%N in
      let num_nodes := (num_nodes_1d ^ 3)%N in
      let num_verts_1d := 2%N in
      let num_verts := (num_verts_1d ^ 3)%N in
      Mk num_nodes_1d num_nodes num_verts_1d num_verts (num_verts_1d ^ 3)%N
         (elem_order + 1)%N
         (nseq num_nodes 0) (nseq num_nodes (nseq 3 0))
         (nseq num_verts 0) (nseq num_verts (nseq 3 0))
         (nseq num_verts 0%N)
    else
      let num_nodes_1d := (2 * elem_order + 1)%N in
      let num_nodes := (num_nodes_1d ^ 3)%N in
      let num_verts_1d := (elem_order + 1)%N in
      let num_verts := (num_verts_1d ^ 3)%N in
      Mk num_nodes_1d num_nodes num_verts_1d num_verts (num_verts_1d ^ 3)%N
         elem_order
         (nseq num_nodes 0) (nseq num_nodes (nseq 3 0))
         (nseq num_verts 0) (nseq num_verts (nseq 3 0))
         (nseq num_verts 0%N) in
  let e := create_lobatto_nodes e elem_order in
  let e :=
    if elem_order == 0%N
    then fill_vert_node_map e (range (num_nodes_1d_ e)) else e in
  if (1 <= elem_order)%N
  then fill_vert_node_map e (range_step2 (num_nodes_1d_ e)) else e.

(** *** Accessors *)

(** [HexN::node_coords(node_rlid, this_dim)]. *)
Definition node_coords (e : t) (node_rlid this_dim : nat) : F :=
  get2 0 (HexN_Nodes_ e) node_rlid this_dim.

(** [HexN::vert_node_map(vert_rid)]. *)
Definition vert_node_map (e : t) (vert_rid : nat) : nat :=
  nth 0%N (Vert_Node_map_ e) vert_rid.

(** The three coordinates of a node, as a point to evaluate at. *)
Definition node_point (e : t) (node_rlid : nat) : seq F :=
  [seq node_coords e node_rlid this_dim | this_dim <- range 3].

End Defs.

End HexN.

(** ** Concrete node suppliers over the rationals

    Stand-ins for [lobatto_nodes_1D] with rational coordinates, used to
    evaluate the element on concrete inputs. *)

(** [num] equally spaced nodes on [-1, 1], written into [a]. *)
Definition equispaced_nodes (a : seq rat) (num : nat) : seq rat :=
  foldl (fun a i => set_nth 0 a i (- 1 + 2%:R * i%:R / (num.-1)%:R))
        a (range num).


(** ** QuadN: the 1D Lagrange evaluator of elements2D.cpp *)

Module QuadN.

Section Defs.

Variable F : fieldType.

(** The innermost loop over [N], from the local [s = 1.0]. *)
Definition s_loop (xi_point : seq F) (x_point : F) (orderN i j : nat) : F :=
  foldl (fun s N =>
           if (N != j) && (N != i) then s * (x_point - nth 0 xi_point N) else s)
        1 (range (orderN + 1)).

(** One pass of the loop over [j]; the state is [(n, d, c, p, q)], where
    [q] is the variable declared before the loop over [i]. *)
Definition j_step (xi_point : seq F) (x_point : F) (orderN i : nat)
    (st : F * F * F * F * F) (j : nat) : F * F * F * F * F :=
  let: (n, d, _, p, _) := st in
  let: (n, d, p) :=
    if j != i
    then (n * (x_point - nth 0 xi_point j),
          d * (nth 0 xi_point i - nth 0 xi_point j),
          p + s_loop xi_point x_point orderN i j)
    else (n, d, p) in
  (n, d, n / d, p, p / d).

Definition j_loop (xi_point : seq F) (x_point : F) (orderN i : nat) (q : F)
  : F * F * F * F * F :=
  foldl (j_step xi_point x_point orderN i) (1, 1, 1, 0, q) (range (orderN + 1)).

(** [QuadN::lagrange_1D(interp, Dinterp, x_point, xi_point, orderN)];
    the result is the pair of output arrays. *)
Definition lagrange_1D (interp Dinterp : seq F) (x_point : F)
    (xi_point : seq F) (orderN : nat) : seq F * seq F :=
  let: (interp, Dinterp, _) :=
    foldl (fun st i =>
             let: (interp, Dinterp, q) := st in
             let: (_, _, c, _, q) := j_loop xi_point x_point orderN i q in
             (set_nth 0 interp i c, set_nth 0 Dinterp i q, q))
          (interp, Dinterp, 0) (range (orderN + 1)) in
  (interp, Dinterp).

End Defs.

(** The index computation of [QuadN::basis_partials] for the flat node
    [m] of an element with [N] nodes per direction:
    [j = floor(m/N)+1; i = (m+1) - N*(j-1)]; the arrays are then read at
    [i-1] and [j-1]. *)
Definition basis_partials_ij (N m : nat) : nat * nat :=
  let j := (m %/ N + 1)%N in
  let i := ((m + 1) - N * (j - 1))%N in
  (i, j).

(** *** The two-dimensional element *)

Section Element.

Variable F : fieldType.

(** The member [num_dim] is declared in the class header, which is not
    among the sources: it is a parameter here. *)
Variable num_dim : nat.

(** [QuadN::corners(lag_nodes, lag_corner, orderN)]; the result is
    [lag_corner].  The two arrays are distinct. *)
Definition corners (lag_nodes lag_corner : seq (seq F)) (orderN : nat)
  : seq (seq F) :=
  let num_corners := 4%N in
  let N := (orderN + 1)%N in
  let corner_ids := [:: 0; N - 1; N * N - N; N * N - 1]%N in
  foldl (fun lag_corner corner =>
           foldl (fun lag_corner dim =>
                    set2 0 lag_corner corner dim
                      (get2 0 lag_nodes (nth 0%N corner_ids corner) dim))
                 lag_corner (range num_dim))
        lag_corner (range num_corners).

(** [QuadN::physical_position(x_point, lag_nodes, lag_basis_2d, orderN)];
    the result is [x_point], which the function does not clear before it
    accumulates. *)
Definition physical_position (x_point : seq F) (lag_nodes : seq (seq F))
    (lag_basis_2d : seq F) (orderN : nat) : seq F :=
  let nodes := (orderN + 1)%N in
  let Nnodes_2d := (nodes * nodes)%N in
  foldl (fun x_point this_vert =>
           foldl (fun x_point dim =>
                    set_nth 0 x_point dim
                      (x_point`_dim
                       + get2 0 lag_nodes this_vert dim
                         * lag_basis_2d`_this_vert))
                 x_point (range num_dim))
        x_point (range Nnodes_2d).

(** The arrays that [basis_partials] writes; they are distinct arrays. *)
Record arrays : Type := Arrays {
  lag_nodes : seq (seq F);
  val_1d : seq F;
  DVal_1d : seq F;
  val_2d : seq (seq F);
  DVal_2d : seq (seq F);
  lag_basis_2d : seq F;
  lag_partial : seq (seq F)
}.

(** The loop [val_1d(i) = 0.0; DVal_1d(i) = 0.0] over [i < N]. *)
Definition reset_1d (N : nat) (st : seq F * seq F) : seq F * seq F :=
  foldl (fun st i =>
           let: (val_1d, DVal_1d) := st in
           (set_nth 0 val_1d i 0, set_nth 0 DVal_1d i 0))
        st (range N).

(** One pass of the loop over [m] of [basis_partials]. *)
Definition basis_partials_step (nodes_1d xi_point : seq F) (orderN : nat)
    (a : arrays) (m : nat) : arrays :=
  let N := (orderN + 1)%N in
  let: (i, j) := basis_partials_ij N m in
  let lag_nodes := set2 0 (lag_nodes a) m 0 (nodes_1d`_(i - 1)) in
  let lag_nodes := set2 0 lag_nodes m 1 (nodes_1d`_(j - 1)) in
  let: (val_1d, DVal_1d) :=
    lagrange_1D (val_1d a) (DVal_1d a) (xi_point`_0) nodes_1d orderN in
  let val_2d := set2 0 (val_2d a) m 0 (val_1d`_(i - 1)) in
  let DVal_2d := set2 0 (DVal_2d a) m 0 (DVal_1d`_(i - 1)) in
  let: (val_1d, DVal_1d) := reset_1d N (val_1d, DVal_1d) in
  let: (val_1d, DVal_1d) :=
    lagrange_1D val_1d DVal_1d (xi_point`_1) nodes_1d orderN in
  let val_2d := set2 0 val_2d m 1 (val_1d`_(j - 1)) in
  let DVal_2d := set2 0 DVal_2d m 1 (DVal_1d`_(j - 1)) in
  let: (val_1d, DVal_1d) := reset_1d N (val_1d, DVal_1d) in
  let lag_basis_2d :=
    set_nth 0 (lag_basis_2d a) m (get2 0 val_2d m 0 * get2 0 val_2d m 1) in
  let lag_partial :=
    set2 0 (lag_partial a) m 0 (get2 0 DVal_2d m 0 * get2 0 val_2d m 1) in
  let lag_partial :=
    set2 0 lag_partial m 1 (get2 0 val_2d m 0 * get2 0 DVal_2d m 1) in
  Arrays lag_nodes val_1d DVal_1d val_2d DVal_2d lag_basis_2d lag_partial.

(** [QuadN::basis_partials(lag_nodes, nodes_1d, val_1d, DVal_1d, val_2d,
    DVal_2d, lag_basis_2d, lag_partial, xi_point, orderN)]; the result is
    the seven arrays it writes. *)
Definition basis_partials (a : arrays) (nodes_1d xi_point : seq F)
    (orderN : nat) : arrays :=
  let N := (orderN + 1)%N in
  let tot_pts := (N * N)%N in
  foldl (basis_partials_step nodes_1d xi_point orderN) a (range tot_pts).

End Element.

End QuadN.

(** ** Fixed-order elements: static tables and constructors *)

(** [surface_to_dof_lid(r, c) = v] on the ragged table; a cell that no
    assignment has reached yet is [None]. *)
Definition assign (tbl : seq (seq (option nat))) (w : nat * nat * nat)
  : seq (seq (option nat)) :=
  let: (r, c, v) := w in set2 None tbl r c (Some v).

(** A constructor body: allocate [nsurfaces] rows of [stride] cells, then
    run the assignments in program order. *)
Definition run_ctor (nsurfaces stride : nat) (writes : seq (nat * nat * nat))
  : seq (seq (option nat)) :=
  foldl assign (nseq nsurfaces (nseq stride None)) writes.

(** *** Loops of the member functions *)

(** [for (i = lo; i < hi; i++)] *)
Definition loop_lt (lo hi : nat) : seq nat := iota lo (hi - lo).

(** [for (i = lo; i <= hi; i += step)] *)
Definition loop_le (lo hi step : nat) : seq nat :=
  [seq i <- iota lo (hi.+1 - lo) | step %| i - lo].

(** [for (i in idx) a(i) = f(i)].  In the fixed-order elements [real_t]
    is read as the field of rationals, which holds every constant of the
    tables and of the formulas exactly. *)
Definition write_loop (idx : seq nat) (f : nat -> rat) (a : seq rat)
  : seq rat :=
  foldl (fun a i => set_nth 0 a i (f i)) a idx.

(** [x_point(dim) += vertices(vert_lid, dim)*basis(vert_lid)] *)
Definition add_position (F : fieldType) (vertices : seq (seq F))
    (basis x_point : seq F) (vert_lid dim : nat) : seq F :=
  set_nth 0 x_point dim
    (x_point`_dim + get2 0 vertices vert_lid dim * basis`_vert_lid).

(** *** Quad4 (elements2D.cpp) *)

Module Quad4.

Definition num_dim_ : nat := 2.

Definition num_verts_ : nat := 4.

(** The header that declares [num_nodes_] is not among the sources; the
    number of nodes per axis is read off the table below, whose entry for
    the corner at xi = +1, eta = -1 is [num_nodes_1d - 1]. *)
Definition num_nodes_1d : nat := 3.

(** [Quad4::ref_vert], listed as {Xi, Eta}, one vertex per line. *)
Definition ref_vert : seq rat :=
  [:: - 1; - 1;
     1; - 1;
     1; 1;
     - 1; 1].

(** [Quad4::vert_to_node]. *)
Definition vert_to_node : seq nat :=
  [:: 0; 2; 6; 8]%N.

(** [Quad4::ref_locs(vert_lid, dim)] reads [ref_vert] as a
    [num_verts_] by [num_dim_] view. *)
Definition ref_locs (vert_lid dim : nat) : rat :=
  nth 0 ref_vert (vert_lid * num_dim_ + dim).

(** [Quad4::vert_node_map(vert_lid)]. *)
Definition vert_node_map (vert_lid : nat) : nat :=
  nth 0%N vert_to_node vert_lid.

(** The assignments [surface_to_dof_lid(r, c) = v] of the constructor
    [Quad4::Quad4()], as [(r, c, v)] in program order, one face block per
    line group. *)
Definition ctor_writes : seq (nat * nat * nat) :=
  [:: (0, 0, 0); (0, 1, 1);
     (1, 0, 3); (1, 1, 2);
     (2, 0, 0); (2, 1, 3);
     (3, 0, 1); (3, 1, 2)]%N.

(** The table [surface_to_dof_lid] once the constructor has run
    ([nsurfaces = 4], every stride 2). *)
Definition surface_to_dof_lid : seq (seq (option nat)) :=
  run_ctor 4 2 ctor_writes.

(** The view [ref_verts = ViewCArray(ref_vert, num_verts_, num_dim_)] that the
    member functions below open on the table. *)
Definition ref_verts (vert_lid dim : nat) : rat :=
  nth 0 ref_vert (vert_lid * num_dim_ + dim).

(** [Quad4::basis(basis, xi_point)]:
    the values of the basis functions at [xi_point]. *)
Definition basis (basis xi_point : seq rat) : seq rat :=
  write_loop (range num_verts_)
    (fun vert_lid =>
       (1 / 4%:R)
       * (1 + xi_point`_0 * ref_verts vert_lid 0)
       * (1 + xi_point`_1 * ref_verts vert_lid 1))
    basis.

(** [Quad4::partial_xi_basis(partial_xi, xi_point)]:
    the partial derivatives with respect to Xi. *)
Definition partial_xi_basis (partial_xi xi_point : seq rat) : seq rat :=
  write_loop (range num_verts_)
    (fun vert_lid =>
       (1 / 4%:R)
       * (ref_verts vert_lid 0)
       * (1 + xi_point`_1 * ref_verts vert_lid 1))
    partial_xi.

(** [Quad4::partial_eta_basis(partial_eta, xi_point)]:
    the partial derivatives with respect to Eta. *)
Definition partial_eta_basis (partial_eta xi_point : seq rat) : seq rat :=
  write_loop (range num_verts_)
    (fun vert_lid =>
       (1 / 4%:R)
       * (1 + xi_point`_0 * ref_verts vert_lid 0)
       * (ref_verts vert_lid 1))
    partial_eta.

(** [Quad4::physical_position(x_point, xi_point, vertices)].  The local
    array [basis_a] is not initialised by the source; every cell of it is
    written before it is read, so its initial content is immaterial. *)
Definition physical_position (x_point xi_point : seq rat)
    (vertices : seq (seq rat)) : seq rat :=
  let basis := nseq num_verts_ 0 in
  let basis :=
    write_loop (range num_verts_)
      (fun vert_lid =>
         1 / 4%:R
         * (1 + xi_point`_0 * ref_verts vert_lid 0)
         * (1 + xi_point`_1 * ref_verts vert_lid 1))
      basis in
  let x_point := write_loop (range num_dim_) (fun dim => 0) x_point in
  foldl (fun x_point vert_lid =>
           foldl (fun x_point dim =>
                    add_position vertices basis x_point vert_lid dim)
                 x_point (range num_dim_))
        x_point (range num_verts_).

End Quad4.

(** *** Quad8 (elements2D.cpp) *)

Module Quad8.

Definition num_dim_ : nat := 2.

Definition num_verts_ : nat := 8.

(** The header that declares [num_nodes_] is not among the sources; the
    number of nodes per axis is read off the table below, whose entry for
    the corner at xi = +1, eta = -1 is [num_nodes_1d - 1]. *)
Definition num_nodes_1d : nat := 5.

(** [Quad8::ref_vert], listed as {Xi, Eta}, one vertex per line. *)
Definition ref_vert : seq rat :=
  [:: - 1; - 1;
     1; - 1;
     1; 1;
     - 1; 1;
     0; - 1;
     1; 0;
     0; 1;
     - 1; 0].

(** [Quad8::vert_to_node]. *)
Definition vert_to_node : seq nat :=
  [:: 0; 4; 24; 20; 2; 14; 23; 10]%N.

(** [Quad8::ref_locs(vert_lid, dim)] reads [ref_vert] as a
    [num_verts_] by [num_dim_] view. *)
Definition ref_locs (vert_lid dim : nat) : rat :=
  nth 0 ref_vert (vert_lid * num_dim_ + dim).

(** [Quad8::vert_node_map(vert_lid)]. *)
Definition vert_node_map (vert_lid : nat) : nat :=
  nth 0%N vert_to_node vert_lid.

(** The assignments [surface_to_dof_lid(r, c) = v] of the constructor
    [Quad8::Quad8()], as [(r, c, v)] in program order, one face block per
    line group. *)
Definition ctor_writes : seq (nat * nat * nat) :=
  [:: (0, 0, 0); (0, 1, 4); (0, 2, 1);
     (1, 0, 3); (1, 1, 6); (1, 2, 2);
     (2, 0, 0); (2, 1, 7); (2, 2, 3);
     (3, 0, 1); (3, 1, 5); (3, 2, 2)]%N.

(** The table [surface_to_dof_lid] once the constructor has run
    ([nsurfaces = 4], every stride 3). *)
Definition surface_to_dof_lid : seq (seq (option nat)) :=
  run_ctor 4 3 ctor_writes.

(** The view [ref_verts = ViewCArray(ref_vert, num_verts_, num_dim_)] that the
    member functions below open on the table. *)
Definition ref_verts (vert_lid dim : nat) : rat :=
  nth 0 ref_vert (vert_lid * num_dim_ + dim).

(** [Quad8::basis(basis, xi_point)]:
    the values of the basis functions at [xi_point]. *)
Definition basis (basis xi_point : seq rat) : seq rat :=
  let basis :=
    write_loop (range 4)
      (fun vert_lid =>
         (1 / 4%:R)
         * (1 + xi_point`_0 * ref_verts vert_lid 0)
         * (1 + xi_point`_1 * ref_verts vert_lid 1)
         * (xi_point`_0 * ref_verts vert_lid 0
            + xi_point`_1 * ref_verts vert_lid 1 - 1))
      basis in
  let basis :=
    write_loop (loop_le 4 6 2)
      (fun vert_lid =>
         (1 / 2%:R)
         * (1 - xi_point`_0 * xi_point`_0)
         * (1 + xi_point`_1 * ref_verts vert_lid 1))
      basis in
  write_loop (loop_le 5 7 2)
    (fun vert_lid =>
       (1 / 2%:R)
       * (1 + xi_point`_0 * ref_verts vert_lid 0)
       * (1 - xi_point`_1 * xi_point`_1))
    basis.

(** [Quad8::partial_xi_basis(partial_xi, xi_point)]:
    the partial derivatives with respect to Xi. *)
Definition partial_xi_basis (partial_xi xi_point : seq rat) : seq rat :=
  let partial_xi :=
    write_loop (range 4)
      (fun vert_lid =>
         1 / 4%:R
         * (ref_verts vert_lid 0)
         * (1 + ref_verts vert_lid 1 * xi_point`_1)
         * ((2%:R * ref_verts vert_lid 0 * xi_point`_0)
            + (ref_verts vert_lid 1 * xi_point`_1)))
      partial_xi in
  let partial_xi :=
    write_loop (loop_le 4 6 2)
      (fun vert_lid =>
         - 1
         * (xi_point`_0)
         * (1 + ref_verts vert_lid 1 * xi_point`_1))
      partial_xi in
  write_loop (loop_le 5 7 2)
    (fun vert_lid =>
       1 / 2%:R
       * (ref_verts vert_lid 0)
       * (1 - xi_point`_1 * xi_point`_1))
    partial_xi.

(** [Quad8::partial_eta_basis(partial_eta, xi_point)]:
    the partial derivatives with respect to Eta. *)
Definition partial_eta_basis (partial_eta xi_point : seq rat) : seq rat :=
  let partial_eta :=
    write_loop (range 4)
      (fun vert_lid =>
         (1 / 4%:R)
         * (1 + ref_verts vert_lid 0 * xi_point`_0)
         * (ref_verts vert_lid 1)
         * ((ref_verts vert_lid 0 * xi_point`_0)
            + (2%:R * ref_verts vert_lid 1 * xi_point`_1)))
      partial_eta in
  let partial_eta :=
    write_loop (loop_le 4 6 2)
      (fun vert_lid =>
         (1 / 2%:R)
         * (1 - xi_point`_0 * xi_point`_0)
         * (ref_verts vert_lid 1))
      partial_eta in
  write_loop (loop_le 5 7 2)
    (fun vert_lid =>
       (- 1)
       * (1 + ref_verts vert_lid 0 * xi_point`_0)
       * (xi_point`_1))
    partial_eta.

(** [Quad8::physical_position(x_point, xi_point, vertices)].  The local
    array [basis_a] is not initialised by the source; every cell of it is
    written before it is read, so its initial content is immaterial. *)
Definition physical_position (x_point xi_point : seq rat)
    (vertices : seq (seq rat)) : seq rat :=
  let basis := nseq num_verts_ 0 in
  let basis :=
    write_loop (range 4)
      (fun vert_lid =>
         (1 / 4%:R)
         * (1 + xi_point`_0 * ref_verts vert_lid 0)
         * (1 + xi_point`_1 * ref_verts vert_lid 1)
         * (xi_point`_0 * ref_verts vert_lid 0
            + xi_point`_1 * ref_verts vert_lid 1 - 1))
      basis in
  let basis :=
    write_loop (loop_le 4 6 2)
      (fun vert_lid =>
         (1 / 2%:R)
         * (1 - xi_point`_0 * xi_point`_0)
         * (1 + xi_point`_1 * ref_verts vert_lid 1))
      basis in
  let basis :=
    write_loop (loop_le 5 7 2)
      (fun vert_lid =>
         (1 / 2%:R)
         * (1 + xi_point`_0 * ref_verts vert_lid 0)
         * (1 - xi_point`_1 * xi_point`_1))
      basis in
  let x_point := write_loop (range num_dim_) (fun dim => 0) x_point in
  foldl (fun x_point vert_lid =>
           foldl (fun x_point dim =>
                    add_position vertices basis x_point vert_lid dim)
                 x_point (range num_dim_))
        x_point (range num_verts_).

End Quad8.

(** *** Quad12 (elements2D.cpp) *)

Module Quad12.

Definition num_dim_ : nat := 2.

Definition num_verts_ : nat := 12.

(** The header that declares [num_nodes_] is not among the sources; the
    number of nodes per axis is read off the table below, whose entry for
    the corner at xi = +1, eta = -1 is [num_nodes_1d - 1]. *)
Definition num_nodes_1d : nat := 7.

(** [Quad12::ref_vert], listed as {Xi, Eta}, one vertex per line. *)
Definition ref_vert : seq rat :=
  [:: - 1; - 1;
     1; - 1;
     1; 1;
     - 1; 1;
     - (1 / 3); - 1;
     1 / 3; - 1;
     1 / 3; 1;
     - (1 / 3); 1;
     - 1; - (1 / 3);
     1; - (1 / 3);
     1; 1 / 3;
     - 1; 1 / 3].

(** [Quad12::vert_to_node]. *)
Definition vert_to_node : seq nat :=
  [:: 0; 6; 48; 42; 2; 4; 46; 44; 14; 20; 34; 28]%N.

(** [Quad12::ref_locs(vert_lid, dim)] reads [ref_vert] as a
    [num_verts_] by [num_dim_] view. *)
Definition ref_locs (vert_lid dim : nat) : rat :=
  nth 0 ref_vert (vert_lid * num_dim_ + dim).

(** [Quad12::vert_node_map(vert_lid)]. *)
Definition vert_node_map (vert_lid : nat) : nat :=
  nth 0%N vert_to_node vert_lid.

(** The assignments [surface_to_dof_lid(r, c) = v] of the constructor
    [Quad12::Quad12()], as [(r, c, v)] in program order, one face block per
    line group. *)
Definition ctor_writes : seq (nat * nat * nat) :=
  [:: (0, 0, 0); (0, 1, 4); (0, 2, 5); (0, 3, 1);
     (1, 0, 3); (1, 1, 7); (1, 2, 6); (1, 3, 2);
     (2, 0, 0); (2, 1, 8); (2, 2, 11); (2, 3, 3);
     (3, 0, 1); (3, 1, 9); (3, 2, 10); (3, 3, 2)]%N.

(** The table [surface_to_dof_lid] once the constructor has run
    ([nsurfaces = 4], every stride 4). *)
Definition surface_to_dof_lid : seq (seq (option nat)) :=
  run_ctor 4 4 ctor_writes.

(** The view [ref_verts = ViewCArray(ref_vert, num_verts_, num_dim_)] that the
    member functions below open on the table. *)
Definition ref_verts (vert_lid dim : nat) : rat :=
  nth 0 ref_vert (vert_lid * num_dim_ + dim).

(** [Quad12::basis(basis, xi_point)]:
    the values of the basis functions at [xi_point]. *)
Definition basis (basis xi_point : seq rat) : seq rat :=
  let basis :=
    write_loop (range 4)
      (fun vert_lid =>
         1 / 32%:R
         * (1 + ref_verts vert_lid 0 * xi_point`_0)
         * (1 + ref_verts vert_lid 1 * xi_point`_1)
         * (9%:R * (xi_point`_0 * xi_point`_0 + xi_point`_1 * xi_point`_1)
            - (10%:R)))
      basis in
  let basis :=
    write_loop (loop_le 4 7 1)
      (fun vert_lid =>
         9%:R / 32%:R
         * (1 - xi_point`_0 * xi_point`_0)
         * (1 + xi_point`_1 * ref_verts vert_lid 1)
         * (1 + 9%:R * xi_point`_0 * ref_verts vert_lid 0))
      basis in
  write_loop (loop_le 8 11 1)
    (fun vert_lid =>
       9%:R / 32%:R
       * (1 + xi_point`_0 * ref_verts vert_lid 0)
       * (1 - xi_point`_1 * xi_point`_1)
       * (1 + 9%:R * xi_point`_1 * ref_verts vert_lid 1))
    basis.

(** [Quad12::partial_xi_basis(partial_xi, xi_point)]:
    the partial derivatives with respect to Xi. *)
Definition partial_xi_basis (partial_xi xi_point : seq rat) : seq rat :=
  let partial_xi :=
    write_loop (range 4)
      (fun vert_lid =>
         1 / 32%:R
         * (1 + xi_point`_1 * ref_verts vert_lid 1)
         * ((9%:R * ref_verts vert_lid 0 * (xi_point`_0 * xi_point`_0
            + xi_point`_1 * xi_point`_1)) + (18%:R * xi_point`_0 * (1
            + xi_point`_0 * ref_verts vert_lid 0))
            - (10%:R * ref_verts vert_lid 0)))
      partial_xi in
  let partial_xi :=
    write_loop (loop_lt 4 8)
      (fun vert_lid =>
         (9%:R / 32%:R)
         * (1 + xi_point`_1 * ref_verts vert_lid 1)
         * ((9%:R * ref_verts vert_lid 0 * (1
            - 3%:R * xi_point`_0 * xi_point`_0)) - (2%:R * xi_point`_0)))
      partial_xi in
  write_loop (loop_le 8 11 1)
    (fun vert_lid =>
       9%:R / 32%:R
       * (ref_verts vert_lid 0)
       * (1 - xi_point`_1 * xi_point`_1)
       * (1 + 9%:R * xi_point`_1 * ref_verts vert_lid 1))
    partial_xi.

(** [Quad12::partial_eta_basis(partial_eta, xi_point)]:
    the partial derivatives with respect to Eta. *)
Definition partial_eta_basis (partial_eta xi_point : seq rat) : seq rat :=
  let partial_eta :=
    write_loop (range 4)
      (fun vert_lid =>
         1 / 32%:R
         * (1 + xi_point`_0 * ref_verts vert_lid 0)
         * ((9%:R * ref_verts vert_lid 1 * (xi_point`_0 * xi_point`_0
            + xi_point`_1 * xi_point`_1)) + (18%:R * xi_point`_1 * (1
            + xi_point`_1 * ref_verts vert_lid 1))
            - (10%:R * ref_verts vert_lid 1)))
      partial_eta in
  let partial_eta :=
    write_loop (loop_le 4 7 1)
      (fun vert_lid =>
         9%:R / 32%:R
         * (1 - xi_point`_0 * xi_point`_0)
         * (1 + 9%:R * xi_point`_0 * ref_verts vert_lid 0)
         * (ref_verts vert_lid 1))
      partial_eta in
  write_loop (loop_le 8 11 1)
    (fun vert_lid =>
       9%:R / 32%:R
       * (1 + xi_point`_0 * ref_verts vert_lid 0)
       * ((9%:R * ref_verts vert_lid 1 * (1
          - 3%:R * xi_point`_1 * xi_point`_1)) - (2%:R * xi_point`_1)))
    partial_eta.

(** [Quad12::physical_position(x_point, xi_point, vertices)].  The local
    array [basis_a] is not initialised by the source; every cell of it is
    written before it is read, so its initial content is immaterial. *)
Definition physical_position (x_point xi_point : seq rat)
    (vertices : seq (seq rat)) : seq rat :=
  let basis := nseq num_verts_ 0 in
  let basis :=
    write_loop (range 4)
      (fun vert_lid =>
         1 / 32%:R
         * (1 + ref_verts vert_lid 0 * xi_point`_0)
         * (1 + ref_verts vert_lid 1 * xi_point`_1)
         * (9%:R * (xi_point`_0 * xi_point`_0 + xi_point`_1 * xi_point`_1)
            - (10%:R)))
      basis in
  let basis :=
    write_loop (loop_le 4 7 1)
      (fun vert_lid =>
         9%:R / 32%:R
         * (1 - xi_point`_0 * xi_point`_0)
         * (1 + xi_point`_1 * ref_verts vert_lid 1)
         * (1 + 9%:R * xi_point`_0 * ref_verts vert_lid 0))
      basis in
  let basis :=
    write_loop (loop_le 8 11 1)
      (fun vert_lid =>
         9%:R / 32%:R
         * (1 + xi_point`_0 * ref_verts vert_lid 0)
         * (1 - xi_point`_1 * xi_point`_1)
         * (1 + 9%:R * xi_point`_1 * ref_verts vert_lid 1))
      basis in
  let x_point := write_loop (range num_dim_) (fun dim => 0) x_point in
  foldl (fun x_point vert_lid =>
           foldl (fun x_point dim =>
                    add_position vertices basis x_point vert_lid dim)
                 x_point (range num_dim_))
        x_point (range num_verts_).

End Quad12.

(** *** Hex8 (elements3D.cpp) *)

Module Hex8.

Definition num_dim_ : nat := 3.

Definition num_verts_ : nat := 8.

(** The header that declares [num_nodes_] is not among the sources; the
    number of nodes per axis is read off the table below, whose entry for
    the corner at xi = +1, eta = -1, mu = -1 is [num_nodes_1d - 1]. *)
Definition num_nodes_1d : nat := 3.

(** [Hex8::ref_vert], listed as {Xi, Eta, Mu}, one vertex per line. *)
Definition ref_vert : seq rat :=
  [:: - 1; - 1; - 1;
     1; - 1; - 1;
     - 1; 1; - 1;
     1; 1; - 1;
     - 1; - 1; 1;
     1; - 1; 1;
     - 1; 1; 1;
     1; 1; 1].

(** [Hex8::vert_to_node]. *)
Definition vert_to_node : seq nat :=
  [:: 0; 2; 6; 8; 18; 20; 24; 24]%N.

(** [Hex8::ref_locs(vert_lid, dim)] reads [ref_vert] as a
    [num_verts_] by [num_dim_] view. *)
Definition ref_locs (vert_lid dim : nat) : rat :=
  nth 0 ref_vert (vert_lid * num_dim_ + dim).

(** [Hex8::vert_node_map(vert_lid)]. *)
Definition vert_node_map (vert_lid : nat) : nat :=
  nth 0%N vert_to_node vert_lid.

(** The assignments [surface_to_dof_lid(r, c) = v] of the constructor
    [Hex8::Hex8()], as [(r, c, v)] in program order, one face block per
    line group. *)
Definition ctor_writes : seq (nat * nat * nat) :=
  [:: (0, 0, 0); (0, 1, 1); (0, 2, 2); (0, 3, 3);
     (1, 0, 4); (1, 1, 5); (1, 2, 6); (1, 3, 7);
     (2, 0, 0); (2, 1, 1); (2, 2, 4); (2, 3, 5);
     (3, 0, 2); (3, 1, 3); (3, 2, 6); (3, 3, 7);
     (4, 0, 0); (4, 1, 2); (4, 2, 4); (4, 3, 6);
     (5, 0, 1); (5, 1, 3); (5, 2, 5); (5, 3, 7)]%N.

(** The table [surface_to_dof_lid] once the constructor has run
    ([nsurfaces = 6], every stride 4). *)
Definition surface_to_dof_lid : seq (seq (option nat)) :=
  run_ctor 6 4 ctor_writes.

(** The view [ref_verts = ViewCArray(ref_vert, num_verts_, num_dim_)] that the
    member functions below open on the table. *)
Definition ref_verts (vert_lid dim : nat) : rat :=
  nth 0 ref_vert (vert_lid * num_dim_ + dim).

(** [Hex8::basis(basis, xi_point)]:
    the values of the basis functions at [xi_point]. *)
Definition basis (basis xi_point : seq rat) : seq rat :=
  write_loop (range num_verts_)
    (fun vert_lid =>
       1 / 8%:R
       * (1 + xi_point`_0 * ref_verts vert_lid 0)
       * (1 + xi_point`_1 * ref_verts vert_lid 1)
       * (1 + xi_point`_2 * ref_verts vert_lid 2))
    basis.

(** [Hex8::partial_xi_basis(partial_xi, xi_point)]:
    the partial derivatives with respect to Xi. *)
Definition partial_xi_basis (partial_xi xi_point : seq rat) : seq rat :=
  write_loop (range num_verts_)
    (fun vert_lid =>
       (1 / 8%:R)
       * (ref_verts vert_lid 0)
       * (1 + xi_point`_1 * ref_verts vert_lid 1)
       * (1 + xi_point`_2 * ref_verts vert_lid 2))
    partial_xi.

(** [Hex8::partial_eta_basis(partial_eta, xi_point)]:
    the partial derivatives with respect to Eta. *)
Definition partial_eta_basis (partial_eta xi_point : seq rat) : seq rat :=
  write_loop (range num_verts_)
    (fun vert_lid =>
       (1 / 8%:R)
       * (1 + xi_point`_0 * ref_verts vert_lid 0)
       * (ref_verts vert_lid 1)
       * (1 + xi_point`_2 * ref_verts vert_lid 2))
    partial_eta.

(** [Hex8::partial_mu_basis(partial_mu, xi_point)]:
    the partial derivatives with respect to Mu. *)
Definition partial_mu_basis (partial_mu xi_point : seq rat) : seq rat :=
  write_loop (range num_verts_)
    (fun vert_lid =>
       (1 / 8%:R)
       * (1 + xi_point`_0 * ref_verts vert_lid 0)
       * (1 + xi_point`_1 * ref_verts vert_lid 1)
       * (ref_verts vert_lid 2))
    partial_mu.

(** [Hex8::physical_position(x_point, xi_point, vertices)].  The local
    array [basis_a] is not initialised by the source; every cell of it is
    written before it is read, so its initial content is immaterial. *)
Definition physical_position (x_point xi_point : seq rat)
    (vertices : seq (seq rat)) : seq rat :=
  let basis := nseq num_verts_ 0 in
  let basis :=
    write_loop (range num_verts_)
      (fun vert_lid =>
         1 / 8%:R
         * (1 + xi_point`_0 * ref_verts vert_lid 0)
         * (1 + xi_point`_1 * ref_verts vert_lid 1)
         * (1 + xi_point`_2 * ref_verts vert_lid 2))
      basis in
  let x_point := write_loop (range num_dim_) (fun dim => 0) x_point in
  foldl (fun x_point vert_lid =>
           foldl (fun x_point dim =>
                    add_position vertices basis x_point vert_lid dim)
                 x_point (range num_dim_))
        x_point (range num_verts_).

End Hex8.

(** *** Hex20 (elements3D.cpp) *)

Module Hex20.

Definition num_dim_ : nat := 3.

Definition num_verts_ : nat := 20.

(** The header that declares [num_nodes_] is not among the sources; the
    number of nodes per axis is read off the table below, whose entry for
    the corner at xi = +1, eta = -1, mu = -1 is [num_nodes_1d - 1]. *)
Definition num_nodes_1d : nat := 5.

(** [Hex20::ref_vert], listed as {Xi, Eta, Mu}, one vertex per line. *)
Definition ref_vert : seq rat :=
  [:: - 1; - 1; - 1;
     1; - 1; - 1;
     1; 1; - 1;
     - 1; 1; - 1;
     - 1; - 1; 1;
     1; - 1; 1;
     1; 1; 1;
     - 1; 1; 1;
     0; - 1; - 1;
     1; 0; - 1;
     0; 1; - 1;
     - 1; 0; - 1;
     0; - 1; 1;
     1; 0; 1;
     0; 1; 1;
     - 1; 0; 1;
     - 1; - 1; 0;
     1; - 1; 0;
     1; 1; 0;
     - 1; 1; 0].

(** [Hex20::vert_to_node]. *)
Definition vert_to_node : seq nat :=
  [:: 0; 4; 24; 20; 100; 104; 124; 120; 2; 14; 22; 10; 102; 114; 122;
      110; 50; 54; 74; 70]%N.

(** [Hex20::ref_locs(vert_lid, dim)] reads [ref_vert] as a
    [num_verts_] by [num_dim_] view. *)
Definition ref_locs (vert_lid dim : nat) : rat :=
  nth 0 ref_vert (vert_lid * num_dim_ + dim).

(** [Hex20::vert_node_map(vert_lid)]. *)
Definition vert_node_map (vert_lid : nat) : nat :=
  nth 0%N vert_to_node vert_lid.

(** The assignments [surface_to_dof_lid(r, c) = v] of the constructor
    [Hex20::Hex20()], as [(r, c, v)] in program order, one face block per
    line group. *)
Definition ctor_writes : seq (nat * nat * nat) :=
  [:: (0, 0, 0); (0, 1, 8); (0, 2, 1); (0, 3, 11);
     (0, 4, 9); (0, 5, 3); (0, 6, 10); (0, 7, 2);
     (1, 0, 4); (1, 1, 12); (1, 2, 5); (1, 3, 15);
     (1, 4, 13); (1, 5, 7); (1, 6, 14); (1, 7, 6);
     (3, 0, 0); (3, 1, 8); (3, 2, 1); (3, 3, 16);
     (3, 4, 17); (3, 5, 4); (3, 6, 12); (3, 7, 5);
     (3, 0, 3); (3, 1, 10); (3, 2, 2); (3, 3, 19);
     (3, 4, 18); (3, 5, 7); (3, 6, 14); (3, 7, 6);
     (4, 0, 0); (4, 1, 11); (4, 2, 3); (4, 3, 16);
     (4, 4, 19); (4, 5, 4); (4, 6, 15); (4, 7, 7);
     (5, 0, 1); (5, 1, 9); (5, 2, 2); (5, 3, 17);
     (5, 4, 18); (5, 5, 5); (5, 6, 13); (5, 7, 6)]%N.

(** The table [surface_to_dof_lid] once the constructor has run
    ([nsurfaces = 6], every stride 8). *)
Definition surface_to_dof_lid : seq (seq (option nat)) :=
  run_ctor 6 8 ctor_writes.

(** The view [ref_verts = ViewCArray(ref_vert, num_verts_, num_dim_)] that the
    member functions below open on the table. *)
Definition ref_verts (vert_lid dim : nat) : rat :=
  nth 0 ref_vert (vert_lid * num_dim_ + dim).

(** [Hex20::basis(basis, xi_point)]:
    the values of the basis functions at [xi_point]. *)
Definition basis (basis xi_point : seq rat) : seq rat :=
  let basis :=
    write_loop (range 8)
      (fun vert_lid =>
         1 / 8%:R
         * (1 + xi_point`_0 * ref_verts vert_lid 0)
         * (1 + xi_point`_1 * ref_verts vert_lid 1)
         * (1 + xi_point`_2 * ref_verts vert_lid 2)
         * (xi_point`_0 * ref_verts vert_lid 0
            + xi_point`_1 * ref_verts vert_lid 1
            + xi_point`_2 * ref_verts vert_lid 2 - 2%:R))
      basis in
  let basis :=
    write_loop (loop_le 8 14 2)
      (fun vert_lid =>
         1 / 4%:R
         * (1 - xi_point`_0 * xi_point`_0)
         * (1 + xi_point`_1 * ref_verts vert_lid 1)
         * (1 + xi_point`_2 * ref_verts vert_lid 2))
      basis in
  let basis :=
    write_loop (loop_le 16 19 1)
      (fun vert_lid =>
         1 / 4%:R
         * (1 + xi_point`_0 * ref_verts vert_lid 0)
         * (1 + xi_point`_1 * ref_verts vert_lid 1)
         * (1 - xi_point`_2 * xi_point`_2))
      basis in
  write_loop (loop_le 9 15 2)
    (fun vert_lid =>
       1 / 4%:R
       * (1 + xi_point`_0 * ref_verts vert_lid 0)
       * (1 - xi_point`_1 * xi_point`_1)
       * (1 + xi_point`_2 * ref_verts vert_lid 2))
    basis.

(** [Hex20::partial_xi_basis(partial_xi, xi_point)]:
    the partial derivatives with respect to Xi. *)
Definition partial_xi_basis (partial_xi xi_point : seq rat) : seq rat :=
  let partial_xi :=
    write_loop (range 8)
      (fun vert_lid =>
         (1 / 8%:R)
         * (ref_verts vert_lid 0)
         * (1 + (xi_point`_1 * ref_verts vert_lid 1))
         * (1 + (xi_point`_2 * ref_verts vert_lid 2))
         * (2%:R * (xi_point`_0 * ref_verts vert_lid 0)
            + xi_point`_1 * ref_verts vert_lid 1
            + xi_point`_2 * ref_verts vert_lid 2 - 1))
      partial_xi in
  let partial_xi :=
    write_loop (loop_le 8 14 2)
      (fun vert_lid =>
         (- 1 / 2%:R)
         * (xi_point`_0)
         * (1 + xi_point`_1 * ref_verts vert_lid 1)
         * (1 + xi_point`_2 * ref_verts vert_lid 2))
      partial_xi in
  let partial_xi :=
    write_loop (loop_le 9 15 2)
      (fun vert_lid =>
         (1 / 4%:R)
         * (ref_verts vert_lid 0)
         * (1 + xi_point`_1 * ref_verts vert_lid 1)
         * (1 - xi_point`_2 * xi_point`_2))
      partial_xi in
  write_loop (loop_le 16 19 1)
    (fun vert_lid =>
       (1 / 4%:R)
       * (ref_verts vert_lid 0)
       * (1 - xi_point`_1 * xi_point`_1)
       * (1 + xi_point`_2 * ref_verts vert_lid 2))
    partial_xi.

(** [Hex20::partial_eta_basis(partial_eta, xi_point)]:
    the partial derivatives with respect to Eta. *)
Definition partial_eta_basis (partial_eta xi_point : seq rat) : seq rat :=
  let partial_eta :=
    write_loop (range 8)
      (fun vert_lid =>
         (1 / 8%:R)
         * (1 + xi_point`_0 * ref_verts vert_lid 0)
         * (ref_verts vert_lid 1)
         * (1 + xi_point`_2 * ref_verts vert_lid 2)
         * (xi_point`_0 * ref_verts vert_lid 0
            + 2%:R * xi_point`_1 * ref_verts vert_lid 1
            + xi_point`_2 * ref_verts vert_lid 2 - 1))
      partial_eta in
  let partial_eta :=
    write_loop (loop_le 8 14 2)
      (fun vert_lid =>
         (1 / 4%:R)
         * (1 - (xi_point`_0 * xi_point`_0))
         * (ref_verts vert_lid 1)
         * (1 + xi_point`_2 * ref_verts vert_lid 2))
      partial_eta in
  let partial_eta :=
    write_loop (loop_le 9 15 2)
      (fun vert_lid =>
         (- 1 / 2%:R)
         * (1 + xi_point`_0 * ref_verts vert_lid 0)
         * (xi_point`_1)
         * (1 + xi_point`_2 * ref_verts vert_lid 2))
      partial_eta in
  write_loop (loop_le 16 19 1)
    (fun vert_lid =>
       (1 / 4%:R)
       * (1 + xi_point`_0 * ref_verts vert_lid 0)
       * (ref_verts vert_lid 1)
       * (1 - (xi_point`_2 * xi_point`_2)))
    partial_eta.

(** [Hex20::partial_mu_basis(partial_mu, xi_point)]:
    the partial derivatives with respect to Mu. *)
Definition partial_mu_basis (partial_mu xi_point : seq rat) : seq rat :=
  let partial_mu :=
    write_loop (range 8)
      (fun vert_lid =>
         (1 / 8%:R)
         * (1 + xi_point`_0 * ref_verts vert_lid 0)
         * (1 + xi_point`_1 * ref_verts vert_lid 1)
         * (ref_verts vert_lid 2)
         * ((xi_point`_0 * ref_verts vert_lid 0)
            + (xi_point`_1 * ref_verts vert_lid 1)
            + (2%:R * xi_point`_2 * ref_verts vert_lid 2) - 1))
      partial_mu in
  let partial_mu :=
    write_loop (loop_le 8 14 2)
      (fun vert_lid =>
         (1 / 4%:R)
         * (1 - (xi_point`_0 * xi_point`_0))
         * (1 + xi_point`_1 * ref_verts vert_lid 1)
         * (ref_verts vert_lid 2))
      partial_mu in
  let partial_mu :=
    write_loop (loop_le 9 15 2)
      (fun vert_lid =>
         (1 / 4%:R)
         * (1 + xi_point`_0 * ref_verts vert_lid 0)
         * (1 - xi_point`_1 * xi_point`_1)
         * (ref_verts vert_lid 2))
      partial_mu in
  write_loop (loop_le 16 19 1)
    (fun vert_lid =>
       (- 1 / 2%:R)
       * (1 + xi_point`_0 * ref_verts vert_lid 0)
       * (1 + xi_point`_1 * ref_verts vert_lid 1)
       * (xi_point`_2))
    partial_mu.

(** [Hex20::physical_position(x_point, xi_point, vertices)].  The local
    array [basis_a] is not initialised by the source; every cell of it is
    written before it is read, so its initial content is immaterial. *)
Definition physical_position (x_point xi_point : seq rat)
    (vertices : seq (seq rat)) : seq rat :=
  let basis := nseq num_verts_ 0 in
  let basis :=
    write_loop (range 8)
      (fun vert_lid =>
         1 / 8%:R
         * (1 + xi_point`_0 * ref_verts vert_lid 0)
         * (1 + xi_point`_1 * ref_verts vert_lid 1)
         * (1 + xi_point`_2 * ref_verts vert_lid 2)
         * (xi_point`_0 * ref_verts vert_lid 0
            + xi_point`_1 * ref_verts vert_lid 1
            + xi_point`_2 * ref_verts vert_lid 2 - 2%:R))
      basis in
  let basis :=
    write_loop (loop_le 8 14 2)
      (fun vert_lid =>
         1 / 4%:R
         * (1 - xi_point`_0 * xi_point`_0)
         * (1 + xi_point`_1 * ref_verts vert_lid 1)
         * (1 + xi_point`_2 * ref_verts vert_lid 2))
      basis in
  let basis :=
    write_loop (loop_le 16 19 1)
      (fun vert_lid =>
         1 / 4%:R
         * (1 + xi_point`_0 * ref_verts vert_lid 0)
         * (1 + xi_point`_1 * ref_verts vert_lid 1)
         * (1 - xi_point`_2 * xi_point`_2))
      basis in
  let basis :=
    write_loop (loop_le 9 15 2)
      (fun vert_lid =>
         1 / 4%:R
         * (1 + xi_point`_0 * ref_verts vert_lid 0)
         * (1 - xi_point`_1 * xi_point`_1)
         * (1 + xi_point`_2 * ref_verts vert_lid 2))
      basis in
  let x_point := write_loop (range num_dim_) (fun dim => 0) x_point in
  foldl (fun x_point dim =>
           foldl (fun x_point vert_lid =>
                    add_position vertices basis x_point vert_lid dim)
                 x_point (range num_verts_))
        x_point (range num_dim_).

End Hex20.

(** *** Hex32 (elements3D.cpp) *)

Module Hex32.

Definition num_dim_ : nat := 3.

Definition num_verts_ : nat := 32.

(** The header that declares [num_nodes_] is not among the sources; the
    number of nodes per axis is read off the table below, whose entry for
    the corner at xi = +1, eta = -1, mu = -1 is [num_nodes_1d - 1]. *)
Definition num_nodes_1d : nat := 7.

(** [Hex32::ref_vert], listed as {Xi, Eta, Mu}, one vertex per line. *)
Definition ref_vert : seq rat :=
  [:: - 1; - 1; - 1;
     1; - 1; - 1;
     1; 1; - 1;
     - 1; 1; - 1;
     - 1; - 1; 1;
     1; - 1; 1;
     1; 1; 1;
     - 1; 1; 1;
     - 1; - (1 / 3); - 1;
     1; - (1 / 3); - 1;
     1; 1 / 3; - 1;
     - 1; 1 / 3; - 1;
     - 1; - (1 / 3); 1;
     1; - (1 / 3); 1;
     1; 1 / 3; 1;
     - 1; 1 / 3; 1;
     - (1 / 3); - 1; - 1;
     1 / 3; - 1; - 1;
     1 / 3; 1; - 1;
     - (1 / 3); 1; - 1;
     - (1 / 3); - 1; 1;
     1 / 3; - 1; 1;
     1 / 3; 1; 1;
     - (1 / 3); 1; 1;
     - 1; - 1; - (1 / 3);
     1; - 1; - (1 / 3);
     1; 1; - (1 / 3);
     - 1; 1; - (1 / 3);
     - 1; - 1; 1 / 3;
     1; - 1; 1 / 3;
     1; 1; 1 / 3;
     - 1; 1; 1 / 3].

(** [Hex32::vert_to_node]. *)
Definition vert_to_node : seq nat :=
  [:: 0; 6; 48; 42; 294; 300; 342; 336; 14; 20; 32; 28; 308; 314; 328;
      322; 2; 4; 46; 44; 296; 298; 340; 338; 98; 104; 146; 140; 196;
      202; 244; 298]%N.

(** [Hex32::ref_locs(vert_lid, dim)] reads [ref_vert] as a
    [num_verts_] by [num_dim_] view. *)
Definition ref_locs (vert_lid dim : nat) : rat :=
  nth 0 ref_vert (vert_lid * num_dim_ + dim).

(** [Hex32::vert_node_map(vert_lid)]. *)
Definition vert_node_map (vert_lid : nat) : nat :=
  nth 0%N vert_to_node vert_lid.

(** The assignments [surface_to_dof_lid(r, c) = v] of the constructor
    [Hex32::Hex32()], as [(r, c, v)] in program order, one face block per
    line group. *)
Definition ctor_writes : seq (nat * nat * nat) :=
  [:: (0, 0, 0); (0, 1, 16); (0, 2, 17); (0, 3, 1);
     (0, 4, 8); (0, 5, 9); (0, 6, 11); (0, 7, 10);
     (0, 8, 3); (0, 9, 19); (0, 10, 18); (0, 11, 2);
     (1, 0, 4); (1, 1, 20); (1, 2, 21); (1, 3, 5);
     (1, 4, 12); (1, 5, 13); (1, 6, 15); (1, 7, 14);
     (1, 8, 7); (1, 9, 23); (1, 10, 22); (1, 11, 6);
     (2, 0, 0); (2, 1, 16); (2, 2, 17); (2, 3, 1);
     (2, 4, 24); (2, 5, 25); (2, 6, 28); (2, 7, 29);
     (2, 8, 4); (2, 9, 20); (2, 10, 21); (2, 11, 25);
     (3, 0, 3); (3, 1, 19); (3, 2, 18); (3, 3, 2);
     (3, 4, 27); (3, 5, 26); (3, 6, 31); (3, 7, 30);
     (3, 8, 7); (3, 9, 23); (3, 10, 22); (3, 11, 6);
     (4, 0, 0); (4, 1, 8); (4, 2, 11); (4, 3, 3);
     (4, 4, 24); (4, 5, 27); (4, 6, 28); (4, 7, 31);
     (4, 8, 4); (4, 9, 12); (4, 10, 15); (4, 11, 7);
     (5, 0, 1); (5, 1, 9); (5, 2, 10); (5, 3, 2);
     (5, 4, 25); (5, 5, 26); (5, 6, 29); (5, 7, 30);
     (5, 8, 5); (5, 9, 13); (5, 10, 14); (5, 11, 6)]%N.

(** The table [surface_to_dof_lid] once the constructor has run
    ([nsurfaces = 6], every stride 12). *)
Definition surface_to_dof_lid : seq (seq (option nat)) :=
  run_ctor 6 12 ctor_writes.

(** The view [ref_verts = ViewCArray(ref_vert, num_verts_, num_dim_)] that the
    member functions below open on the table. *)
Definition ref_verts (vert_lid dim : nat) : rat :=
  nth 0 ref_vert (vert_lid * num_dim_ + dim).

(** [Hex32::basis(basis, xi_point)]:
    the values of the basis functions at [xi_point]. *)
Definition basis (basis xi_point : seq rat) : seq rat :=
  let basis :=
    write_loop (range 8)
      (fun vert_lid =>
         (1 / 64%:R)
         * (1 + xi_point`_0 * ref_verts vert_lid 0)
         * (1 + xi_point`_1 * ref_verts vert_lid 1)
         * (1 + xi_point`_2 * ref_verts vert_lid 2)
         * (9%:R * xi_point`_0 * xi_point`_0
            + 9%:R * xi_point`_1 * xi_point`_1
            + 9%:R * xi_point`_2 * xi_point`_2 - 19%:R))
      basis in
  let basis :=
    write_loop (loop_le 8 15 1)
      (fun vert_lid =>
         (9%:R / 64%:R)
         * (1 + xi_point`_0 * ref_verts vert_lid 0)
         * (1 - xi_point`_1 * xi_point`_1)
         * (1 + 9%:R * xi_point`_1 * ref_verts vert_lid 1)
         * (1 + xi_point`_2 * ref_verts vert_lid 2))
      basis in
  let basis :=
    write_loop (loop_le 16 23 1)
      (fun vert_lid =>
         (9%:R / 64%:R)
         * (1 - xi_point`_0 * xi_point`_0)
         * (1 + 9%:R * xi_point`_0 * ref_verts vert_lid 0)
         * (1 + xi_point`_1 * ref_verts vert_lid 1)
         * (1 + xi_point`_2 * ref_verts vert_lid 2))
      basis in
  write_loop (loop_lt 24 num_verts_)
    (fun vert_lid =>
       (9%:R / 64%:R)
       * (1 + xi_point`_0 * ref_verts vert_lid 0)
       * (1 + xi_point`_1 * ref_verts vert_lid 1)
       * (1 + 9%:R * xi_point`_2 * ref_verts vert_lid 2)
       * (1 - xi_point`_2 * xi_point`_2))
    basis.

(** [Hex32::partial_xi_basis(partial_xi, xi_point)]:
    the partial derivatives with respect to Xi. *)
Definition partial_xi_basis (partial_xi xi_point : seq rat) : seq rat :=
  let partial_xi :=
    write_loop (range 8)
      (fun vert_lid =>
         (1 / 64%:R)
         * (1 + xi_point`_1 * ref_verts vert_lid 1)
         * (1 + xi_point`_2 * ref_verts vert_lid 2)
         * ((9%:R * (ref_verts vert_lid 0) * (xi_point`_0 * xi_point`_0
            + xi_point`_1 * xi_point`_1 + xi_point`_2 * xi_point`_2))
            + (18%:R * xi_point`_0 * (1 + xi_point`_0 * ref_verts vert_lid 0))
            - (19%:R * ref_verts vert_lid 0)))
      partial_xi in
  let partial_xi :=
    write_loop (loop_le 8 15 1)
      (fun vert_lid =>
         (9%:R / 64%:R)
         * (ref_verts vert_lid 0)
         * (1 + xi_point`_1 * ref_verts vert_lid 1)
         * (1 + 9%:R * xi_point`_2 * ref_verts vert_lid 2)
         * (1 - xi_point`_2 * xi_point`_2))
      partial_xi in
  let partial_xi :=
    write_loop (loop_le 16 23 1)
      (fun vert_lid =>
         (9%:R / 64%:R)
         * (1 + xi_point`_1 * ref_verts vert_lid 1)
         * (1 + xi_point`_2 * ref_verts vert_lid 2)
         * (9%:R * ref_verts vert_lid 0 * (1
            - 3%:R * xi_point`_0 * xi_point`_0) - (2%:R * xi_point`_0)))
      partial_xi in
  write_loop (loop_le 24 31 1)
    (fun vert_lid =>
       (9%:R / 64%:R)
       * (ref_verts vert_lid 0)
       * (1 - xi_point`_1 * xi_point`_1)
       * (1 + 9%:R * xi_point`_1 * ref_verts vert_lid 1)
       * (1 + xi_point`_2 * ref_verts vert_lid 2))
    partial_xi.

(** [Hex32::partial_eta_basis(partial_eta, xi_point)]:
    the partial derivatives with respect to Eta. *)
Definition partial_eta_basis (partial_eta xi_point : seq rat) : seq rat :=
  let partial_eta :=
    write_loop (range 8)
      (fun vert_lid =>
         (1 / 64%:R)
         * (1 + xi_point`_0 * ref_verts vert_lid 0)
         * (1 + xi_point`_2 * ref_verts vert_lid 2)
         * ((9%:R * ref_verts vert_lid 1 * (xi_point`_0 * xi_point`_0
            + xi_point`_1 * xi_point`_1 + xi_point`_2 * xi_point`_2))
            + (18%:R * xi_point`_1 * (1 + xi_point`_1 * ref_verts vert_lid 1))
            - (19%:R * ref_verts vert_lid 1)))
      partial_eta in
  let partial_eta :=
    write_loop (loop_le 8 15 1)
      (fun vert_lid =>
         (9%:R / 64%:R)
         * (1 + xi_point`_0 * ref_verts vert_lid 0)
         * (1 + xi_point`_2 * ref_verts vert_lid 2)
         * ((9%:R * ref_verts vert_lid 1 * (1
            - 3%:R * xi_point`_1 * xi_point`_1)) - (2%:R * xi_point`_1)))
      partial_eta in
  let partial_eta :=
    write_loop (loop_le 16 23 1)
      (fun vert_lid =>
         (9%:R / 64%:R)
         * (1 - xi_point`_0 * xi_point`_0)
         * (1 + 9%:R * xi_point`_0 * ref_verts vert_lid 0)
         * (ref_verts vert_lid 1)
         * (1 + xi_point`_2 * ref_verts vert_lid 2))
      partial_eta in
  write_loop (loop_le 24 31 1)
    (fun vert_lid =>
       (9%:R / 64%:R)
       * (1 + xi_point`_0 * ref_verts vert_lid 0)
       * (ref_verts vert_lid 1)
       * (1 + 9%:R * xi_point`_2 * ref_verts vert_lid 2)
       * (1 - xi_point`_2 * xi_point`_2))
    partial_eta.

(** [Hex32::partial_mu_basis(partial_mu, xi_point)]:
    the partial derivatives with respect to Mu. *)
Definition partial_mu_basis (partial_mu xi_point : seq rat) : seq rat :=
  let partial_mu :=
    write_loop (range 8)
      (fun vert_lid =>
         (1 / 64%:R)
         * (1 + xi_point`_0 * ref_verts vert_lid 0)
         * (1 + xi_point`_1 * ref_verts vert_lid 1)
         * ((9%:R * (ref_verts vert_lid 2) * (xi_point`_0 * xi_point`_0
            + xi_point`_1 * xi_point`_1 + xi_point`_2 * xi_point`_2))
            + (18%:R * xi_point`_2 * (1 + xi_point`_2 * ref_verts vert_lid 2))
            - (19%:R * ref_verts vert_lid 2)))
      partial_mu in
  let partial_mu :=
    write_loop (loop_le 8 15 1)
      (fun vert_lid =>
         (9%:R / 64%:R)
         * (1 + xi_point`_0 * ref_verts vert_lid 0)
         * (1 - xi_point`_1 * xi_point`_1)
         * (1 + 9%:R * xi_point`_1 * ref_verts vert_lid 1)
         * (ref_verts vert_lid 2))
      partial_mu in
  let partial_mu :=
    write_loop (loop_le 16 23 1)
      (fun vert_lid =>
         (9%:R / 64%:R)
         * (1 - xi_point`_0 * xi_point`_0)
         * (1 + 9%:R * xi_point`_0 * ref_verts vert_lid 0)
         * (1 + xi_point`_1 * ref_verts vert_lid 1)
         * (ref_verts vert_lid 2))
      partial_mu in
  write_loop (loop_le 24 31 1)
    (fun vert_lid =>
       (9%:R / 64%:R)
       * (1 + xi_point`_0 * ref_verts vert_lid 0)
       * (1 + xi_point`_1 * ref_verts vert_lid 1)
       * ((9%:R * ref_verts vert_lid 2 * (1
          - 3%:R * xi_point`_2 * xi_point`_2)) - (2%:R * xi_point`_2)))
    partial_mu.

End Hex32.
(** *** Tess16 (elements4D.cpp) *)

Module Tess16.

(** The header that declares [num_verts] and [num_dim] is not among the
    sources; the values are the literal bounds of the loops of
    [physical_position], and the table below has their product as its
    number of entries. *)
Definition num_dim : nat := 4.

Definition num_verts : nat := 16.

(** [Tess16::ref_vert], listed as {Xi, Eta, Mu, Tau}, one vertex per
    line. *)
Definition ref_vert : seq rat :=
  [:: - 1; - 1; - 1; - 1;
     1; - 1; - 1; - 1;
     1; - 1; 1; - 1;
     - 1; - 1; 1; - 1;
     - 1; 1; - 1; - 1;
     1; 1; - 1; - 1;
     1; 1; 1; - 1;
     - 1; 1; 1; - 1;
     - 1; - 1; - 1; 1;
     1; - 1; - 1; 1;
     1; - 1; 1; 1;
     - 1; - 1; 1; 1;
     - 1; 1; - 1; 1;
     1; 1; - 1; 1;
     1; 1; 1; 1;
     - 1; 1; 1; 1].

(** The view [ref_verts = ViewCArray(ref_vert, num_verts, num_dim)] that
    the member functions below open on the table. *)
Definition ref_verts (this_vert dim : nat) : rat :=
  nth 0 ref_vert (this_vert * num_dim + dim).

(** [Tess16::basis(basis, xi_point)]:
    the values of the basis functions at [xi_point]. *)
Definition basis (basis xi_point : seq rat) : seq rat :=
  write_loop (range num_verts)
    (fun this_vert =>
       1 / 16%:R
       * (1 + xi_point`_0 * ref_verts this_vert 0)
       * (1 + xi_point`_1 * ref_verts this_vert 1)
       * (1 + xi_point`_2 * ref_verts this_vert 2)
       * (1 + xi_point`_3 * ref_verts this_vert 3))
    basis.

(** [Tess16::partial_xi_basis(partial_xi, xi_point)]:
    the partial derivatives with respect to Xi. *)
Definition partial_xi_basis (partial_xi xi_point : seq rat) : seq rat :=
  write_loop (range num_verts)
    (fun this_vert =>
       1 / 16%:R
       * (ref_verts this_vert 0)
       * (1 + xi_point`_1 * ref_verts this_vert 1)
       * (1 + xi_point`_2 * ref_verts this_vert 2)
       * (1 + xi_point`_3 * ref_verts this_vert 3))
    partial_xi.

(** [Tess16::partial_eta_basis(partial_eta, xi_point)]:
    the partial derivatives with respect to Eta. *)
Definition partial_eta_basis (partial_eta xi_point : seq rat) : seq rat :=
  write_loop (range num_verts)
    (fun this_vert =>
       1 / 16%:R
       * (1 + xi_point`_0 * ref_verts this_vert 0)
       * (ref_verts this_vert 1)
       * (1 + xi_point`_2 * ref_verts this_vert 2)
       * (1 + xi_point`_3 * ref_verts this_vert 3))
    partial_eta.

(** [Tess16::partial_mu_basis(partial_mu, xi_point)]:
    the partial derivatives with respect to Mu. *)
Definition partial_mu_basis (partial_mu xi_point : seq rat) : seq rat :=
  write_loop (range num_verts)
    (fun this_vert =>
       1 / 16%:R
       * (1 + xi_point`_0 * ref_verts this_vert 0)
       * (1 + xi_point`_1 * ref_verts this_vert 1)
       * (ref_verts this_vert 2)
       * (1 + xi_point`_3 * ref_verts this_vert 3))
    partial_mu.

(** [Tess16::partial_tau_basis(partial_tau, xi_point)]:
    the partial derivatives with respect to Tau. *)
Definition partial_tau_basis (partial_tau xi_point : seq rat) : seq rat :=
  write_loop (range num_verts)
    (fun this_vert =>
       1 / 16%:R
       * (1 + xi_point`_0 * ref_verts this_vert 0)
       * (1 + xi_point`_1 * ref_verts this_vert 1)
       * (1 + xi_point`_2 * ref_verts this_vert 2)
       * (ref_verts this_vert 3))
    partial_tau.

(** [Tess16::physical_position(x_point, xi_point, vertices)].  The local
    array [basis_a] is not initialised by the source; every cell of it is
    written before it is read, so its initial content is immaterial. *)
Definition physical_position (x_point xi_point : seq rat)
    (vertices : seq (seq rat)) : seq rat :=
  let basis := nseq num_verts 0 in
  let basis :=
    write_loop (range num_verts)
      (fun this_vert =>
         1 / 16%:R
         * (1 + xi_point`_0 * ref_verts this_vert 0)
         * (1 + xi_point`_1 * ref_verts this_vert 1)
         * (1 + xi_point`_2 * ref_verts this_vert 2)
         * (1 + xi_point`_3 * ref_verts this_vert 3))
      basis in
  let x_point := write_loop (range 4) (fun dim => 0) x_point in
  foldl (fun x_point vert_lid =>
           foldl (fun x_point dim =>
                    add_position vertices basis x_point vert_lid dim)
                 x_point (range 4))
        x_point (range 16).

End Tess16.

(** ** Reference positions of the fixed-order vertices on the node grid

    The statement side of the table check: the node grid of a fixed-order
    element has [n] equally spaced coordinates per axis on [-1, 1], so the
    coordinate [x] sits at grid index [(x + 1) * (n - 1) / 2]; a position
    is numbered [i + j*n] in 2D and [i + j*n + k*n^2] in 3D. *)

(** The grid index of coordinate [x], when [x] is a grid coordinate. *)
Definition grid_index (n : nat) (x : rat) : option nat :=
  let q := (x + 1) * (n.-1)%:R / 2%:R in
  if (numq q, denq q) is (Posz i, Posz 1) then Some i else None.

(** The flat node id of the position whose coordinates are [pos]
    (axis 1 first): [i + j*n + k*n^2], computed by Horner's rule from the
    last axis down. *)
Definition position_node_id (n : nat) (pos : seq rat) : option nat :=
  foldr (fun x acc =>
           if (grid_index n x, acc) is (Some i, Some m)
           then Some (i + m * n)%N else None)
        (Some 0%N) pos.

(** The coordinates of vertex [vert_lid], read through the element's
    [ref_locs] accessor. *)
Definition vertex_position (num_dim : nat) (ref_locs : nat -> nat -> rat)
    (vert_lid : nat) : seq rat :=
  mkseq (ref_locs vert_lid) num_dim.

(** Every vertex is mapped to the node id of its own reference position. *)
Definition table_at_positions (n num_dim num_verts : nat)
    (ref_locs : nat -> nat -> rat) (vert_node_map : nat -> nat) : bool :=
  all (fun v => position_node_id n (vertex_position num_dim ref_locs v)
                == Some (vert_node_map v))
      (iota 0 num_verts).

(** Distinct vertex ids are mapped to distinct node ids. *)
Definition table_injective (num_verts : nat) (vert_node_map : nat -> nat)
  : bool :=
  uniq (mkseq vert_node_map num_verts).

(** ** The Lagrange tensor-product element of elements-kokkos

    [LagrangeProductBasis.h] only declares the member functions and the
    test driver only calls them; their bodies are not among the sources. *)

Module LagrangeElement.

Section Defs.

Variable F : fieldType.

(** The data members [N], [Ne] and [Z] declared in the header. *)
Record t : Type := Mk { N : nat; Ne : nat; Z : seq F }.

(** Modelled from the spec: the body of the Lagrange1D value is missing;
    the spec gives [l_i(x) = prod_(j != i) (x - node_j) / (node_i - node_j)]. *)
Definition lagrange_value (e : t) (i : nat) (x : F) : F :=
  \prod_(0 <= j < N e | j != i)
     ((x - nth 0 (Z e) j) / (nth 0 (Z e) i - nth 0 (Z e) j)).

(** Modelled from the spec: the TensorProductIndexer's decoder
    [multi_index(flat)] for three axes of size [n], axis 1 fastest. *)
Definition multi_index (n flat : nat) : nat * nat * nat :=
  (flat %% n, (flat %/ n) %% n, flat %/ (n * n))%N.

(** Modelled from the spec: the body of [eval_basis(I, X)] is missing;
    the spec's [basis] decodes the flat index and multiplies the per-axis
    Lagrange values. *)
Definition eval_basis (e : t) (I : nat) (X : seq F) : F :=
  let: (i, j, k) := multi_index (N e) I in
  lagrange_value e i (nth 0 X 0) * lagrange_value e j (nth 0 X 1)
  * lagrange_value e k (nth 0 X 2).

(** Modelled from the spec: [basis(point) -> values[num_basis]]. *)
Definition basis (e : t) (X : seq F) : seq F :=
  mkseq (fun I => eval_basis e I X) (Ne e).





End Defs.

End LagrangeElement.

(** ** The test driver of the Bernstein polynomials
       (tests/test_bernstein_polynomials.cpp) *)

Module BernsteinTest.

Section Defs.

Variable R : numDomainType.

(** [bernstein::eval(N, j, X)] belongs to bernstein_polynomials.h, which
    is not among the sources: it is a parameter here. *)
Variable eval : nat -> nat -> R -> R.

(** [test4(p)], for [p.N = N]; [rand_X i] is the coordinate that the pass
    [i] of the outer loop draws. *)
Definition test4 (N : nat) (rand_X : nat -> R) : bool :=
  let pass := false in
  let NumTests := 1000%N in
  foldl (fun pass i =>
           let rand_X := rand_X i in
           foldl (fun pass j =>
                    let val := eval N j rand_X in
                    if 0 <= val then true else pass)
                 pass (range N))
        pass (range (NumTests + 1)).

End Defs.

End BernsteinTest.

(** ** Polynomials used to state properties of the evaluators *)

(** The Lagrange basis polynomial of index [i] on the nodes
    [v 0, ..., v (n-1)]: the product over [j != i] of
    [('X - v j) / (v i - v j)]. *)
Definition lagrange_poly (F : fieldType) (n : nat) (v : nat -> F) (i : nat)
  : {poly F} :=
  \prod_(0 <= j < n | j != i) ((v i - v j)^-1 *: ('X - (v j)%:P)).

(** ** Vocabulary for the properties of the fixed-order elements *)

(** The basis function of every vertex is 1 at the reference position of
    that vertex and 0 at the reference position of every other vertex. *)
Definition nodal_basis (num_verts num_dim : nat)
    (ref_verts : nat -> nat -> rat)
    (basis : seq rat -> seq rat -> seq rat) : Prop :=
  forall (out : seq rat) (v w : nat),
    (v < num_verts)%N -> (w < num_verts)%N ->
    (basis out (vertex_position num_dim ref_verts w))`_v = (v == w)%:R.

(** The first [num_verts] cells written by [evaluator] add up to [total]
    at every point. *)
Definition sums_to (total : rat) (num_verts : nat)
    (evaluator : seq rat -> seq rat -> seq rat) : Prop :=
  forall out xi_point : seq rat,
    \sum_(0 <= v < num_verts) (evaluator out xi_point)`_v = total.

(** For the vertices [vs], [partial] is the derivative of [basis] along
    the reference axis [d]: moving the coordinate [d] of the point and
    keeping the others, the value of the basis function is a polynomial
    in that coordinate, and [partial] returns the value of its formal
    derivative at the point. *)
Definition derivative_on (vs : seq nat) (d : nat)
    (basis partial : seq rat -> seq rat -> seq rat) : Prop :=
  forall (out xi_point : seq rat) (v : nat),
    v \in vs ->
    exists p : {poly rat},
      (forall t : rat, (basis out (set_nth 0 xi_point d t))`_v = p.[t])
      /\ (partial out xi_point)`_v = (p^`()).[xi_point`_d].

(** [physical_position] interpolates the vertex positions [vertices] with
    the values that [basis] writes, on the first [num_dim] coordinates,
    and leaves the other cells of [x_point] alone. *)
Definition interpolates_position (num_verts num_dim : nat)
    (basis : seq rat -> seq rat -> seq rat)
    (physical_position : seq rat -> seq rat -> seq (seq rat) -> seq rat)
  : Prop :=
  forall (x_point out xi_point : seq rat) (vertices : seq (seq rat))
         (dim : nat),
    ((dim < num_dim)%N ->
       (physical_position x_point xi_point vertices)`_dim
       = \sum_(0 <= v < num_verts)
            get2 0 vertices v dim * (basis out xi_point)`_v)
    /\ ((num_dim <= dim)%N ->
          (physical_position x_point xi_point vertices)`_dim = x_point`_dim).

(** The reference positions of all the vertices, one row per vertex. *)
Definition reference_vertices (num_verts num_dim : nat)
    (ref_verts : nat -> nat -> rat) : seq (seq rat) :=
  mkseq (vertex_position num_dim ref_verts) num_verts.

(** At the reference position of the vertex [w], [physical_position]
    returns the position given for [w]; and on the reference vertices
    themselves it returns the reference point it was given. *)
Definition maps_reference (num_verts num_dim : nat)
    (ref_verts : nat -> nat -> rat)
    (physical_position : seq rat -> seq rat -> seq (seq rat) -> seq rat)
  : Prop :=
  (forall (x_point : seq rat) (vertices : seq (seq rat)) (w dim : nat),
     (w < num_verts)%N -> (dim < num_dim)%N ->
     (physical_position x_point (vertex_position num_dim ref_verts w)
                        vertices)`_dim
     = get2 0 vertices w dim)
  /\ (forall (x_point xi_point : seq rat) (dim : nat),
        (dim < num_dim)%N ->
        (physical_position x_point xi_point
           (reference_vertices num_verts num_dim ref_verts))`_dim
        = xi_point`_dim).

(** ** Polynomial expressions in one variable

    The syntax used to read a value computed by the code as a polynomial
    in one coordinate of the point. *)

Inductive pexpr : Type :=
  | PVar
  | PConst (c : rat)
  | PAdd (a b : pexpr)
  | PMul (a b : pexpr)
  | PNeg (a : pexpr).

(** The value of an expression at [t]. *)
Fixpoint peval (e : pexpr) (t : rat) : rat :=
  match e with
  | PVar => t
  | PConst c => c
  | PAdd a b => peval a t + peval b t
  | PMul a b => peval a t * peval b t
  | PNeg a => - peval a t
  end.

(** The polynomial an expression denotes. *)
Fixpoint ppoly (e : pexpr) : {poly rat} :=
  match e with
  | PVar => 'X
  | PConst c => c%:P
  | PAdd a b => ppoly a + ppoly b
  | PMul a b => ppoly a * ppoly b
  | PNeg a => - ppoly a
  end.

(** The derivative of an expression. *)
Fixpoint pderiv (e : pexpr) : pexpr :=
  match e with
  | PVar => PConst 1
  | PConst _ => PConst 0
  | PAdd a b => PAdd (pderiv a) (pderiv b)
  | PMul a b => PAdd (PMul (pderiv a) b) (PMul a (pderiv b))
  | PNeg a => PNeg (pderiv a)
  end.

(** [P] holds of every entry of the list. *)
Definition each (A : Type) (P : A -> Prop) (xs : seq A) : Prop :=
  foldr (fun x acc => P x /\ acc) True xs.

(** The entry number [d] of [partials] is the derivative of [basis]
    along the axis [d], for the vertices [vs]. *)
Definition gradient_on (vs : seq nat)
    (basis : seq rat -> seq rat -> seq rat)
    (partials : seq (seq rat -> seq rat -> seq rat)) : Prop :=
  forall d : nat,
    (d < size partials)%N -> derivative_on vs d basis (nth basis partials d).

(** * Verification *)

(** ** Generic facts on loops and arrays *)

Section LoopFacts.

Variables (T : Type) (x0 : T).

Lemma eq_foldl (A B : Type) (f g : A -> B -> A) (a : A) (s : seq B) :
  (forall a b, f a b = g a b) -> foldl f a s = foldl g a s.
Proof. by move=> fg; elim: s a => //= b s IH a; rewrite fg IH. Qed.

(** A loop of array writes [a(g q) = f q]: the cell [g p] of a visited [p]
    ends up holding [f p] as soon as the writes that hit the same cell
    agree on the value. *)
Lemma foldl_set_nth (I : eqType) (g : I -> nat) (f : I -> T) (s : seq I)
    (a : seq T) (p : I) :
  p \in s -> (forall q, q \in s -> g q = g p -> f q = f p) ->
  nth x0 (foldl (fun a q => set_nth x0 a (g q) (f q)) a s) (g p) = f p.
Proof.
elim/last_ind: s => // s q IH; rewrite mem_rcons in_cons => pin agree.
rewrite -cats1 foldl_cat /= nth_set_nth /=.
case: eqP => [gpq|ngpq]; first by apply: agree; rewrite ?mem_rcons ?mem_head.
case/orP: pin => [/eqP pq|pin]; first by rewrite pq in ngpq.
by apply: IH => // r rin; apply: agree; rewrite mem_rcons in_cons rin orbT.
Qed.

Lemma foldl_set_nth_range (f : nat -> T) (n : nat) (a : seq T) (i : nat) :
  (i < n)%N ->
  nth x0 (foldl (fun a q => set_nth x0 a q (f q)) a (range n)) i = f i.
Proof.
move=> lt_in.
have := @foldl_set_nth nat id f (range n) a i.
by apply=> [|q _ ->] //; rewrite mem_iota.
Qed.

Lemma get2_set2 (a : seq (seq T)) (i d i' d' : nat) (w : T) :
  get2 x0 (set2 x0 a i d w) i' d'
  = if (i' == i) && (d' == d) then w else get2 x0 a i' d'.
Proof.
rewrite /get2 /set2 nth_set_nth /=.
by case: (i' =P i) => [->|] //=; rewrite nth_set_nth.
Qed.

(** The three nested loops are one loop over [loop_triples]. *)
Lemma for3_foldl (S : Type) (ks js ns : seq nat)
    (body : nat -> nat -> nat -> S -> S) (st : S) :
  for3 ks js ns body st
  = foldl (fun st (p : nat * nat * nat) => body p.1.1 p.1.2 p.2 st) st
          (loop_triples ks js ns).
Proof.
rewrite /for3 /loop_triples; elim: ks st => //= k ks IHk st.
rewrite foldl_cat -IHk; congr foldl.
elim: js st {IHk} => //= j js IHj st.
rewrite foldl_cat -IHj; congr foldl.
by elim: ns st {IHj} => //= i ns IHi st; rewrite IHi.
Qed.

Lemma loop_triplesP (ks js ns : seq nat) (i j k : nat) :
  ((i, j, k) \in loop_triples ks js ns)
  = [&& i \in ns, j \in js & k \in ks].
Proof.
rewrite /loop_triples; apply/flattenP/and3P => [[s /mapP[k' k'in ->]]|].
  case/flattenP=> s' /mapP[j' j'in ->] /mapP[i' i'in [-> -> ->]].
  by split.
case=> iin jin kin; exists (flatten [seq [seq (i', j', k) | i' <- ns] | j' <- js]).
  by apply/mapP; exists k.
apply/flattenP; exists [seq (i', j, k) | i' <- ns]; first by apply/mapP; exists j.
by apply/mapP; exists i.
Qed.

End LoopFacts.

(** ** The flat index [i + j*n + k*n*n] *)

Section FlatIndex.

Variable n : nat.

Local Abbreviation flat i j k := (i + j * n + k * n * n)%N.

Lemma flat_indexE (i j k : nat) : flat i j k = ((j + k * n) * n + i)%N.
Proof. by rewrite mulnDl -addnA addnC. Qed.

Lemma multi_index_flat (i j k : nat) :
  (i < n)%N -> (j < n)%N ->
  LagrangeElement.multi_index n (flat i j k) = (i, j, k).
Proof.
move=> lt_in lt_jn; have n_gt0 : (0 < n)%N by apply: leq_ltn_trans lt_in.
rewrite /LagrangeElement.multi_index divnMA flat_indexE.
rewrite modnMDl modn_small // divnMDl // divn_small // addn0.
by rewrite addnC modnMDl modn_small // divnMDl // divn_small // addn0.
Qed.

Lemma flat_multi_index (m : nat) :
  let: (i, j, k) := LagrangeElement.multi_index n m in flat i j k = m.
Proof.
rewrite /LagrangeElement.multi_index flat_indexE divnMA.
by rewrite [(_ %% n + _)%N]addnC -divn_eq -divn_eq.
Qed.

Lemma flat_index_lt (i j k : nat) :
  (i < n)%N -> (j < n)%N -> (k < n)%N -> (flat i j k < n ^ 3)%N.
Proof.
move=> lt_in lt_jn lt_kn; rewrite flat_indexE.
have le1 : ((j + k * n).+1 <= n * n)%N.
  rewrite -addSn; apply: (@leq_trans (n + k * n)%N); first by rewrite leq_add2r.
  by rewrite -mulSn leq_mul2r lt_kn orbT.
apply: (@leq_trans ((j + k * n).+1 * n)%N); first by rewrite mulSn [(n + _)%N]addnC ltn_add2l.
by rewrite expnSr expnSr expn1 leq_mul2r le1 orbT.
Qed.

(** The natural-number reading of the [int] arithmetic is the machine
    one: when the number of nodes [n ^ 3] does not exceed [M + 1] (for
    [M] the largest [int]), every intermediate value of
    [i + j*n + k*n*n] is at most [M]. *)
Lemma flat_index_no_overflow (M i j k : nat) :
  (n ^ 3 <= M.+1)%N -> (i < n)%N -> (j < n)%N -> (k < n)%N ->
  [/\ (j * n <= M)%N, (i + j * n <= M)%N, (k * n <= M)%N,
      (k * n * n <= M)%N & (flat i j k <= M)%N].
Proof.
move=> le_M lt_in lt_jn lt_kn.
have n_gt0 : (0 < n)%N by apply: leq_ltn_trans lt_in.
have lt_flat : (flat i j k <= M)%N.
  by rewrite -ltnS; apply: leq_trans (flat_index_lt lt_in lt_jn lt_kn) le_M.
have le_kn : (k * n * n <= M)%N by apply: leq_trans (leq_addl _ _) lt_flat.
split=> //.
- by apply: leq_trans lt_flat; rewrite -addnA addnCA leq_addr.
- by apply: leq_trans (leq_addr _ _) lt_flat.
- by apply: leq_trans le_kn; rewrite leq_pmulr.
Qed.

Lemma multi_index_lt (m : nat) :
  (0 < n)%N -> (m < n ^ 3)%N ->
  let: (i, j, k) := LagrangeElement.multi_index n m in
  [/\ (i < n)%N, (j < n)%N & (k < n)%N].
Proof.
move=> n_gt0 lt_m; rewrite /LagrangeElement.multi_index.
by split; rewrite ?ltn_pmod // ltn_divLR ?muln_gt0 ?n_gt0.
Qed.

Lemma flat_index_inj (i j k i' j' k' : nat) :
  (i < n)%N -> (j < n)%N -> (i' < n)%N -> (j' < n)%N ->
  flat i j k = flat i' j' k' -> (i, j, k) = (i', j', k').
Proof.
move=> lt_in lt_jn lt_i'n lt_j'n eq_flat.
by rewrite -(multi_index_flat k lt_in lt_jn) eq_flat multi_index_flat.
Qed.

End FlatIndex.

(** ** Lagrange polynomials on pairwise distinct nodes *)

Section LagrangeFacts.

Variable F : fieldType.
Variable n : nat.
Variable v : nat -> F.
Hypothesis v_inj : forall i j, (i < n)%N -> (j < n)%N -> v i = v j -> i = j.

Lemma lagrange_denominator_neq0 (i : nat) :
  (i < n)%N -> \prod_(0 <= j < n | j != i) (v i - v j) != 0.
Proof.
move=> lt_in; rewrite prodf_seq_neq0; apply/allP => j.
rewrite mem_index_iota /= => lt_jn; apply/implyP => neq_ji.
by rewrite subr_eq0; apply: contraNneq neq_ji => /v_inj ->.
Qed.

Lemma lagrange_at_node (i k : nat) :
  (i < n)%N -> (k < n)%N ->
  \prod_(0 <= j < n | j != i) ((v k - v j) / (v i - v j)) = (i == k)%:R.
Proof.
move=> lt_in lt_kn; case: eqP => [<-|/eqP neq_ik].
  rewrite big_seq_cond big1 // => j /andP[]; rewrite mem_index_iota /=.
  move=> lt_jn neq_ji; rewrite divff // subr_eq0.
  by apply: contraNneq neq_ji => /v_inj ->.
rewrite big_mkord (bigD1 (Ordinal lt_kn)) /= 1?eq_sym //.
by rewrite subrr mul0r mul0r.
Qed.

Lemma size_prod_linear (s : seq nat) (P : pred nat) (c a : nat -> F) :
  (size (\prod_(j <- s | P j) (c j *: ('X - (a j)%:P)))%R <= (count P s).+1)%N.
Proof.
elim: s => [|j s IH]; first by rewrite big_nil size_poly1.
rewrite big_cons /=; case: (P j); last by rewrite add0n.
apply: leq_trans (size_polyMleq _ _) _; rewrite add1n.
have le2 : (size (c j *: ('X - (a j)%:P))%R <= 2)%N.
  by apply: leq_trans (size_scale_leq _ _) _; rewrite size_XsubC.
case: (size _) le2 => [|[|[|//]]] _ /=; rewrite ?add0n ?add1n.
- by apply: leq_trans (leq_pred _) _; apply: leq_trans IH _.
- by apply: leq_trans IH _.
- by [].
Qed.

Lemma lagrange_partition (x : F) :
  (0 < n)%N ->
  \sum_(0 <= i < n) \prod_(0 <= j < n | j != i) ((x - v j) / (v i - v j)) = 1.
Proof.
move=> n_gt0.
pose L i : {poly F} :=
  \prod_(0 <= j < n | j != i) ((v i - v j)^-1 *: ('X - (v j)%:P)).
have hornerL i y :
    (L i).[y] = \prod_(0 <= j < n | j != i) ((y - v j) / (v i - v j)).
  rewrite horner_prod; apply: eq_bigr => j _.
  by rewrite hornerZ hornerXsubC mulrC.
pose p : {poly F} := \sum_(0 <= i < n) L i - 1.
suff p0 : p = 0.
  have /eqP := congr1 (fun q : {poly F} => q.[x]) p0.
  rewrite /p /= hornerD hornerN hornerC horner0 horner_sum subr_eq0 => /eqP sumL.
  by rewrite -[RHS]sumL; apply: eq_bigr => i _; rewrite hornerL.
have sizeL i : (i < n)%N -> (size (L i) <= n)%N.
  move=> lt_in; apply: leq_trans (size_prod_linear _ _ _ _) _.
  rewrite /index_iota subn0 -[X in (_ < X)%N](size_iota 0 n).
  rewrite -(count_predC (pred1 i) (iota 0 n)) -[X in (X < _)%N]add0n ltn_add2r.
  by rewrite -has_count; apply/hasP; exists i; rewrite ?mem_iota //=.
apply: (@roots_geq_poly_eq0 _ p (mkseq v n)).
- apply/allP => y /mapP[k]; rewrite mem_iota /= add0n => lt_kn ->.
  rewrite /root /p hornerD hornerN hornerC horner_sum subr_eq0.
  rewrite big_seq_cond (eq_bigr (fun i => (i == k)%:R)).
    move=> i /andP[]; rewrite mem_index_iota /= => lt_in _.
    by rewrite hornerL lagrange_at_node.
  rewrite -big_seq_cond big_mkord (bigD1 (Ordinal lt_kn)) //= eqxx.
  rewrite big1 ?addr0 // => i /negbTE.
  by rewrite -val_eqE /= => ->.
- rewrite map_inj_in_uniq ?iota_uniq // => i j.
  by rewrite !mem_iota /= !add0n; apply: v_inj.
- rewrite size_mkseq; apply: leq_trans (size_polyD _ _) _.
  rewrite geq_max size_polyN size_poly1 n_gt0 andbT.
  rewrite /p big_seq_cond; elim/big_ind: _ => [||i /andP[]].
  + by rewrite size_poly0.
  + by move=> q r leq ler; apply: leq_trans (size_polyD _ _) _; rewrite geq_max leq ler.
  + by rewrite mem_index_iota /= => lt_in _; apply: sizeL.
Qed.

End LagrangeFacts.

(** ** What the loops of the 1D evaluators compute *)

Section EvaluatorFacts.

Variable F : fieldType.

Lemma foldl_cond_mul (P : pred nat) (f : nat -> F) (a : F) (s : seq nat) :
  foldl (fun acc j => if P j then acc * f j else acc) a s
  = a * \prod_(j <- s | P j) f j.
Proof.
elim: s a => [|j s IH] a /=; first by rewrite big_nil mulr1.
by rewrite IH big_cons; case: (P j); rewrite ?mulrA.
Qed.

Lemma range_index_iota (n : nat) : range n = index_iota 0 n.
Proof. by rewrite /range /index_iota subn0. Qed.

Lemma basis_1D_foldE (Verts : seq F) (x : F) (i : nat) (st : F * F * F)
    (s : seq nat) :
  foldl (HexN.basis_1D_step Verts x i) st s
  = let num := st.1.1 * \prod_(j <- s | j != i) (x - nth 0 Verts j) in
    let den :=
      st.1.2 * \prod_(j <- s | j != i) (nth 0 Verts i - nth 0 Verts j) in
    (num, den, if s is [::] then st.2 else num / den).
Proof.
elim: s st => [|j s IH] [[nu de] it] /=; first by rewrite !big_nil !mulr1.
rewrite IH /= !big_cons; case: (j != i) => /=; rewrite ?mulrA //.
- by case: s {IH} => [|k s] //; rewrite !big_nil !mulr1.
- by case: s {IH} => [|k s] //; rewrite !big_nil !mulr1.
Qed.

Lemma basis_1D_loopE (e : HexN.t F) (x : F) (i : nat) :
  let n := HexN.num_verts_1d_ e in
  let v := nth 0 (HexN.HexN_Verts_1d_ e) in
  (0 < n)%N ->
  HexN.basis_1D_loop e x i
  = (\prod_(0 <= j < n | j != i) (x - v j),
     \prod_(0 <= j < n | j != i) (v i - v j),
     \prod_(0 <= j < n | j != i) (x - v j)
     / \prod_(0 <= j < n | j != i) (v i - v j)).
Proof.
move=> n v n_gt0; rewrite /HexN.basis_1D_loop basis_1D_foldE /= !mul1r.
by rewrite -range_index_iota -/n; case: (n) n_gt0.
Qed.

Lemma lagrange_basis_1D_nth (e : HexN.t F) (interp : seq F) (x : F) (i : nat) :
  (i < HexN.num_verts_1d_ e)%N ->
  nth 0 (HexN.lagrange_basis_1D e interp x) i = (HexN.basis_1D_loop e x i).2.
Proof.
move=> lt_in; rewrite /HexN.lagrange_basis_1D.
rewrite (@eq_foldl _ _ _
           (fun a q => set_nth 0 a q (HexN.basis_1D_loop e x q).2)).
  by move=> a q; case: (HexN.basis_1D_loop e x q) => [[]].
exact: foldl_set_nth_range.
Qed.

Lemma product_gradient_loopE (Verts : seq F) (x : F) (n i j : nat) :
  HexN.product_gradient_loop Verts x n i j
  = \prod_(0 <= k < n | (k != j) && (k != i)) (x - nth 0 Verts k).
Proof.
by rewrite /HexN.product_gradient_loop foldl_cond_mul mul1r range_index_iota.
Qed.

Lemma derivative_1D_foldE (Verts : seq F) (x : F) (n i : nat)
    (st : F * F * F) (s : seq nat) :
  foldl (HexN.derivative_1D_step Verts x n i) st s
  = let den :=
      st.1.1 * \prod_(j <- s | j != i) (nth 0 Verts i - nth 0 Verts j) in
    let num :=
      st.1.2 + \sum_(j <- s | j != i)
                 \prod_(0 <= k < n | (k != j) && (k != i)) (x - nth 0 Verts k) in
    (den, num, if s is [::] then st.2 else num / den).
Proof.
elim: s st => [|j s IH] [[de nu] gr] /=.
  by rewrite !big_nil mulr1 addr0.
rewrite IH /= !big_cons product_gradient_loopE.
case: (j != i) => /=; rewrite ?mulrA ?addrA //.
- by case: s {IH} => [|k s] //; rewrite !big_nil mulr1 addr0.
- by case: s {IH} => [|k s] //; rewrite !big_nil mulr1 addr0.
Qed.

Lemma derivative_1D_loopE (e : HexN.t F) (x : F) (i : nat) :
  let n := HexN.num_verts_1d_ e in
  let v := nth 0 (HexN.HexN_Verts_1d_ e) in
  (0 < n)%N ->
  HexN.derivative_1D_loop e x i
  = (\prod_(0 <= j < n | j != i) (v i - v j),
     \sum_(0 <= j < n | j != i)
        \prod_(0 <= k < n | (k != j) && (k != i)) (x - v k),
     (\sum_(0 <= j < n | j != i)
         \prod_(0 <= k < n | (k != j) && (k != i)) (x - v k))
     / \prod_(0 <= j < n | j != i) (v i - v j)).
Proof.
move=> n v n_gt0; rewrite /HexN.derivative_1D_loop derivative_1D_foldE /=.
rewrite !mul1r !add0r -range_index_iota -/n.
by case: (n) n_gt0.
Qed.

Lemma lagrange_derivative_1D_nth (e : HexN.t F) (derivative : seq F) (x : F)
    (i : nat) :
  (i < HexN.num_verts_1d_ e)%N ->
  nth 0 (HexN.lagrange_derivative_1D e derivative x) i
  = (HexN.derivative_1D_loop e x i).2.
Proof.
move=> lt_in; rewrite /HexN.lagrange_derivative_1D.
rewrite (@eq_foldl _ _ _
           (fun a q => set_nth 0 a q (HexN.derivative_1D_loop e x q).2)).
  by move=> a q; case: (HexN.derivative_1D_loop e x q) => [[]].
exact: foldl_set_nth_range.
Qed.

End EvaluatorFacts.

Section QuadNFacts.

Variable F : fieldType.

Lemma s_loopE (xi : seq F) (x : F) (orderN i j : nat) :
  QuadN.s_loop xi x orderN i j
  = \prod_(0 <= k < orderN + 1 | (k != j) && (k != i)) (x - nth 0 xi k).
Proof. by rewrite /QuadN.s_loop foldl_cond_mul mul1r range_index_iota. Qed.

Lemma j_foldE (xi : seq F) (x : F) (orderN i : nat)
    (st : F * F * F * F * F) (s : seq nat) :
  foldl (QuadN.j_step xi x orderN i) st s
  = let: (n0, d0, c0, p0, q0) := st in
    let n := n0 * \prod_(j <- s | j != i) (x - nth 0 xi j) in
    let d := d0 * \prod_(j <- s | j != i) (nth 0 xi i - nth 0 xi j) in
    let p :=
      p0 + \sum_(j <- s | j != i)
             \prod_(0 <= k < orderN + 1 | (k != j) && (k != i))
                (x - nth 0 xi k) in
    (n, d, if s is [::] then c0 else n / d, p,
     if s is [::] then q0 else p / d).
Proof.
elim: s st => [|j s IH] [[[[n0 d0] c0] p0] q0] /=.
  by rewrite !big_nil !mulr1 addr0.
rewrite IH /= !big_cons s_loopE.
case: (j != i) => /=; rewrite ?mulrA ?addrA //.
- by case: s {IH} => [|k s] //; rewrite !big_nil !mulr1 addr0.
- by case: s {IH} => [|k s] //; rewrite !big_nil !mulr1 addr0.
Qed.

Lemma j_loopE (xi : seq F) (x : F) (orderN i : nat) (q : F) :
  let n := (orderN + 1)%N in
  let v := nth 0 xi in
  QuadN.j_loop xi x orderN i q
  = (\prod_(0 <= j < n | j != i) (x - v j),
     \prod_(0 <= j < n | j != i) (v i - v j),
     \prod_(0 <= j < n | j != i) (x - v j)
     / \prod_(0 <= j < n | j != i) (v i - v j),
     \sum_(0 <= j < n | j != i)
        \prod_(0 <= k < n | (k != j) && (k != i)) (x - v k),
     (\sum_(0 <= j < n | j != i)
         \prod_(0 <= k < n | (k != j) && (k != i)) (x - v k))
     / \prod_(0 <= j < n | j != i) (v i - v j)).
Proof.
move=> n v; rewrite /QuadN.j_loop j_foldE /= !mul1r !add0r -range_index_iota.
by rewrite -/n /n addn1.
Qed.

Lemma lagrange_1D_nth (interp Dinterp : seq F) (x : F) (xi : seq F)
    (orderN i : nat) :
  (i < orderN + 1)%N ->
  let r := QuadN.lagrange_1D interp Dinterp x xi orderN in
  nth 0 r.1 i = (QuadN.j_loop xi x orderN i 0).1.1.2
  /\ nth 0 r.2 i = (QuadN.j_loop xi x orderN i 0).2.
Proof.
move=> lt_in /=; rewrite /QuadN.lagrange_1D.
pose c k := (QuadN.j_loop xi x orderN k 0).1.1.2.
pose q k := (QuadN.j_loop xi x orderN k 0).2.
pose step (st : seq F * seq F * F) (k : nat) :=
  let: (interp, Dinterp, q) := st in
  let: (_, _, c, _, q) := QuadN.j_loop xi x orderN k q in
  (set_nth 0 interp k c, set_nth 0 Dinterp k q, q).
have stepE a b q0 k :
    step (a, b, q0) k = (set_nth 0 a k (c k), set_nth 0 b k (q k), q k).
  by rewrite /step /c /q !j_loopE.
have loopE (s : seq nat) a b q0 :
    exists q1,
      foldl step (a, b, q0) s
      = (foldl (fun a k => set_nth 0 a k (c k)) a s,
         foldl (fun b k => set_nth 0 b k (q k)) b s, q1).
  elim: s a b q0 => [|k s IH] a b q0; first by exists q0.
  have -> : foldl step (a, b, q0) (k :: s) = foldl step (step (a, b, q0) k) s.
    by [].
  by rewrite stepE; have [q1 ->] := IH (set_nth 0 a k (c k)) (set_nth 0 b k (q k)) (q k); exists q1.
rewrite -/step; have [q1 -> /=] := loopE (range (orderN + 1)) interp Dinterp 0.
by rewrite !foldl_set_nth_range.
Qed.

End QuadNFacts.

(** ** The scratch arrays and the closing loop of the tensor basis *)

Section TensorFacts.

Variable F : fieldType.

Lemma save_axisE (n d : nat) (a3 : seq (seq F)) (a1 : seq F) (i d' : nat) :
  get2 0 (HexN.save_axis n d (a3, a1)).1 i d'
  = if (i < n)%N && (d' == d) then nth 0 a1 i else get2 0 a3 i d'.
Proof.
pose step (st : seq (seq F) * seq F) (i : nat) :=
  let: (val_3d, val_1d) := st in
  (set2 0 val_3d i d (nth 0 val_1d i), set_nth 0 val_1d i 0).
have keep (s : seq nat) m :
    m \notin s -> nth 0 (foldl step (a3, a1) s).2 m = nth 0 a1 m.
  elim/last_ind: s => [|s q IHs] //.
  rewrite mem_rcons in_cons negb_or => /andP[neq_mq /IHs {}IHs].
  rewrite -cats1 foldl_cat /=; case: (foldl _ _ s) IHs => [b3 b1] /= <-.
  by rewrite nth_set_nth /= (negbTE neq_mq).
have gen (s : seq nat) : uniq s -> forall i d',
    get2 0 (foldl step (a3, a1) s).1 i d'
    = if (i \in s) && (d' == d) then nth 0 a1 i else get2 0 a3 i d'.
  elim/last_ind: s => [|s k IH] //.
  rewrite rcons_uniq => /andP[k_notin /IH {}IH] m d2.
  rewrite -cats1 foldl_cat /= mem_cat mem_seq1.
  case: (foldl _ _ s) IH (keep _ _ k_notin) => [b3 b1] /= IH ->.
  rewrite get2_set2; case: (m =P k) => [->|_] /=.
    by rewrite orbT /=; case E: (d2 == d) => //; rewrite IH E andbF.
  by rewrite orbF IH.
by rewrite /HexN.save_axis -/step gen ?iota_uniq // mem_iota.
Qed.

Lemma save_axis_muE (n : nat) (D3 : seq (seq F)) (D1 v1 : seq F) (i d' : nat) :
  get2 0 (HexN.save_axis_mu n (D3, D1, v1)).1.1 i d'
  = if (i < n)%N && (d' == 2%N) then nth 0 D1 i else get2 0 D3 i d'.
Proof.
pose step (st : seq (seq F) * seq F * seq F) (i : nat) :=
  let: (Dval_3d, Dval_1d, val_1d) := st in
  (set2 0 Dval_3d i 2 (nth 0 Dval_1d i), Dval_1d, set_nth 0 val_1d i 0).
have keep (s : seq nat) : (foldl step (D3, D1, v1) s).1.2 = D1.
  elim/last_ind: s => [|s q IHs] //.
  by rewrite -cats1 foldl_cat /=; case: (foldl _ _ s) IHs => [[b3 b1] c1].
have gen (s : seq nat) : forall i d',
    get2 0 (foldl step (D3, D1, v1) s).1.1 i d'
    = if (i \in s) && (d' == 2%N) then nth 0 D1 i else get2 0 D3 i d'.
  elim/last_ind: s => [|s k IH] // m d2.
  rewrite -cats1 foldl_cat /= mem_cat mem_seq1.
  case: (foldl _ _ s) IH (keep s) => [[b3 b1] c1] /= IH ->.
  rewrite get2_set2; case: (m =P k) => [->|_] /=.
    by rewrite orbT /=; case E: (d2 == 2%N) => //; rewrite IH E andbF.
  by rewrite orbF IH.
by rewrite /HexN.save_axis_mu -/step gen mem_iota.
Qed.

Lemma tensor_loopE (e : HexN.t F) (a b c : seq (seq F)) (out : seq F)
    (i j k : nat) :
  let n := HexN.num_verts_1d_ e in
  (i < n)%N -> (j < n)%N -> (k < n)%N ->
  nth 0 (HexN.tensor_loop e a b c out) (HexN.vert_rid e i j k)
  = get2 0 a i 0 * get2 0 b j 1 * get2 0 c k 2.
Proof.
move=> n lt_in lt_jn lt_kn; rewrite /HexN.tensor_loop for3_foldl.
have := @foldl_set_nth F 0 _
          (fun p : nat * nat * nat => HexN.vert_rid e p.1.1 p.1.2 p.2)
          (fun p : nat * nat * nat =>
             get2 0 a p.1.1 0 * get2 0 b p.1.2 1 * get2 0 c p.2 2)
          (loop_triples (range n) (range n) (range n)) out (i, j, k).
apply; first by rewrite loop_triplesP !mem_iota /= !add0n lt_in lt_jn lt_kn.
move=> [[i' j'] k']; rewrite loop_triplesP !mem_iota /= !add0n.
case/and3P=> lt_i'n lt_j'n lt_k'n eq_rid.
by have [-> -> ->] := flat_index_inj lt_i'n lt_j'n lt_in lt_jn eq_rid.
Qed.

End TensorFacts.

(** ** Construction: what [setup_HexN] stores, and the denominators *)

Lemma range_step2_odd (o : nat) :
  range_step2 (2 * o + 1) = [seq (2 * t)%N | t <- iota 0 o.+1].
Proof.
rewrite /range_step2; elim: o => [|o IH] //.
have -> : (2 * o.+1 + 1 = (2 * o + 1) + 2)%N by rewrite mulnS -addnA addnC.
rewrite -[o.+2]addn1 [in RHS]iotaD map_cat iotaD filter_cat IH !add0n.
congr (_ ++ _); rewrite /= oddD oddM /= -addnS addn2.
by rewrite mulnS add2n.
Qed.

Lemma for3_inv (S : Type) (P : S -> Prop) (ks js ns : seq nat)
    (body : nat -> nat -> nat -> S -> S) (st : S) :
  (forall i j k st, P st -> P (body i j k st)) ->
  P st -> P (for3 ks js ns body st).
Proof.
move=> step; rewrite for3_foldl.
by elim: (loop_triples ks js ns) st => //= p s IH st /step /IH.
Qed.

Section Construction.

Variable F : fieldType.

Lemma save_verts_1dE (e : HexN.t F) (idx : seq nat) :
  let r := HexN.save_verts_1d e idx in
  [/\ HexN.num_verts_1d_ r = HexN.num_verts_1d_ e,
      HexN.num_nodes_1d_ r = HexN.num_nodes_1d_ e,
      HexN.num_nodes_ r = HexN.num_nodes_ e
    & forall t, (t < size idx)%N ->
        nth 0 (HexN.HexN_Verts_1d_ r) t
        = nth 0 (HexN.HexN_Nodes_1d_ e) (nth 0%N idx t)].
Proof.
rewrite /HexN.save_verts_1d.
pose step (st : HexN.t F * nat) (i : nat) :=
  let: (e, vert_id) := st in
  (HexN.with_Verts_1d e
     (set_nth 0 (HexN.HexN_Verts_1d_ e) vert_id (nth 0 (HexN.HexN_Nodes_1d_ e) i)),
   vert_id.+1).
rewrite -/step.
suff gen : let r := foldl step (e, 0%N) idx in
    [/\ r.2 = size idx,
        [/\ HexN.num_verts_1d_ r.1 = HexN.num_verts_1d_ e,
            HexN.num_nodes_1d_ r.1 = HexN.num_nodes_1d_ e
          & HexN.num_nodes_ r.1 = HexN.num_nodes_ e],
        HexN.HexN_Nodes_1d_ r.1 = HexN.HexN_Nodes_1d_ e
      & forall t, (t < size idx)%N ->
          nth 0 (HexN.HexN_Verts_1d_ r.1) t
          = nth 0 (HexN.HexN_Nodes_1d_ e) (nth 0%N idx t)].
  by case: gen => _ [].
elim/last_ind: idx => [|s k IH] //=.
rewrite -cats1 foldl_cat /=.
case: (foldl step (e, 0%N) s) IH => [e1 c] /= [-> sizes nodes verts].
rewrite size_cat addn1; split=> // t; rewrite ltnS nth_set_nth /= nth_cat.
rewrite leq_eqVlt; case: (t =P size s) => [->|_] /=.
  by rewrite ltnn subnn nodes.
by move=> lt_t; rewrite lt_t verts.
Qed.

Lemma create_lobatto_nodesE (lob : seq F -> nat -> seq F) (e : HexN.t F)
    (order : nat) :
  let r := HexN.create_lobatto_nodes lob e order in
  [/\ HexN.num_verts_1d_ r = HexN.num_verts_1d_ e,
      HexN.num_nodes_1d_ r = HexN.num_nodes_1d_ e,
      HexN.num_nodes_ r = HexN.num_nodes_ e
    & forall t, (t < (if order == 0 then 2 else order + 1))%N ->
        nth 0 (HexN.HexN_Verts_1d_ r) t
        = nth 0 (lob (HexN.HexN_Nodes_1d_ e)
                     (if order == 0 then 2 else 2 * order + 1)%N)
              (if order == 0 then t else 2 * t)%N].
Proof.
rewrite /HexN.create_lobatto_nodes.
set nn := (if order == 0%N then 2%N else (2 * order + 1)%N).
set e1 := HexN.with_Nodes_1d e _.
set e2 := for3 _ _ _ _ e1.
have [nv2 n1d2 nn2 nodes2] :
    [/\ HexN.num_verts_1d_ e2 = HexN.num_verts_1d_ e,
        HexN.num_nodes_1d_ e2 = HexN.num_nodes_1d_ e,
        HexN.num_nodes_ e2 = HexN.num_nodes_ e
      & HexN.HexN_Nodes_1d_ e2 = lob (HexN.HexN_Nodes_1d_ e) nn].
  apply: (@for3_inv _ (fun st : HexN.t F =>
            [/\ HexN.num_verts_1d_ st = HexN.num_verts_1d_ e,
                HexN.num_nodes_1d_ st = HexN.num_nodes_1d_ e,
                HexN.num_nodes_ st = HexN.num_nodes_ e
              & HexN.HexN_Nodes_1d_ st = lob (HexN.HexN_Nodes_1d_ e) nn]));
    [by move=> i j k st [? ? ? ?]; split | by []].
case: ifP => order0.
  have [-> -> -> verts] := save_verts_1dE e2 (range nn).
  split=> // t lt_t; rewrite verts ?size_iota /nn ?order0 //.
  by rewrite nodes2 /nn order0 nth_iota.
have [-> -> -> verts] := save_verts_1dE e2 (range_step2 nn).
split=> // t; rewrite addn1 => lt_t.
rewrite verts /nn order0 range_step2_odd ?size_map ?size_iota //.
by rewrite nodes2 /nn order0 (nth_map 0%N) ?size_iota // nth_iota.
Qed.

Lemma fill_vert_node_mapE (e : HexN.t F) (idx : seq nat) :
  let r := HexN.fill_vert_node_map e idx in
  [/\ HexN.num_verts_1d_ r = HexN.num_verts_1d_ e,
      HexN.num_nodes_1d_ r = HexN.num_nodes_1d_ e,
      HexN.num_nodes_ r = HexN.num_nodes_ e
    & HexN.HexN_Verts_1d_ r = HexN.HexN_Verts_1d_ e].
Proof.
rewrite /HexN.fill_vert_node_map.
apply: (@for3_inv _ (fun st : HexN.t F * nat =>
          [/\ HexN.num_verts_1d_ st.1 = HexN.num_verts_1d_ e,
              HexN.num_nodes_1d_ st.1 = HexN.num_nodes_1d_ e,
              HexN.num_nodes_ st.1 = HexN.num_nodes_ e
            & HexN.HexN_Verts_1d_ st.1 = HexN.HexN_Verts_1d_ e]));
  [by move=> i j k [e1 c] | by []].
Qed.



End Construction.

(** ** The 1D Lagrange evaluator: product form, derivative form,
       partition of unity and cardinality *)

Lemma distinct_nodes_inj (T : eqType) (x0 : T) (n : nat) (s : seq T) :
  distinct_nodes n s ->
  forall i j, (i < n)%N -> (j < n)%N -> nth x0 s i = nth x0 s j -> i = j.
Proof.
case/andP=> le_n uniq_s i j lt_in lt_jn eq_ij; apply/eqP.
rewrite -(nth_uniq x0 _ _ uniq_s) ?size_takel // !nth_take //.
exact/eqP.
Qed.

Section Lagrange1D.

Variable F : fieldType.
Variable e : HexN.t F.

Local Abbreviation n := (HexN.num_verts_1d_ e).
Local Abbreviation Verts := (HexN.HexN_Verts_1d_ e).
Local Abbreviation v := (nth 0 (HexN.HexN_Verts_1d_ e)).

(** C1.  On [n >= 2] pairwise distinct nodes, [lagrange_basis_1D] returns
    at index [i] the product over [j != i] of [(x - node_j)/(node_i - node_j)],
    and [lagrange_derivative_1D] returns the sum over [j != i] of the
    products over [k != i, k != j] of [(x - node_k)], divided by the product
    over [j != i] of [(node_i - node_j)].  The only divisor is that product
    of node differences, which is not zero, so the derivative is defined at
    every [x], nodes included.  [QuadN::lagrange_1D] returns the same two
    values. *)
Theorem C1_lagrange_1D_value_and_derivative (interp derivative : seq F)
    (x : F) (i : nat) :
  (2 <= n)%N -> distinct_nodes n Verts -> (i < n)%N ->
  [/\ nth 0 (HexN.lagrange_basis_1D e interp x) i
      = \prod_(0 <= j < n | j != i) ((x - v j) / (v i - v j)),
      nth 0 (HexN.lagrange_derivative_1D e derivative x) i
      = (\sum_(0 <= j < n | j != i)
           \prod_(0 <= k < n | (k != i) && (k != j)) (x - v k))
        / \prod_(0 <= j < n | j != i) (v i - v j),
      \prod_(0 <= j < n | j != i) (v i - v j) != 0,
      nth 0 (QuadN.lagrange_1D interp derivative x Verts n.-1).1 i
      = \prod_(0 <= j < n | j != i) ((x - v j) / (v i - v j))
    & nth 0 (QuadN.lagrange_1D interp derivative x Verts n.-1).2 i
      = (\sum_(0 <= j < n | j != i)
           \prod_(0 <= k < n | (k != i) && (k != j)) (x - v k))
        / \prod_(0 <= j < n | j != i) (v i - v j)].
Proof.
move=> n_ge2 dist lt_in.
have n_gt0 : (0 < n)%N by apply: leq_trans n_ge2.
have swap j : \prod_(0 <= k < n | (k != i) && (k != j)) (x - v k)
              = \prod_(0 <= k < n | (k != j) && (k != i)) (x - v k).
  by apply: eq_bigl => k; rewrite andbC.
have n1 : (n.-1 + 1)%N = n by rewrite addn1 prednK.
have lt_in1 : (i < n.-1 + 1)%N by rewrite n1.
have [qv qd] := lagrange_1D_nth interp derivative x Verts lt_in1.
split.
- by rewrite lagrange_basis_1D_nth // basis_1D_loopE //= prodf_div.
- rewrite lagrange_derivative_1D_nth // derivative_1D_loopE //=.
  by congr (_ / _); apply: eq_bigr => j _; rewrite swap.
- exact: (@lagrange_denominator_neq0 F n v (@distinct_nodes_inj F 0 n Verts dist)).
- by rewrite qv j_loopE /= n1 prodf_div.
- rewrite qd j_loopE /= n1.
  by congr (_ / _); apply: eq_bigr => j _; rewrite swap.
Qed.

(** C2.  On [n >= 2] pairwise distinct nodes the [n] values returned by
    [lagrange_basis_1D] (and by [QuadN::lagrange_1D]) sum to 1 at every
    [x]; nothing restricts [x] to the reference interval. *)
Theorem C2_partition_of_unity (interp Dinterp : seq F) (x : F) :
  (2 <= n)%N -> distinct_nodes n Verts ->
  \sum_(0 <= i < n) nth 0 (HexN.lagrange_basis_1D e interp x) i = 1
  /\ \sum_(0 <= i < n)
        nth 0 (QuadN.lagrange_1D interp Dinterp x Verts n.-1).1 i = 1.
Proof.
move=> n_ge2 dist.
have n_gt0 : (0 < n)%N by apply: leq_trans n_ge2.
have part := @lagrange_partition F n v (@distinct_nodes_inj F 0 n Verts dist) x n_gt0.
split; rewrite -[RHS]part big_seq_cond [RHS]big_seq_cond;
  apply: eq_bigr => i /andP[]; rewrite mem_index_iota /= => lt_in _.
- by rewrite lagrange_basis_1D_nth // basis_1D_loopE //= prodf_div.
- have n1 : (n.-1 + 1)%N = n by rewrite addn1 prednK.
  have lt_in1 : (i < n.-1 + 1)%N by rewrite n1.
  have [-> _] := lagrange_1D_nth interp Dinterp x Verts lt_in1.
  by rewrite j_loopE /= n1 prodf_div.
Qed.

(** C3.  On pairwise distinct nodes, [lagrange_basis_1D] evaluated at
    [node_j] returns exactly 1 at index [i = j] and exactly 0 at every
    other index [i]. *)
Theorem C3_cardinality_at_nodes (interp : seq F) (i j : nat) :
  distinct_nodes n Verts -> (i < n)%N -> (j < n)%N ->
  nth 0 (HexN.lagrange_basis_1D e interp (v j)) i = if i == j then 1 else 0.
Proof.
move=> dist lt_in lt_jn.
have n_gt0 : (0 < n)%N by apply: leq_ltn_trans lt_in.
rewrite lagrange_basis_1D_nth // basis_1D_loopE //= -prodf_div.
rewrite (@lagrange_at_node F n v (@distinct_nodes_inj F 0 n Verts dist)) //.
by case: (i == j).
Qed.

End Lagrange1D.

(** C1 on the order-2 element with nodes -1, 0, 1: the derivative of the
    middle basis function at its own node. *)
Lemma C1_lagrange_1D_value_and_derivative_witness :
  let e := HexN.setup_HexN equispaced_nodes 2 in
  let n := HexN.num_verts_1d_ e in
  let v := nth 0 (HexN.HexN_Verts_1d_ e) in
  [/\ (2 <= n)%N, distinct_nodes n (HexN.HexN_Verts_1d_ e), (1 < n)%N
    & nth 0 (HexN.lagrange_derivative_1D e [::] (v 1%N)) 1
      = (\sum_(0 <= j < n | j != 1%N)
           \prod_(0 <= k < n | (k != 1%N) && (k != j)) (v 1%N - v k))
        / \prod_(0 <= j < n | j != 1%N) (v 1%N - v j)].
Proof.
move=> e n v.
have n_ge2 : (2 <= n)%N by vm_compute.
have dist : distinct_nodes n (HexN.HexN_Verts_1d_ e) by vm_compute.
have lt_1n : (1 < n)%N by vm_compute.
split; [exact: n_ge2 | exact: dist | exact: lt_1n | ].
have [_ H _ _ _] :=
  C1_lagrange_1D_value_and_derivative [::] [::] (v 1%N) n_ge2 dist lt_1n.
exact: H.
Defined.

(** C2 on the order-2 element with nodes -1, 0, 1, at [x = 5], outside the
    reference interval. *)
Lemma C2_partition_of_unity_witness :
  let e := HexN.setup_HexN equispaced_nodes 2 in
  let n := HexN.num_verts_1d_ e in
  [/\ (2 <= n)%N, distinct_nodes n (HexN.HexN_Verts_1d_ e)
    & \sum_(0 <= i < n) nth 0 (HexN.lagrange_basis_1D e [::] 5%:R) i = 1].
Proof.
move=> e n.
have n_ge2 : (2 <= n)%N by vm_compute.
have dist : distinct_nodes n (HexN.HexN_Verts_1d_ e) by vm_compute.
split; [exact: n_ge2 | exact: dist | ].
have [H _] := C2_partition_of_unity [::] [::] 5%:R n_ge2 dist.
exact: H.
Defined.

(** C3 on the order-2 element with nodes -1, 0, 1: the first basis
    function at the last node. *)
Lemma C3_cardinality_at_nodes_witness :
  let e := HexN.setup_HexN equispaced_nodes 2 in
  let n := HexN.num_verts_1d_ e in
  let v := nth 0 (HexN.HexN_Verts_1d_ e) in
  [/\ distinct_nodes n (HexN.HexN_Verts_1d_ e), (0 < n)%N, (2 < n)%N
    & nth 0 (HexN.lagrange_basis_1D e [::] (v 2%N)) 0
      = if 0%N == 2%N then 1 else 0].
Proof.
move=> e n v.
have dist : distinct_nodes n (HexN.HexN_Verts_1d_ e) by vm_compute.
have lt_0n : (0 < n)%N by vm_compute.
have lt_2n : (2 < n)%N by vm_compute.
split; [exact: dist | exact: lt_0n | exact: lt_2n | ].
exact: (C3_cardinality_at_nodes [::] dist lt_0n lt_2n).
Defined.

Section TensorBasis.

Variable F : fieldType.
Variable e : HexN.t F.

Local Abbreviation n := (HexN.num_verts_1d_ e).

Lemma save_axis_fst (d : nat) (a3 r3 : seq (seq F)) (a1 r1 : seq F) :
  HexN.save_axis n d (a3, a1) = (r3, r1) ->
  forall i d', get2 0 r3 i d'
               = if (i < n)%N && (d' == d) then nth 0 a1 i else get2 0 a3 i d'.
Proof. by move=> E i d'; rewrite -(save_axisE n d a3 a1) E. Qed.

Lemma save_axis_mu_fst (D3 R3 : seq (seq F)) (D1 v1 R1 r1 : seq F) :
  HexN.save_axis_mu n (D3, D1, v1) = (R3, R1, r1) ->
  forall i d', get2 0 R3 i d'
               = if (i < n)%N && (d' == 2%N) then nth 0 D1 i
                 else get2 0 D3 i d'.
Proof. by move=> E i d'; rewrite -(save_axis_muE n D3 D1 v1) E. Qed.

(** C4.  At the flat index [vert_rid(i,j,k)] the array filled by
    [HexN::basis] holds the product of the three per-axis 1D Lagrange
    values, and the array filled by the partial derivative along axis
    [d] holds the same product with the value of axis [d] replaced by the
    1D derivative.  The per-axis values are those the 1D evaluator returns
    on any scratch arrays [s] and [s']. *)
Theorem C4_tensor_product_structure (out point s s' : seq F) (i j k : nat) :
  let l m c := nth 0 (HexN.lagrange_basis_1D e s (nth 0 point c)) m in
  let dl m c := nth 0 (HexN.lagrange_derivative_1D e s' (nth 0 point c)) m in
  (i < n)%N -> (j < n)%N -> (k < n)%N ->
  [/\ nth 0 (HexN.basis e out point) (HexN.vert_rid e i j k)
      = l i 0%N * l j 1%N * l k 2%N,
      nth 0 (HexN.partial_basis 0 e out point) (HexN.vert_rid e i j k)
      = dl i 0%N * l j 1%N * l k 2%N,
      nth 0 (HexN.partial_basis 1 e out point) (HexN.vert_rid e i j k)
      = l i 0%N * dl j 1%N * l k 2%N
    & nth 0 (HexN.partial_basis 2 e out point) (HexN.vert_rid e i j k)
      = l i 0%N * l j 1%N * dl k 2%N].
Proof.
move=> l dl lt_in lt_jn lt_kn.
have lE a m c : (m < n)%N ->
    nth 0 (HexN.lagrange_basis_1D e a (nth 0 point c)) m = l m c.
  by move=> lt_mn; rewrite /l !lagrange_basis_1D_nth.
have dlE a m c : (m < n)%N ->
    nth 0 (HexN.lagrange_derivative_1D e a (nth 0 point c)) m = dl m c.
  by move=> lt_mn; rewrite /dl !lagrange_derivative_1D_nth.
split.
- rewrite /HexN.basis.
  case E0: (HexN.save_axis n 0 _) => [a0 b0].
  case E1: (HexN.save_axis n 1 _) => [a1 b1].
  case E2: (HexN.save_axis n 2 _) => [a2 b2].
  rewrite tensor_loopE // !(save_axis_fst E2) !(save_axis_fst E1).
  by rewrite !(save_axis_fst E0) lt_in lt_jn lt_kn /= !lE.
- rewrite /HexN.partial_basis /HexN.partial_xi_basis.
  case E0: (HexN.save_axis n 0 _) => [a0 b0].
  case E1: (HexN.save_axis n 1 _) => [a1 b1].
  case E2: (HexN.save_axis n 2 _) => [a2 b2].
  rewrite tensor_loopE // !(save_axis_fst E2) !(save_axis_fst E1).
  by rewrite !(save_axis_fst E0) lt_in lt_jn lt_kn /= !lE ?dlE.
- rewrite /HexN.partial_basis /HexN.partial_eta_basis.
  case E0: (HexN.save_axis n 0 _) => [a0 b0].
  case E1: (HexN.save_axis n 1 _) => [a1 b1].
  case E2: (HexN.save_axis n 2 _) => [a2 b2].
  rewrite tensor_loopE // !(save_axis_fst E2) !(save_axis_fst E1).
  by rewrite !(save_axis_fst E0) lt_in lt_jn lt_kn /= !lE ?dlE.
- rewrite /HexN.partial_basis /HexN.partial_mu_basis.
  case E0: (HexN.save_axis n 0 _) => [a0 b0].
  case E1: (HexN.save_axis n 1 _) => [a1 b1].
  case E2: (HexN.save_axis_mu n _) => [[a2 b2] c2].
  rewrite tensor_loopE // !(save_axis_mu_fst E2) !(save_axis_fst E1).
  by rewrite !(save_axis_fst E0) lt_in lt_jn lt_kn /= !lE ?dlE.
Qed.

(** C5.  For a per-axis size [N >= 1], [node_rid] (and [vert_rid], with its
    own size) maps the triples of [{0..N-1}^3] one-to-one onto the flat
    range [{0..N^3-1}]: it stays below [N^3], it is injective, and every
    flat index below [N^3] is the image of its decoded triple; decoding
    inverts encoding; the first index is the fastest-varying one (strides
    1, [N] and [N*N]).  The decoder of [QuadN::basis_partials] is the
    two-axis instance of the same convention. *)
Theorem C5_index_bijection (N : nat) (rid : nat -> nat -> nat -> nat) :
  (1 <= N)%N ->
  (N = HexN.num_nodes_1d_ e /\ rid = HexN.node_rid e)
  \/ (N = HexN.num_verts_1d_ e /\ rid = HexN.vert_rid e) ->
  [/\ forall i j k, (i < N)%N -> (j < N)%N -> (k < N)%N ->
        (rid i j k < N ^ 3)%N,
      forall i j k i' j' k',
        (i < N)%N -> (j < N)%N -> (k < N)%N ->
        (i' < N)%N -> (j' < N)%N -> (k' < N)%N ->
        rid i j k = rid i' j' k' -> (i, j, k) = (i', j', k'),
      forall m, (m < N ^ 3)%N ->
        let: (i, j, k) := LagrangeElement.multi_index N m in
        [/\ (i < N)%N, (j < N)%N, (k < N)%N & rid i j k = m],
      forall i j k, (i < N)%N -> (j < N)%N -> (k < N)%N ->
        LagrangeElement.multi_index N (rid i j k) = (i, j, k)
    & forall i j k,
        [/\ rid i.+1 j k = (rid i j k + 1)%N,
            rid i j.+1 k = (rid i j k + N)%N
          & rid i j k.+1 = (rid i j k + N * N)%N]]
  /\ (forall m, (m < N * N)%N ->
        let: (i, j) := QuadN.basis_partials_ij N m in
        [/\ (i - 1 < N)%N, (j - 1 < N)%N & (i - 1 + (j - 1) * N)%N = m]).
Proof.
move=> N_gt0 which.
have {which} -> : rid = fun i j k => (i + j * N + k * N * N)%N.
  by case: which => [[-> ->]|[-> ->]].
split; first split.
- exact: flat_index_lt.
- by move=> i j k i' j' k' lt_i lt_j _ lt_i' lt_j' _; apply: flat_index_inj.
- move=> m lt_m; have := multi_index_lt N_gt0 lt_m.
  have := flat_multi_index N m.
  by rewrite /LagrangeElement.multi_index => eq_m [lt_i lt_j lt_k]; split.
- by move=> i j k lt_i lt_j _; apply: multi_index_flat.
- move=> i j k; split.
  + by rewrite addn1 !addSn.
  + by rewrite mulSn addnCA -addnA addnC.
  + by rewrite mulSn mulnDl addnCA addnC.
- move=> m lt_m; rewrite /QuadN.basis_partials_ij !addn1 !subn1 /=.
  have lt_j : (m %/ N < N)%N by rewrite ltn_divLR.
  rewrite lt_j [(N * _)%N]mulnC; split=> //.
    by rewrite subSn ?leq_divM // {1}(divn_eq m N) addKn ltn_pmod.
  by rewrite subSn ?leq_divM // {1}(divn_eq m N) addKn addnC -divn_eq.
Qed.

End TensorBasis.

(** C4 on the order-1 element at the point (1/2, 1/3, 0), for the basis
    function of multi-index (1, 0, 1). *)
Lemma C4_tensor_product_structure_witness :
  let e := HexN.setup_HexN equispaced_nodes 1 in
  let point : seq rat := [:: 1 / 2%:R; 1 / 3%:R; 0] in
  let l m c := nth 0 (HexN.lagrange_basis_1D e [::] (nth 0 point c)) m in
  let dl m c := nth 0 (HexN.lagrange_derivative_1D e [::] (nth 0 point c)) m in
  [/\ (1 < HexN.num_verts_1d_ e)%N, (0 < HexN.num_verts_1d_ e)%N,
      nth 0 (HexN.basis e [::] point) (HexN.vert_rid e 1 0 1)
      = l 1%N 0%N * l 0%N 1%N * l 1%N 2%N
    & nth 0 (HexN.partial_basis 1 e [::] point) (HexN.vert_rid e 1 0 1)
      = l 1%N 0%N * dl 0%N 1%N * l 1%N 2%N].
Proof.
move=> e point l dl.
have lt_1n : (1 < HexN.num_verts_1d_ e)%N by vm_compute.
have lt_0n : (0 < HexN.num_verts_1d_ e)%N by vm_compute.
have [Hb _ He _] :=
  C4_tensor_product_structure [::] point [::] [::] lt_1n lt_0n lt_1n.
split; [exact: lt_1n | exact: lt_0n | exact: Hb | exact: He].
Defined.

(** C5 for the three nodes per axis of the order-1 element. *)
Lemma C5_index_bijection_witness :
  let e := HexN.setup_HexN equispaced_nodes 1 in
  [/\ (1 <= 3)%N, 3%N = HexN.num_nodes_1d_ e
    & forall i j k, (i < 3)%N -> (j < 3)%N -> (k < 3)%N ->
        (HexN.node_rid e i j k < 3 ^ 3)%N].
Proof.
move=> e.
have N_gt0 : (1 <= 3)%N by vm_compute.
have eq_N : 3%N = HexN.num_nodes_1d_ e by vm_compute.
have [[H _ _ _ _] _] :=
  C5_index_bijection N_gt0 (or_introl (conj eq_N (erefl (HexN.node_rid e)))).
split; [exact: N_gt0 | exact: eq_N | exact: H].
Defined.

(** ** Interpolation consistency (the element of elements-kokkos) *)

Section LagrangeElementFacts.

Variable F : fieldType.
Variable e : LagrangeElement.t F.



End LagrangeElementFacts.

(** ** The static tables of the fixed-order elements *)

(** C9.  The vertex-to-node tables against the reference positions.
    Quad12 and Hex20 are injective and send every vertex to the node id of
    its position.  Hex8 sends vertices 6 and 7 both to node 24 (the
    position of vertex 7 is node 26); Hex32 sends vertices 21 and 31 both
    to node 298 (the position of vertex 31 is node 238) and vertex 10 to
    node 32 (its position is node 34); Quad4 gives vertices 2 and 3 the ids
    of each other's positions; Quad8 sends vertex 6 to node 23 (its
    position is node 22). *)
Theorem C9_vert_to_node_tables :
  [/\ [&& table_injective Quad12.num_verts_ Quad12.vert_node_map,
          table_at_positions Quad12.num_nodes_1d Quad12.num_dim_
            Quad12.num_verts_ Quad12.ref_locs Quad12.vert_node_map,
          table_injective Hex20.num_verts_ Hex20.vert_node_map
        & table_at_positions Hex20.num_nodes_1d Hex20.num_dim_
            Hex20.num_verts_ Hex20.ref_locs Hex20.vert_node_map],
      [/\ table_injective Hex8.num_verts_ Hex8.vert_node_map = false,
          Hex8.vert_node_map 6 = 24%N, Hex8.vert_node_map 7 = 24%N
        & position_node_id Hex8.num_nodes_1d
            (vertex_position Hex8.num_dim_ Hex8.ref_locs 7) = Some 26%N],
      [/\ table_injective Hex32.num_verts_ Hex32.vert_node_map = false,
          Hex32.vert_node_map 21 = 298%N, Hex32.vert_node_map 31 = 298%N,
          position_node_id Hex32.num_nodes_1d
            (vertex_position Hex32.num_dim_ Hex32.ref_locs 31) = Some 238%N
        & Hex32.vert_node_map 10 = 32%N
          /\ position_node_id Hex32.num_nodes_1d
               (vertex_position Hex32.num_dim_ Hex32.ref_locs 10)
             = Some 34%N],
      [/\ table_injective Quad4.num_verts_ Quad4.vert_node_map,
          Quad4.vert_node_map 2 = 6%N, Quad4.vert_node_map 3 = 8%N,
          position_node_id Quad4.num_nodes_1d
            (vertex_position Quad4.num_dim_ Quad4.ref_locs 2) = Some 8%N
        & position_node_id Quad4.num_nodes_1d
            (vertex_position Quad4.num_dim_ Quad4.ref_locs 3) = Some 6%N]
    & [/\ table_injective Quad8.num_verts_ Quad8.vert_node_map,
          Quad8.vert_node_map 6 = 23%N
        & position_node_id Quad8.num_nodes_1d
            (vertex_position Quad8.num_dim_ Quad8.ref_locs 6) = Some 22%N]].
Proof. by vm_compute. Qed.

(** C10.  The rows of Hex20's [surface_to_dof_lid] after the constructor:
    no assignment reaches row 2, whose eight cells stay unassigned; row 3
    is assigned twice (sixteen assignments) and keeps the ids of the second
    face written to it, so the ids 0, 8, 1, 16, 17, 4, 12, 5 first written
    there are lost; rows 0, 1, 4 and 5 are assigned once.  The sibling
    constructors of Hex8, Hex32, Quad4, Quad8 and Quad12 leave no cell
    unassigned. *)
Theorem C10_Hex20_surface_rows :
  [/\ nth [::] Hex20.surface_to_dof_lid 2 = nseq 8 None,
      [seq count (fun w : nat * nat * nat => w.1.1 == r) Hex20.ctor_writes
         | r <- iota 0 6] = [:: 8; 8; 0; 16; 8; 8]%N,
      take 8 (drop 16 Hex20.ctor_writes)
      = [:: (3, 0, 0); (3, 1, 8); (3, 2, 1); (3, 3, 16);
            (3, 4, 17); (3, 5, 4); (3, 6, 12); (3, 7, 5)]%N,
      nth [::] Hex20.surface_to_dof_lid 3
      = [seq Some v | v <- [:: 3; 10; 2; 19; 18; 7; 14; 6]%N]
    & all (all (all isSome))
          [:: Hex8.surface_to_dof_lid; Hex32.surface_to_dof_lid;
              Quad4.surface_to_dof_lid; Quad8.surface_to_dof_lid;
              Quad12.surface_to_dof_lid]].
Proof. by vm_compute. Qed.

Section SetupHexN.

Variable F : fieldType.
Variable lobatto_nodes_1D : seq F -> nat -> seq F.


End SetupHexN.


(** * Further properties of the code *)

(** ** Lagrange interpolation and the derivative of the basis polynomials *)

Section LagrangePolynomials.

Variable F : fieldType.
Variable n : nat.
Variable v : nat -> F.
Hypothesis v_inj : forall i j, (i < n)%N -> (j < n)%N -> v i = v j -> i = j.

(** The Lagrange basis polynomial of index [i] on the nodes [v 0 .. v (n-1)]. *)
Local Abbreviation L i := (lagrange_poly n v i).

Lemma lagrange_poly_horner (i : nat) (x : F) :
  (L i).[x] = \prod_(0 <= j < n | j != i) ((x - v j) / (v i - v j)).
Proof.
rewrite /lagrange_poly horner_prod; apply: eq_bigr => j _.
by rewrite hornerZ hornerXsubC mulrC.
Qed.

Lemma lagrange_poly_size (i : nat) : (i < n)%N -> (size (L i) <= n)%N.
Proof.
move=> lt_in; apply: leq_trans (size_prod_linear _ _ _ _) _.
rewrite /index_iota subn0 -[X in (_ < X)%N](size_iota 0 n).
rewrite -(count_predC (pred1 i) (iota 0 n)) -[X in (X < _)%N]add0n ltn_add2r.
by rewrite -has_count; apply/hasP; exists i; rewrite ?mem_iota //=.
Qed.

(** Interpolation on [n] distinct nodes reproduces every polynomial of
    degree below [n]. *)
Lemma lagrange_interpolation (p : {poly F}) :
  (size p <= n)%N -> \sum_(0 <= i < n) p.[v i] *: L i = p.
Proof.
move=> size_p; apply/eqP; rewrite -subr_eq0; apply/eqP.
apply: (@roots_geq_poly_eq0 _ _ (mkseq v n)).
- apply/allP => y /mapP[k]; rewrite mem_iota /= add0n => lt_kn ->.
  rewrite /root hornerD hornerN horner_sum subr_eq0.
  rewrite big_seq_cond (eq_bigr (fun i => p.[v k] * (i == k)%:R)).
    move=> i /andP[]; rewrite mem_index_iota /= => lt_in _.
    rewrite hornerZ lagrange_poly_horner lagrange_at_node //.
    by case: eqP => [->|_] //; rewrite !mulr0.
  rewrite -big_seq_cond big_mkord (bigD1 (Ordinal lt_kn)) //= eqxx mulr1.
  rewrite big1 ?addr0 // => i /negbTE.
  by rewrite -val_eqE /= => ->; rewrite mulr0.
- rewrite map_inj_in_uniq ?iota_uniq // => i j.
  by rewrite !mem_iota /= !add0n; apply: v_inj.
- rewrite size_mkseq; apply: leq_trans (size_polyD _ _) _.
  rewrite geq_max size_polyN size_p andbT.
  rewrite big_seq_cond; elim/big_ind: _ => [||i /andP[]].
  + by rewrite size_poly0.
  + move=> q r leq ler; apply: leq_trans (size_polyD _ _) _.
    by rewrite geq_max leq ler.
  + rewrite mem_index_iota /= => lt_in _.
    by apply: leq_trans (size_scale_leq _ _) _; apply: lagrange_poly_size.
Qed.

End LagrangePolynomials.

Section DerivativeOfProduct.

Variable F : fieldType.

(** The derivative of a product of linear factors taken over distinct
    indices: one term per factor left out. *)
Lemma deriv_prod_linear (s : seq nat) (P : pred nat) (c a : nat -> F) :
  uniq s ->
  (\prod_(j <- s | P j) (c j *: ('X - (a j)%:P)))^`()
  = \sum_(j <- s | P j)
       c j *: \prod_(k <- s | P k && (k != j)) (c k *: ('X - (a k)%:P)).
Proof.
elim: s => [|j s IH] /=; first by rewrite !big_nil derivC.
case/andP=> j_notin uniq_s; rewrite !big_cons.
have drop_j : \prod_(k <- s | P k && (k != j)) (c k *: ('X - (a k)%:P))
              = \prod_(k <- s | P k) (c k *: ('X - (a k)%:P)).
  rewrite big_seq_cond [RHS]big_seq_cond; apply: eq_bigl => k.
  by case: (k =P j) => [->|_]; rewrite ?(negbTE j_notin) ?andbT.
have keep_j m : m \in s -> (j != m).
  by move=> m_in; apply: contraNneq j_notin => ->.
case Pj: (P j); last first.
  rewrite (IH uniq_s); apply: eq_bigr => m _.
  by rewrite big_cons Pj.
rewrite derivM derivZ derivXsubC eqxx andbF drop_j (IH uniq_s).
rewrite mulr_algl; congr (_ + _).
rewrite mulr_sumr big_seq_cond [RHS]big_seq_cond.
apply: eq_bigr => m /andP[m_in _].
by rewrite big_cons Pj (keep_j _ m_in) /= scalerAr.
Qed.

End DerivativeOfProduct.

Section DerivativeFormula.

Variable F : fieldType.
Variable n : nat.
Variable v : nat -> F.

(** The derivative of the Lagrange basis polynomial, evaluated: the
    numerator-sum form that the evaluators compute. *)
Lemma lagrange_poly_deriv_horner (i : nat) (x : F) :
  ((lagrange_poly n v i)^`()).[x]
  = (\sum_(0 <= j < n | j != i)
       \prod_(0 <= k < n | (k != j) && (k != i)) (x - v k))
    / \prod_(0 <= j < n | j != i) (v i - v j).
Proof.
rewrite /lagrange_poly deriv_prod_linear ?iota_uniq // horner_sum mulr_suml.
rewrite big_seq_cond [RHS]big_seq_cond; apply: eq_bigr => j /andP[].
rewrite mem_index_iota /= => lt_jn neq_ji.
rewrite hornerZ horner_prod.
rewrite (eq_bigr (fun k => (v i - v k)^-1 * (x - v k))).
  by move=> k _; rewrite hornerZ hornerXsubC.
rewrite big_split /= mulrCA mulrA [RHS]mulrC; congr (_ * _); last first.
  by apply: eq_bigl => k; rewrite andbC.
rewrite -[RHS]prodfV !big_mkord.
by rewrite [RHS](bigD1 (Ordinal lt_jn)) //= mulrC.
Qed.

End DerivativeFormula.

(** ** The evaluators in terms of the basis polynomials *)

Section EvaluatorPolynomials.

Variable F : fieldType.

Lemma lagrange_poly_partition (n : nat) (v : nat -> F) (x : F) :
  (forall i j, (i < n)%N -> (j < n)%N -> v i = v j -> i = j) -> (0 < n)%N ->
  \sum_(0 <= i < n) (lagrange_poly n v i).[x] = 1
  /\ \sum_(0 <= i < n) ((lagrange_poly n v i)^`()).[x] = 0.
Proof.
move=> v_inj n_gt0.
have := @lagrange_interpolation F n v v_inj 1.
rewrite size_poly1 => /(_ n_gt0) sum1.
have sumL : \sum_(0 <= i < n) lagrange_poly n v i = 1.
  by rewrite -[RHS]sum1; apply: eq_bigr => i _; rewrite hornerC scale1r.
split; first by rewrite -horner_sum sumL hornerC.
rewrite -horner_sum -(@raddf_sum _ _ (@deriv F)) /=.
by rewrite sumL derivC horner0.
Qed.

Lemma lagrange_basis_1D_poly (e : HexN.t F) (interp : seq F) (x : F) (i : nat) :
  (i < HexN.num_verts_1d_ e)%N ->
  nth 0 (HexN.lagrange_basis_1D e interp x) i
  = (lagrange_poly (HexN.num_verts_1d_ e)
       (nth 0 (HexN.HexN_Verts_1d_ e)) i).[x].
Proof.
move=> lt_in; have n_gt0 := leq_ltn_trans (leq0n i) lt_in.
by rewrite lagrange_basis_1D_nth // basis_1D_loopE //= lagrange_poly_horner
           prodf_div.
Qed.

Lemma lagrange_derivative_1D_poly (e : HexN.t F) (derivative : seq F) (x : F)
    (i : nat) :
  (i < HexN.num_verts_1d_ e)%N ->
  nth 0 (HexN.lagrange_derivative_1D e derivative x) i
  = ((lagrange_poly (HexN.num_verts_1d_ e)
        (nth 0 (HexN.HexN_Verts_1d_ e)) i)^`()).[x].
Proof.
move=> lt_in; have n_gt0 := leq_ltn_trans (leq0n i) lt_in.
by rewrite lagrange_derivative_1D_nth // derivative_1D_loopE //=
           lagrange_poly_deriv_horner.
Qed.

Lemma lagrange_1D_poly (interp Dinterp : seq F) (x : F) (xi : seq F)
    (orderN i : nat) :
  (i < orderN + 1)%N ->
  nth 0 (QuadN.lagrange_1D interp Dinterp x xi orderN).1 i
  = (lagrange_poly (orderN + 1) (nth 0 xi) i).[x]
  /\ nth 0 (QuadN.lagrange_1D interp Dinterp x xi orderN).2 i
     = ((lagrange_poly (orderN + 1) (nth 0 xi) i)^`()).[x].
Proof.
move=> lt_in; have [-> ->] := lagrange_1D_nth interp Dinterp x xi lt_in.
by rewrite j_loopE /= lagrange_poly_horner prodf_div lagrange_poly_deriv_horner.
Qed.

End EvaluatorPolynomials.

Section Evaluator1D.

Variable F : fieldType.
Variable e : HexN.t F.

Local Abbreviation n := (HexN.num_verts_1d_ e).
Local Abbreviation Verts := (HexN.HexN_Verts_1d_ e).

(** X1.  What the derivative routines return is the derivative of what
    the value routines return: with [L] the Lagrange basis polynomial of
    index [i] on the nodes, [lagrange_basis_1D] and [QuadN::lagrange_1D]
    return [L(x)] and [lagrange_derivative_1D] and [QuadN::lagrange_1D]
    return [L'(x)], the formal derivative evaluated at [x]. *)
Theorem X1_derivative_of_the_value (interp derivative : seq F) (x : F)
    (i : nat) :
  distinct_nodes n Verts -> (i < n)%N ->
  let L := lagrange_poly n (nth 0 Verts) i in
  [/\ nth 0 (HexN.lagrange_basis_1D e interp x) i = L.[x],
      nth 0 (HexN.lagrange_derivative_1D e derivative x) i = (L^`()).[x],
      nth 0 (QuadN.lagrange_1D interp derivative x Verts n.-1).1 i = L.[x]
    & nth 0 (QuadN.lagrange_1D interp derivative x Verts n.-1).2 i
      = (L^`()).[x]].
Proof.
move=> _ lt_in /=.
have n1 : (n.-1 + 1)%N = n by rewrite addn1 prednK // (leq_ltn_trans _ lt_in).
have lt_in1 : (i < n.-1 + 1)%N by rewrite n1.
have [qv qd] := lagrange_1D_poly interp derivative x Verts lt_in1.
split; rewrite ?lagrange_basis_1D_poly ?lagrange_derivative_1D_poly //.
- by rewrite qv n1.
- by rewrite qd n1.
Qed.

(** X2.  Interpolation with the returned arrays is exact on polynomials
    of degree below the number of nodes: for such a [p], the nodal values
    [p(node_i)] weighted by the returned values sum to [p(x)], and weighted
    by the returned derivatives they sum to [p'(x)].  In particular the
    returned derivatives sum to zero. *)
Theorem X2_polynomial_reproduction (interp derivative : seq F) (x : F)
    (p : {poly F}) :
  distinct_nodes n Verts -> (size p <= n)%N ->
  [/\ \sum_(0 <= i < n)
         p.[nth 0 Verts i] * nth 0 (HexN.lagrange_basis_1D e interp x) i
      = p.[x],
      \sum_(0 <= i < n)
         p.[nth 0 Verts i]
         * nth 0 (HexN.lagrange_derivative_1D e derivative x) i
      = (p^`()).[x]
    & \sum_(0 <= i < n) nth 0 (HexN.lagrange_derivative_1D e derivative x) i
      = 0].
Proof.
move=> dist size_p.
have v_inj := @distinct_nodes_inj F 0 n Verts dist.
have sumL := lagrange_interpolation v_inj size_p.
split.
- rewrite -[in RHS]sumL horner_sum; apply: eq_big_nat => i /andP[_ lt_in].
  by rewrite lagrange_basis_1D_poly // hornerZ.
- rewrite -[in RHS]sumL (@raddf_sum _ _ (@deriv F)) horner_sum.
  apply: eq_big_nat => i /andP[_ lt_in].
  by rewrite lagrange_derivative_1D_poly //= derivZ hornerZ.
- case: (posnP n) => [n0|n_gt0]; first by rewrite n0 big_geq.
  have [_ sum0] := lagrange_poly_partition x v_inj n_gt0.
  rewrite -[RHS]sum0.
  by apply: eq_big_nat => i /andP[_ lt_in]; rewrite lagrange_derivative_1D_poly.
Qed.

End Evaluator1D.

(** X1 on the order-2 element with nodes -1, 0, 1: the middle basis
    function at [x = 1/2]. *)
Lemma X1_derivative_of_the_value_witness :
  let e := HexN.setup_HexN equispaced_nodes 2 in
  let n := HexN.num_verts_1d_ e in
  let L := lagrange_poly n (nth 0 (HexN.HexN_Verts_1d_ e)) 1 in
  [/\ distinct_nodes n (HexN.HexN_Verts_1d_ e), (1 < n)%N
    & nth 0 (HexN.lagrange_derivative_1D e [::] (1 / 2%:R)) 1
      = (L^`()).[1 / 2%:R]].
Proof.
move=> e n L.
have dist : distinct_nodes n (HexN.HexN_Verts_1d_ e) by vm_compute.
have lt_1n : (1 < n)%N by vm_compute.
have [_ H _ _] := X1_derivative_of_the_value [::] [::] (1 / 2%:R) dist lt_1n.
split; [exact: dist | exact: lt_1n | exact: H].
Defined.

(** X2 on the order-2 element with nodes -1, 0, 1, for the polynomial
    ['X^2] at [x = 5]. *)
Lemma X2_polynomial_reproduction_witness :
  let e := HexN.setup_HexN equispaced_nodes 2 in
  let n := HexN.num_verts_1d_ e in
  let p : {poly rat} := 'X^2 in
  [/\ distinct_nodes n (HexN.HexN_Verts_1d_ e), (size p <= n)%N
    & \sum_(0 <= i < n)
         p.[nth 0 (HexN.HexN_Verts_1d_ e) i]
         * nth 0 (HexN.lagrange_basis_1D e [::] 5%:R) i
      = p.[5%:R]].
Proof.
move=> e n p.
have dist : distinct_nodes n (HexN.HexN_Verts_1d_ e) by vm_compute.
have n3 : n = 3%N by vm_compute.
have size_p : (size p <= n)%N.
  rewrite n3 /p size_polyXn. exact: leqnn.
have [H _ _] := X2_polynomial_reproduction [::] [::] 5%:R dist size_p.
split; [exact: dist | exact: size_p | exact: H].
Defined.

(** X3.  With a single node ([orderN = 0]) [QuadN::lagrange_1D] writes the
    value 1 and the derivative 0 at index 0, whatever the node and the
    evaluation point, and touches no other cell. *)
Theorem X3_lagrange_1D_single_node (F : fieldType) (interp Dinterp xi : seq F)
    (x : F) :
  QuadN.lagrange_1D interp Dinterp x xi 0
  = (set_nth 0 interp 0 1, set_nth 0 Dinterp 0 0).
Proof.
by rewrite /QuadN.lagrange_1D /QuadN.j_loop /QuadN.j_step /= divr1 mul0r.
Qed.

(** ** The tensor-product basis of [HexN] as a whole *)

Section FlatSums.

Variable F : fieldType.

(** A sum over a flat index range, read row by row. *)
Lemma sum_rows (G : nat -> F) (r n : nat) :
  \sum_(0 <= m < r * n) G m
  = \sum_(0 <= j < r) \sum_(0 <= i < n) G (i + j * n)%N.
Proof.
elim: r => [|r IH]; first by rewrite mul0n !big_geq.
rewrite [RHS]big_nat_recr //= -IH mulSn [(n + _)%N]addnC.
rewrite (@big_cat_nat _ _ _ (r * n)) ?leq_addr //=; congr (_ + _).
by rewrite -{1}[(r * n)%N]add0n big_addn addKn.
Qed.

Lemma sum_flat3 (G : nat -> F) (n : nat) :
  \sum_(0 <= m < n ^ 3) G m
  = \sum_(0 <= k < n) \sum_(0 <= j < n) \sum_(0 <= i < n)
      G (i + j * n + k * n * n)%N.
Proof.
have -> : (n ^ 3 = n * (n * n))%N by rewrite !expnS expn0 muln1.
rewrite sum_rows; apply: eq_bigr => k _.
rewrite sum_rows; apply: eq_bigr => j _.
by apply: eq_bigr => i _; rewrite mulnA.
Qed.

Lemma sum_tensor3 (a b c : nat -> F) (n : nat) :
  \sum_(0 <= k < n) \sum_(0 <= j < n) \sum_(0 <= i < n) (a i * b j * c k)
  = (\sum_(0 <= i < n) a i) * (\sum_(0 <= j < n) b j)
    * (\sum_(0 <= k < n) c k).
Proof.
rewrite [RHS]mulr_sumr; apply: eq_bigr => k _.
under eq_bigr => j _ do rewrite -!mulr_suml.
by rewrite -mulr_suml -mulr_sumr.
Qed.

End FlatSums.

Section LoopFrame.

Variables (T : Type) (x0 : T).

(** A loop of array writes leaves alone every cell that no write hits. *)
Lemma foldl_set_nth_notin (I : eqType) (g : I -> nat) (f : I -> T)
    (s : seq I) (a : seq T) (m : nat) :
  (forall q, q \in s -> g q != m) ->
  nth x0 (foldl (fun a q => set_nth x0 a (g q) (f q)) a s) m = nth x0 a m.
Proof.
elim/last_ind: s => // s q IH miss.
rewrite -cats1 foldl_cat /= nth_set_nth /=.
have /negbTE : g q != m by apply: miss; rewrite mem_rcons mem_head.
rewrite eq_sym => ->; apply: IH => r rin.
by apply: miss; rewrite mem_rcons in_cons rin orbT.
Qed.

End LoopFrame.

Section TensorPolynomials.

Variable F : fieldType.
Variable e : HexN.t F.

Local Abbreviation n := (HexN.num_verts_1d_ e).
Local Abbreviation Verts := (HexN.HexN_Verts_1d_ e).

(** The closing loop writes below [n ^ 3] only. *)
Lemma tensor_loop_frame (a b c : seq (seq F)) (out : seq F) (m : nat) :
  (n ^ 3 <= m)%N ->
  nth 0 (HexN.tensor_loop e a b c out) m = nth 0 out m.
Proof.
move=> le_m; rewrite /HexN.tensor_loop for3_foldl.
apply: (@foldl_set_nth_notin F 0 _
          (fun p : nat * nat * nat => HexN.vert_rid e p.1.1 p.1.2 p.2)
          (fun p : nat * nat * nat =>
             get2 0 a p.1.1 0 * get2 0 b p.1.2 1 * get2 0 c p.2 2)).
move=> [[i j] k]; rewrite loop_triplesP !mem_iota /= !add0n.
case/and3P=> lt_in lt_jn lt_kn.
have lt_m := flat_index_lt lt_in lt_jn lt_kn.
by rewrite /HexN.vert_rid neq_ltn (leq_trans lt_m le_m).
Qed.

(** The four evaluators at the flat index of [(i, j, k)], in terms of the
    basis polynomials. *)
Lemma HexN_basis_poly (out point : seq F) (i j k : nat) :
  let L m c := (lagrange_poly n (nth 0 Verts) m).[nth 0 point c] in
  let dL m c := ((lagrange_poly n (nth 0 Verts) m)^`()).[nth 0 point c] in
  (i < n)%N -> (j < n)%N -> (k < n)%N ->
  [/\ nth 0 (HexN.basis e out point) (HexN.vert_rid e i j k)
      = L i 0%N * L j 1%N * L k 2%N,
      nth 0 (HexN.partial_basis 0 e out point) (HexN.vert_rid e i j k)
      = dL i 0%N * L j 1%N * L k 2%N,
      nth 0 (HexN.partial_basis 1 e out point) (HexN.vert_rid e i j k)
      = L i 0%N * dL j 1%N * L k 2%N
    & nth 0 (HexN.partial_basis 2 e out point) (HexN.vert_rid e i j k)
      = L i 0%N * L j 1%N * dL k 2%N].
Proof.
move=> L dL lt_in lt_jn lt_kn.
have lE a m c : (m < n)%N ->
    nth 0 (HexN.lagrange_basis_1D e a (nth 0 point c)) m = L m c.
  by move=> lt_mn; rewrite lagrange_basis_1D_poly.
have dlE a m c : (m < n)%N ->
    nth 0 (HexN.lagrange_derivative_1D e a (nth 0 point c)) m = dL m c.
  by move=> lt_mn; rewrite lagrange_derivative_1D_poly.
split.
- rewrite /HexN.basis.
  case E0: (HexN.save_axis n 0 _) => [a0 b0].
  case E1: (HexN.save_axis n 1 _) => [a1 b1].
  case E2: (HexN.save_axis n 2 _) => [a2 b2].
  rewrite tensor_loopE // !(save_axis_fst E2) !(save_axis_fst E1).
  by rewrite !(save_axis_fst E0) lt_in lt_jn lt_kn /= !lE.
- rewrite /HexN.partial_basis /HexN.partial_xi_basis.
  case E0: (HexN.save_axis n 0 _) => [a0 b0].
  case E1: (HexN.save_axis n 1 _) => [a1 b1].
  case E2: (HexN.save_axis n 2 _) => [a2 b2].
  rewrite tensor_loopE // !(save_axis_fst E2) !(save_axis_fst E1).
  by rewrite !(save_axis_fst E0) lt_in lt_jn lt_kn /= !lE ?dlE.
- rewrite /HexN.partial_basis /HexN.partial_eta_basis.
  case E0: (HexN.save_axis n 0 _) => [a0 b0].
  case E1: (HexN.save_axis n 1 _) => [a1 b1].
  case E2: (HexN.save_axis n 2 _) => [a2 b2].
  rewrite tensor_loopE // !(save_axis_fst E2) !(save_axis_fst E1).
  by rewrite !(save_axis_fst E0) lt_in lt_jn lt_kn /= !lE ?dlE.
- rewrite /HexN.partial_basis /HexN.partial_mu_basis.
  case E0: (HexN.save_axis n 0 _) => [a0 b0].
  case E1: (HexN.save_axis n 1 _) => [a1 b1].
  case E2: (HexN.save_axis_mu n _) => [[a2 b2] c2].
  rewrite tensor_loopE // !(save_axis_mu_fst E2) !(save_axis_fst E1).
  by rewrite !(save_axis_fst E0) lt_in lt_jn lt_kn /= !lE ?dlE.
Qed.

(** A sum over all flat indices of a filled array, as a triple sum. *)
Lemma sum_filled (a : seq F) (G : nat -> nat -> nat -> F) :
  (forall i j k, (i < n)%N -> (j < n)%N -> (k < n)%N ->
     nth 0 a (HexN.vert_rid e i j k) = G i j k) ->
  \sum_(0 <= m < n ^ 3) nth 0 a m
  = \sum_(0 <= k < n) \sum_(0 <= j < n) \sum_(0 <= i < n) G i j k.
Proof.
move=> aG; rewrite sum_flat3.
apply: eq_big_nat => k /andP[_ lt_kn]; apply: eq_big_nat => j /andP[_ lt_jn].
by apply: eq_big_nat => i /andP[_ lt_in]; rewrite -aG.
Qed.

(** X4.  The [n ^ 3] values written by [HexN::basis] sum to one at every
    point, and the values written by each of the three partial-derivative
    routines sum to zero, as soon as the 1D vertex positions are pairwise
    distinct. *)
Theorem X4_HexN_basis_sums (out point : seq F) :
  distinct_nodes n Verts -> (0 < n)%N ->
  [/\ \sum_(0 <= m < n ^ 3) nth 0 (HexN.basis e out point) m = 1,
      \sum_(0 <= m < n ^ 3) nth 0 (HexN.partial_xi_basis e out point) m = 0,
      \sum_(0 <= m < n ^ 3) nth 0 (HexN.partial_eta_basis e out point) m = 0
    & \sum_(0 <= m < n ^ 3) nth 0 (HexN.partial_mu_basis e out point) m = 0].
Proof.
move=> dist n_gt0.
have v_inj := @distinct_nodes_inj F 0 n Verts dist.
have part x := lagrange_poly_partition x v_inj n_gt0.
pose L m c := (lagrange_poly n (nth 0 Verts) m).[nth 0 point c].
pose dL m c := ((lagrange_poly n (nth 0 Verts) m)^`()).[nth 0 point c].
have sL c : \sum_(0 <= m < n) L m c = 1 by have [] := part (nth 0 point c).
have sdL c : \sum_(0 <= m < n) dL m c = 0 by have [] := part (nth 0 point c).
split.
- rewrite (@sum_filled _ (fun i j k => L i 0%N * L j 1%N * L k 2%N)).
    by move=> i j k lt_in lt_jn lt_kn;
       have [] := HexN_basis_poly out point lt_in lt_jn lt_kn.
  by rewrite (sum_tensor3 (L^~ 0%N) (L^~ 1%N) (L^~ 2%N)) !sL !mulr1.
- rewrite (@sum_filled _ (fun i j k => dL i 0%N * L j 1%N * L k 2%N)).
    by move=> i j k lt_in lt_jn lt_kn;
       have [] := HexN_basis_poly out point lt_in lt_jn lt_kn.
  by rewrite (sum_tensor3 (dL^~ 0%N) (L^~ 1%N) (L^~ 2%N)) sdL !mul0r.
- rewrite (@sum_filled _ (fun i j k => L i 0%N * dL j 1%N * L k 2%N)).
    by move=> i j k lt_in lt_jn lt_kn;
       have [] := HexN_basis_poly out point lt_in lt_jn lt_kn.
  by rewrite (sum_tensor3 (L^~ 0%N) (dL^~ 1%N) (L^~ 2%N)) sdL mulr0 mul0r.
- rewrite (@sum_filled _ (fun i j k => L i 0%N * L j 1%N * dL k 2%N)).
    by move=> i j k lt_in lt_jn lt_kn;
       have [] := HexN_basis_poly out point lt_in lt_jn lt_kn.
  by rewrite (sum_tensor3 (L^~ 0%N) (L^~ 1%N) (dL^~ 2%N)) sdL mulr0.
Qed.

(** X5.  [HexN::basis] and the three partial-derivative routines write the
    cells below [num_verts_1d_ ^ 3] only: every cell of the output array
    from that index on keeps the value it had on entry. *)
Theorem X5_HexN_output_frame (out point : seq F) (m : nat) :
  (n ^ 3 <= m)%N ->
  [/\ nth 0 (HexN.basis e out point) m = nth 0 out m,
      nth 0 (HexN.partial_xi_basis e out point) m = nth 0 out m,
      nth 0 (HexN.partial_eta_basis e out point) m = nth 0 out m
    & nth 0 (HexN.partial_mu_basis e out point) m = nth 0 out m].
Proof.
move=> le_m; split.
- rewrite /HexN.basis.
  case: (HexN.save_axis n 0 _) => [a0 b0].
  case: (HexN.save_axis n 1 _) => [a1 b1].
  case: (HexN.save_axis n 2 _) => [a2 b2].
  exact: tensor_loop_frame.
- rewrite /HexN.partial_xi_basis.
  case: (HexN.save_axis n 0 _) => [a0 b0].
  case: (HexN.save_axis n 1 _) => [a1 b1].
  case: (HexN.save_axis n 2 _) => [a2 b2].
  exact: tensor_loop_frame.
- rewrite /HexN.partial_eta_basis.
  case: (HexN.save_axis n 0 _) => [a0 b0].
  case: (HexN.save_axis n 1 _) => [a1 b1].
  case: (HexN.save_axis n 2 _) => [a2 b2].
  exact: tensor_loop_frame.
- rewrite /HexN.partial_mu_basis.
  case: (HexN.save_axis n 0 _) => [a0 b0].
  case: (HexN.save_axis n 1 _) => [a1 b1].
  case: (HexN.save_axis_mu n _) => [[a2 b2] c2].
  exact: tensor_loop_frame.
Qed.

End TensorPolynomials.

(** X4 on the order-2 element with nodes -1, 0, 1 at the point
    (1/2, 1/3, 5). *)
Lemma X4_HexN_basis_sums_witness :
  let e := HexN.setup_HexN equispaced_nodes 2 in
  let n := HexN.num_verts_1d_ e in
  let point : seq rat := [:: 1 / 2%:R; 1 / 3%:R; 5%:R] in
  [/\ distinct_nodes n (HexN.HexN_Verts_1d_ e), (0 < n)%N
    & \sum_(0 <= m < n ^ 3) nth 0 (HexN.basis e [::] point) m = 1].
Proof.
move=> e n point.
have dist : distinct_nodes n (HexN.HexN_Verts_1d_ e) by vm_compute.
have n_gt0 : (0 < n)%N by vm_compute.
have [H _ _ _] := X4_HexN_basis_sums [::] point dist n_gt0.
split; [exact: dist | exact: n_gt0 | exact: H].
Defined.

(** X5 on the order-1 element: the cell 8 of a ten-cell output array
    survives a call of [basis]. *)
Lemma X5_HexN_output_frame_witness :
  let e := HexN.setup_HexN equispaced_nodes 1 in
  let out : seq rat := nseq 10 7%:R in
  (HexN.num_verts_1d_ e ^ 3 <= 8)%N
  /\ nth 0 (HexN.basis e out [:: 0; 0; 0]) 8 = nth 0 out 8.
Proof.
move=> e out.
have le_8 : (HexN.num_verts_1d_ e ^ 3 <= 8)%N by vm_compute.
have [H _ _ _] := X5_HexN_output_frame out [:: 0; 0; 0] le_8.
split; [exact: le_8 | exact: H].
Defined.

(** ** What [setup_HexN] stores: node coordinates and the vertex map *)

Section LoopOrder.

Variables (T : eqType) (x0 : T).

Lemma nth_flatten_rows (m : nat) (rows : seq (seq T)) (r i : nat) :
  (forall row, row \in rows -> size row = m) ->
  (i < m)%N -> (r < size rows)%N ->
  nth x0 (flatten rows) (i + r * m) = nth x0 (nth [::] rows r) i.
Proof.
move=> sz lt_im; elim: rows r sz => // row rows IH [|r] /= sz lt_r.
  by rewrite mul0n addn0 nth_cat sz ?mem_head // lt_im.
rewrite nth_cat sz ?mem_head // mulSn addnCA ltnNge leq_addr /= addKn.
by apply: IH => // row' row'_in; apply: sz; rewrite in_cons row'_in orbT.
Qed.

Lemma size_flatten_rows (m : nat) (rows : seq (seq T)) :
  (forall row, row \in rows -> size row = m) ->
  size (flatten rows) = (size rows * m)%N.
Proof.
elim: rows => //= row rows IH sz; rewrite size_cat sz ?mem_head // mulSn.
by rewrite IH // => row' row'_in; apply: sz; rewrite in_cons row'_in orbT.
Qed.

End LoopOrder.

(** The triple visited at step [i + j*n + k*n*n] of three nested loops over
    index lists of length [n]. *)
Lemma nth_loop_triples (n : nat) (ks js ns : seq nat) (i j k : nat) :
  size ks = n -> size js = n -> size ns = n ->
  (i < n)%N -> (j < n)%N -> (k < n)%N ->
  nth (0, 0, 0)%N (loop_triples ks js ns) (i + j * n + k * n * n)
  = (nth 0%N ns i, nth 0%N js j, nth 0%N ks k).
Proof.
move=> sz_k sz_j sz_n lt_in lt_jn lt_kn; rewrite /loop_triples.
have row_sz k' (row : seq (nat * nat * nat)) :
    row \in [seq [seq (i', j', k') | i' <- ns] | j' <- js] -> size row = n.
  by case/mapP=> j' _ ->; rewrite size_map.
have plane_sz (pl : seq (nat * nat * nat)) :
    pl \in [seq flatten [seq [seq (i', j', k') | i' <- ns] | j' <- js]
           | k' <- ks] -> size pl = (n * n)%N.
  case/mapP=> k' _ ->; rewrite (size_flatten_rows (@row_sz k')).
  by rewrite size_map sz_j.
have lt_ij : (i + j * n < n * n)%N.
  apply: (@leq_trans (j.+1 * n)); last by rewrite leq_mul2r lt_jn orbT.
  by rewrite mulSn -addSn leq_add2r.
rewrite -mulnA (nth_flatten_rows _ plane_sz) ?size_map ?sz_k //.
rewrite (nth_map 0%N) ?sz_k //.
rewrite (nth_flatten_rows _ (@row_sz _)) ?size_map ?sz_j //.
by rewrite (nth_map 0%N) ?sz_j // (nth_map 0%N) ?sz_n.
Qed.

Lemma size_loop_triples (n : nat) (ks js ns : seq nat) :
  size ks = n -> size js = n -> size ns = n ->
  size (loop_triples ks js ns) = (n * (n * n))%N.
Proof.
move=> sz_k sz_j sz_n; rewrite /loop_triples.
rewrite (@size_flatten_rows _ (n * n)) ?size_map ?sz_k // => pl.
case/mapP=> k' _ ->; rewrite (@size_flatten_rows _ n) ?size_map ?sz_j //.
by move=> row /mapP[j' _ ->]; rewrite size_map.
Qed.

Section SetupFacts.

Variable F : fieldType.
Variable lob : seq F -> nat -> seq F.

(** The coordinate of the triple [(i, j, k)] along the axis [d]. *)
Local Abbreviation axis i j k d := (nth 0%N [:: i; j; k] d).

(** The triple loop of [create_lobatto_nodes] that fills [HexN_Nodes_]. *)
Lemma fill_nodes_loop (e : HexN.t F) (nn : nat) :
  HexN.num_nodes_1d_ e = nn ->
  let body num_i num_j num_k (e : HexN.t F) :=
    let node_rlid := HexN.node_rid e num_i num_j num_k in
    let a := HexN.HexN_Nodes_ e in
    let a := set2 0 a node_rlid 0 (nth 0 (HexN.HexN_Nodes_1d_ e) num_i) in
    let a := set2 0 a node_rlid 1 (nth 0 (HexN.HexN_Nodes_1d_ e) num_j) in
    let a := set2 0 a node_rlid 2 (nth 0 (HexN.HexN_Nodes_1d_ e) num_k) in
    HexN.with_Nodes e a in
  let r := for3 (range nn) (range nn) (range nn) body e in
  [/\ HexN.HexN_Nodes_1d_ r = HexN.HexN_Nodes_1d_ e,
      HexN.Vert_Node_map_ r = HexN.Vert_Node_map_ e,
      HexN.num_nodes_1d_ r = nn
    & forall i j k d, (i < nn)%N -> (j < nn)%N -> (k < nn)%N -> (d < 3)%N ->
        get2 0 (HexN.HexN_Nodes_ r) (HexN.node_rid e i j k) d
        = nth 0 (HexN.HexN_Nodes_1d_ e) (axis i j k d)].
Proof.
move=> nnE body r; rewrite /r for3_foldl.
set trip := loop_triples _ _ _.
have in_range (p : nat * nat * nat) :
    p \in trip -> [/\ (p.1.1 < nn)%N, (p.1.2 < nn)%N & (p.2 < nn)%N].
  by case: p => [[i j] k]; rewrite loop_triplesP !mem_iota /= !add0n => /and3P.
suff gen (s : seq (nat * nat * nat)) :
    (forall p, p \in s -> p \in trip) ->
    let r := foldl (fun st (p : nat * nat * nat) => body p.1.1 p.1.2 p.2 st)
                   e s in
    [/\ HexN.HexN_Nodes_1d_ r = HexN.HexN_Nodes_1d_ e,
        HexN.Vert_Node_map_ r = HexN.Vert_Node_map_ e,
        HexN.num_nodes_1d_ r = nn
      & forall p d, p \in s -> (d < 3)%N ->
          get2 0 (HexN.HexN_Nodes_ r) (HexN.node_rid e p.1.1 p.1.2 p.2) d
          = nth 0 (HexN.HexN_Nodes_1d_ e) (axis p.1.1 p.1.2 p.2 d)].
  have [-> -> -> cells] := gen trip (fun p pin => pin).
  split=> // i j k d lt_i lt_j lt_k lt_d.
  apply: (cells (i, j, k)) => //.
  by rewrite loop_triplesP !mem_iota /= !add0n lt_i lt_j lt_k.
elim/last_ind: s => [|s q IH] sub; first by split.
have {}sub_s : forall p, p \in s -> p \in trip.
  by move=> p pin; apply: sub; rewrite mem_rcons in_cons pin orbT.
have q_in : q \in trip by apply: sub; rewrite mem_rcons mem_head.
rewrite -cats1 foldl_cat /=.
case: (foldl _ e s) (IH sub_s) => n1 n2 n3 n4 n5 n6 N1 N3 V1 V3 M /=.
move=> [-> -> n1E cells]; rewrite /body /=; split=> // p d.
rewrite mem_cat mem_seq1 /HexN.node_rid /= n1E nnE !get2_set2.
have [lt_q1 lt_q2 _] := in_range q q_in.
case/orP=> [p_in|/eqP ->] lt_d; last first.
  by rewrite eqxx /=; case: d lt_d => [|[|[|]]].
have [lt_p1 lt_p2 _] := in_range p (sub_s p p_in).
case: eqP => [eq_pq|_] /=; last by rewrite -nnE; apply: cells.
have [-> -> ->] := flat_index_inj lt_p1 lt_p2 lt_q1 lt_q2 eq_pq.
by case: d lt_d => [|[|[|]]].
Qed.

(** [save_verts_1d] leaves the other arrays alone. *)
Lemma save_verts_1d_frame (e : HexN.t F) (idx : seq nat) :
  let r := HexN.save_verts_1d e idx in
  [/\ HexN.HexN_Nodes_1d_ r = HexN.HexN_Nodes_1d_ e,
      HexN.HexN_Nodes_ r = HexN.HexN_Nodes_ e
    & HexN.Vert_Node_map_ r = HexN.Vert_Node_map_ e].
Proof.
rewrite /HexN.save_verts_1d; elim/last_ind: idx => [|s k IH] //=.
rewrite -cats1 foldl_cat /=.
by case: (foldl _ _ s) IH => [e1 c] /= [<- <- <-].
Qed.

(** The loop nest that fills [Vert_Node_map_]: step [t] stores the node id
    of the [t]-th visited triple. *)
Lemma fill_vert_node_map_nth (e : HexN.t F) (idx : seq nat) :
  let r := HexN.fill_vert_node_map e idx in
  let trip := loop_triples idx idx idx in
  [/\ HexN.HexN_Nodes_1d_ r = HexN.HexN_Nodes_1d_ e,
      HexN.HexN_Nodes_ r = HexN.HexN_Nodes_ e
    & forall t, (t < size trip)%N ->
        nth 0%N (HexN.Vert_Node_map_ r) t
        = let p := nth (0, 0, 0)%N trip t in HexN.node_rid e p.1.1 p.1.2 p.2].
Proof.
rewrite /HexN.fill_vert_node_map for3_foldl /=.
set step := (fun st (p : nat * nat * nat) => _).
suff gen (s : seq (nat * nat * nat)) :
    let r := foldl step (e, 0%N) s in
    [/\ r.2 = size s, HexN.num_nodes_1d_ r.1 = HexN.num_nodes_1d_ e,
        HexN.HexN_Nodes_1d_ r.1 = HexN.HexN_Nodes_1d_ e,
        HexN.HexN_Nodes_ r.1 = HexN.HexN_Nodes_ e
      & forall t, (t < size s)%N ->
          nth 0%N (HexN.Vert_Node_map_ r.1) t
          = let p := nth (0, 0, 0)%N s t in HexN.node_rid e p.1.1 p.1.2 p.2].
  by have [_ _ -> -> cells] := gen (loop_triples idx idx idx).
elim/last_ind: s => [|s q IH] //.
rewrite -cats1 foldl_cat /= /step /=.
case: (foldl _ _ s) IH => [e1 c] /= [-> n1E -> -> cells].
rewrite size_cat addn1; split=> // t; rewrite ltnS nth_set_nth /= nth_cat.
rewrite leq_eqVlt; case: (t =P size s) => [->|_] /=.
  by rewrite ltnn subnn /= /HexN.node_rid n1E.
by move=> lt_t; rewrite lt_t cells.
Qed.

(** The element as [setup_HexN] leaves it. *)
Lemma setup_HexN_fields (elem_order : nat) :
  let e := HexN.setup_HexN lob elem_order in
  let s t := if elem_order == 0%N then t else (2 * t)%N in
  let nn := (if elem_order == 0 then 2 else 2 * elem_order + 1)%N in
  let nv := (if elem_order == 0 then 2 else elem_order + 1)%N in
  [/\ HexN.num_nodes_1d_ e = nn, HexN.num_verts_1d_ e = nv,
      forall i j k d, (i < nn)%N -> (j < nn)%N -> (k < nn)%N -> (d < 3)%N ->
        get2 0 (HexN.HexN_Nodes_ e) (HexN.node_rid e i j k) d
        = nth 0 (HexN.HexN_Nodes_1d_ e) (axis i j k d),
      forall a, (a < nv)%N ->
        nth 0 (HexN.HexN_Verts_1d_ e) a = nth 0 (HexN.HexN_Nodes_1d_ e) (s a)
    & forall a b c, (a < nv)%N -> (b < nv)%N -> (c < nv)%N ->
        nth 0%N (HexN.Vert_Node_map_ e) (HexN.vert_rid e a b c)
        = HexN.node_rid e (s a) (s b) (s c)].
Proof.
move=> e s nn nv; rewrite /e /HexN.setup_HexN.
set e0 := (if elem_order == 0%N then HexN.Mk _ _ _ _ _ _ _ _ _ _ _ else _).
have n0 : HexN.num_nodes_1d_ e0 = nn.
  by rewrite /e0 /nn; case: (elem_order == 0%N).
have v0 : HexN.num_verts_1d_ e0 = nv.
  by rewrite /e0 /nv; case: (elem_order == 0%N).
set e1 := HexN.create_lobatto_nodes lob e0 elem_order.
have [v1 n1 _ verts1] := create_lobatto_nodesE lob e0 elem_order.
rewrite -/e1 in v1 n1 verts1.
have [N1 nodes1] :
    HexN.HexN_Nodes_1d_ e1 = lob (HexN.HexN_Nodes_1d_ e0) nn
    /\ forall i j k d, (i < nn)%N -> (j < nn)%N -> (k < nn)%N -> (d < 3)%N ->
        get2 0 (HexN.HexN_Nodes_ e1) (HexN.node_rid e0 i j k) d
        = nth 0 (lob (HexN.HexN_Nodes_1d_ e0) nn) (axis i j k d).
  rewrite /e1 /HexN.create_lobatto_nodes -/nn.
  set e' := HexN.with_Nodes_1d e0 _.
  have n' : HexN.num_nodes_1d_ e' = nn by [].
  have [] := fill_nodes_loop n'.
  set e2 := for3 _ _ _ _ e'; move=> N2 _ _ cells2.
  have [Na Nb _] := save_verts_1d_frame e2 (range nn).
  have [Nc Nd _] := save_verts_1d_frame e2 (range_step2 nn).
  by case: (elem_order == 0%N); rewrite ?Na ?Nb ?Nc ?Nd N2.
have rid1 i j k : HexN.node_rid e1 i j k = HexN.node_rid e0 i j k.
  by rewrite /HexN.node_rid n1.
have idx_size : size (if elem_order == 0%N then range nn else range_step2 nn)
                = nv.
  rewrite /nn /nv; case: (elem_order == 0%N); first by rewrite size_iota.
  by rewrite range_step2_odd size_map size_iota addn1.
have idx_nth a : (a < nv)%N ->
    nth 0%N (if elem_order == 0%N then range nn else range_step2 nn) a = s a.
  rewrite /nn /nv /s; case: (elem_order == 0%N) => [|];
    rewrite ?[(elem_order + 1)%N]addn1 => lt_a.
    by rewrite nth_iota.
  by rewrite range_step2_odd (nth_map 0%N) ?size_iota // nth_iota.
set idx := (if elem_order == 0%N then _ else _) in idx_size idx_nth.
have -> : (if (0 < elem_order)%N
           then HexN.fill_vert_node_map
                  (if elem_order == 0%N
                   then HexN.fill_vert_node_map e1
                          (range (HexN.num_nodes_1d_ e1))
                   else e1)
                  (range_step2
                     (HexN.num_nodes_1d_
                        (if elem_order == 0%N
                         then HexN.fill_vert_node_map e1
                                (range (HexN.num_nodes_1d_ e1))
                         else e1)))
           else if elem_order == 0%N
                then HexN.fill_vert_node_map e1 (range (HexN.num_nodes_1d_ e1))
                else e1)
          = HexN.fill_vert_node_map e1 idx.
  rewrite /idx n1 n0; case E: elem_order => [|o]; first by rewrite ltnn eqxx.
  by rewrite ltn0Sn -[o.+1 == 0%N]/false n1 n0.
have [vF nF _ VF] := fill_vert_node_mapE e1 idx.
have [N1F NF cells] := fill_vert_node_map_nth e1 idx.
have ridF i j k : HexN.node_rid (HexN.fill_vert_node_map e1 idx) i j k
                  = HexN.node_rid e0 i j k.
  by rewrite /HexN.node_rid nF n1.
split.
- by rewrite nF n1.
- by rewrite vF v1.
- by move=> i j k d lt_i lt_j lt_k lt_d; rewrite ridF NF N1F N1 nodes1.
- by move=> a lt_a; rewrite VF N1F N1 verts1.
- move=> a b c lt_a lt_b lt_c.
  have lt_abc : (a + b * nv + c * nv * nv
                 < size (loop_triples idx idx idx))%N.
    rewrite (size_loop_triples idx_size idx_size idx_size).
    have := flat_index_lt lt_a lt_b lt_c.
    by rewrite !expnS expn0 muln1.
  rewrite /HexN.vert_rid vF v1 v0 ridF (cells _ lt_abc).
  by rewrite (nth_loop_triples idx_size idx_size idx_size) //= !idx_nth.
Qed.

(** X6.  After [setup_HexN], [node_coords] returns for the node with
    flat index [node_rid(i,j,k)] the coordinates
    [(Nodes_1d(i), Nodes_1d(j), Nodes_1d(k))], where [Nodes_1d] is the
    array that [lobatto_nodes_1D] filled. *)
Theorem X6_setup_node_coordinates (elem_order : nat) (i j k : nat) :
  let e := HexN.setup_HexN lob elem_order in
  (i < HexN.num_nodes_1d_ e)%N -> (j < HexN.num_nodes_1d_ e)%N ->
  (k < HexN.num_nodes_1d_ e)%N ->
  [/\ HexN.node_coords e (HexN.node_rid e i j k) 0
      = nth 0 (HexN.HexN_Nodes_1d_ e) i,
      HexN.node_coords e (HexN.node_rid e i j k) 1
      = nth 0 (HexN.HexN_Nodes_1d_ e) j
    & HexN.node_coords e (HexN.node_rid e i j k) 2
      = nth 0 (HexN.HexN_Nodes_1d_ e) k].
Proof.
move=> e; have [nE _ nodes _ _] := setup_HexN_fields elem_order.
rewrite -/e in nE nodes *; rewrite nE => lt_i lt_j lt_k.
by rewrite /HexN.node_coords; split; rewrite nodes.
Qed.

(** X7.  After [setup_HexN], the vertices are every other node along each
    axis (every node when the order is 0): the vertex [(a,b,c)] is mapped
    by [vert_node_map] to the node [(s a, s b, s c)] with [s t = 2 t]
    ([s t = t] at order 0), the 1D vertex positions are the 1D node
    positions at those indices, and so the coordinates of the node of
    vertex [(a,b,c)] are [(Verts_1d(a), Verts_1d(b), Verts_1d(c))]. *)
Theorem X7_setup_vertex_node_map (elem_order : nat) (a b c : nat) :
  let e := HexN.setup_HexN lob elem_order in
  let s t := if elem_order == 0%N then t else (2 * t)%N in
  (a < HexN.num_verts_1d_ e)%N -> (b < HexN.num_verts_1d_ e)%N ->
  (c < HexN.num_verts_1d_ e)%N ->
  [/\ HexN.vert_node_map e (HexN.vert_rid e a b c)
      = HexN.node_rid e (s a) (s b) (s c),
      nth 0 (HexN.HexN_Verts_1d_ e) a = nth 0 (HexN.HexN_Nodes_1d_ e) (s a)
    & HexN.node_point e (HexN.vert_node_map e (HexN.vert_rid e a b c))
      = [:: nth 0 (HexN.HexN_Verts_1d_ e) a; nth 0 (HexN.HexN_Verts_1d_ e) b;
            nth 0 (HexN.HexN_Verts_1d_ e) c]].
Proof.
move=> e s; have [nE vE nodes verts vmap] := setup_HexN_fields elem_order.
rewrite -/e -/s in nE vE nodes verts vmap *; rewrite vE => lt_a lt_b lt_c.
have lt_s t : (t < if elem_order == 0%N then 2 else elem_order + 1)%N ->
    (s t < if elem_order == 0%N then 2 else 2 * elem_order + 1)%N.
  rewrite /s; case: (elem_order == 0%N) => //; rewrite !addn1 !ltnS => le_t.
  by rewrite leq_mul2l le_t orbT.
rewrite /HexN.vert_node_map vmap //; split=> //; first exact: verts.
rewrite /HexN.node_point /HexN.node_coords /= !nodes ?lt_s //=.
by rewrite !verts.
Qed.

End SetupFacts.

Section NodalBasis.

Variable F : fieldType.
Variable lob : seq F -> nat -> seq F.

(** X8.  The basis built by [setup_HexN] is nodal: evaluated at the node
    that [vert_node_map] assigns to the vertex [(a,b,c)], the basis
    function of the vertex [(i,j,k)] is 1 when the two vertices coincide
    and 0 otherwise, as soon as the 1D vertex positions are pairwise
    distinct. *)
Theorem X8_setup_basis_is_nodal (elem_order : nat) (out : seq F)
    (i j k a b c : nat) :
  let e := HexN.setup_HexN lob elem_order in
  let n := HexN.num_verts_1d_ e in
  distinct_nodes n (HexN.HexN_Verts_1d_ e) ->
  (i < n)%N -> (j < n)%N -> (k < n)%N ->
  (a < n)%N -> (b < n)%N -> (c < n)%N ->
  nth 0 (HexN.basis e out
           (HexN.node_point e (HexN.vert_node_map e (HexN.vert_rid e a b c))))
        (HexN.vert_rid e i j k)
  = ((i == a) && (j == b) && (k == c))%:R.
Proof.
move=> e n dist lt_i lt_j lt_k lt_a lt_b lt_c.
have v_inj := @distinct_nodes_inj F 0 n _ dist.
have [nE vE nodes verts vmap] := setup_HexN_fields lob elem_order.
rewrite -/e in nE vE nodes verts vmap.
have lt_s t : (t < n)%N ->
    ((if elem_order == 0%N then t else 2 * t)
     < if elem_order == 0%N then 2 else 2 * elem_order + 1)%N.
  rewrite /n vE; case: (elem_order == 0%N) => //.
  rewrite !addn1 !ltnS => le_t.
  by rewrite leq_mul2l le_t orbT.
have -> : HexN.node_point e (HexN.vert_node_map e (HexN.vert_rid e a b c))
          = [:: nth 0 (HexN.HexN_Verts_1d_ e) a;
                nth 0 (HexN.HexN_Verts_1d_ e) b;
                nth 0 (HexN.HexN_Verts_1d_ e) c].
  rewrite /HexN.vert_node_map vmap -?vE //.
  rewrite /HexN.node_point /HexN.node_coords /= !nodes ?lt_s //=.
  by rewrite !verts -?vE.
have [-> _ _ _] := HexN_basis_poly out
  [:: nth 0 (HexN.HexN_Verts_1d_ e) a; nth 0 (HexN.HexN_Verts_1d_ e) b;
      nth 0 (HexN.HexN_Verts_1d_ e) c] lt_i lt_j lt_k.
rewrite !lagrange_poly_horner /= !(lagrange_at_node v_inj) //.
by rewrite -!natrM !mulnb.
Qed.

End NodalBasis.

(** X6 on the order-2 element with nodes -1, -1/2, 0, 1/2, 1: the node
    (1, 4, 2). *)
Lemma X6_setup_node_coordinates_witness :
  let e := HexN.setup_HexN equispaced_nodes 2 in
  [/\ (1 < HexN.num_nodes_1d_ e)%N, (4 < HexN.num_nodes_1d_ e)%N,
      (2 < HexN.num_nodes_1d_ e)%N
    & HexN.node_coords e (HexN.node_rid e 1 4 2) 1
      = nth 0 (HexN.HexN_Nodes_1d_ e) 4].
Proof.
move=> e.
have lt1 : (1 < HexN.num_nodes_1d_ e)%N by vm_compute.
have lt4 : (4 < HexN.num_nodes_1d_ e)%N by vm_compute.
have lt2 : (2 < HexN.num_nodes_1d_ e)%N by vm_compute.
have [_ H _] :=
  @X6_setup_node_coordinates _ equispaced_nodes 2 1 4 2 lt1 lt4 lt2.
split; [exact: lt1 | exact: lt4 | exact: lt2 | exact: H].
Defined.

(** X7 on the order-2 element: the vertex (1, 2, 0). *)
Lemma X7_setup_vertex_node_map_witness :
  let e := HexN.setup_HexN equispaced_nodes 2 in
  [/\ (1 < HexN.num_verts_1d_ e)%N, (2 < HexN.num_verts_1d_ e)%N,
      (0 < HexN.num_verts_1d_ e)%N
    & HexN.vert_node_map e (HexN.vert_rid e 1 2 0) = HexN.node_rid e 2 4 0].
Proof.
move=> e.
have lt1 : (1 < HexN.num_verts_1d_ e)%N by vm_compute.
have lt2 : (2 < HexN.num_verts_1d_ e)%N by vm_compute.
have lt0 : (0 < HexN.num_verts_1d_ e)%N by vm_compute.
have [H _ _] :=
  @X7_setup_vertex_node_map _ equispaced_nodes 2 1 2 0 lt1 lt2 lt0.
split; [exact: lt1 | exact: lt2 | exact: lt0 | exact: H].
Defined.

(** X8 on the order-1 element with nodes -1, 0, 1: the basis function of
    the vertex (1, 0, 1) at the node of the vertex (1, 0, 1). *)
Lemma X8_setup_basis_is_nodal_witness :
  let e := HexN.setup_HexN equispaced_nodes 1 in
  let n := HexN.num_verts_1d_ e in
  [/\ distinct_nodes n (HexN.HexN_Verts_1d_ e), (1 < n)%N, (0 < n)%N
    & nth 0 (HexN.basis e [::]
               (HexN.node_point e
                  (HexN.vert_node_map e (HexN.vert_rid e 1 0 1))))
            (HexN.vert_rid e 1 0 1)
      = 1].
Proof.
move=> e n.
have dist : distinct_nodes n (HexN.HexN_Verts_1d_ e) by vm_compute.
have lt1 : (1 < n)%N by vm_compute.
have lt0 : (0 < n)%N by vm_compute.
have H := @X8_setup_basis_is_nodal _ equispaced_nodes 1 [::] 1 0 1 1 0 1
            dist lt1 lt0 lt1 lt1 lt0 lt1.
split; [exact: dist | exact: lt1 | exact: lt0 | exact: H].
Defined.

(** ** The accumulation loops of [physical_position] *)

Section PositionLoops.

Variable F : fieldType.

Lemma range_rcons (n : nat) : range n.+1 = rcons (range n) n.
Proof. by rewrite /range -addn1 iotaD add0n cats1. Qed.

Lemma add_position_dims (vertices : seq (seq F)) (basis x_point : seq F)
    (vert_lid num_dim d : nat) :
  (foldl (fun x_point dim => add_position vertices basis x_point vert_lid dim)
         x_point (range num_dim))`_d
  = if (d < num_dim)%N
    then x_point`_d + get2 0 vertices vert_lid d * basis`_vert_lid
    else x_point`_d.
Proof.
elim: num_dim d => [|n IH] d //.
rewrite range_rcons foldl_rcons /add_position nth_set_nth /=.
rewrite !IH ltnn [in RHS]ltnS.
by case: ltngtP => // ->.
Qed.

Lemma add_position_verts (vertices : seq (seq F)) (basis x_point : seq F)
    (num_verts dim d : nat) :
  (foldl (fun x_point vert_lid =>
            add_position vertices basis x_point vert_lid dim)
         x_point (range num_verts))`_d
  = if d == dim
    then x_point`_d + \sum_(0 <= v < num_verts) get2 0 vertices v d * basis`_v
    else x_point`_d.
Proof.
elim: num_verts d => [|n IH] d.
  by rewrite big_geq // addr0 if_same.
rewrite range_rcons foldl_rcons /add_position nth_set_nth /=.
rewrite !IH eqxx; case: eqP => [->|_] //.
by rewrite big_nat_recr //= addrA.
Qed.

(** The loop nest with the vertices outside. *)
Lemma position_loop_verts (vertices : seq (seq F)) (basis x_point : seq F)
    (num_verts num_dim d : nat) :
  (foldl (fun x_point vert_lid =>
            foldl (fun x_point dim =>
                     add_position vertices basis x_point vert_lid dim)
                  x_point (range num_dim))
         x_point (range num_verts))`_d
  = if (d < num_dim)%N
    then x_point`_d + \sum_(0 <= v < num_verts) get2 0 vertices v d * basis`_v
    else x_point`_d.
Proof.
elim: num_verts => [|n IH].
  by rewrite big_geq // addr0 if_same.
rewrite range_rcons foldl_rcons add_position_dims IH.
by case: (d < num_dim)%N => //; rewrite big_nat_recr //= addrA.
Qed.

(** The loop nest with the dimensions outside. *)
Lemma position_loop_dims (vertices : seq (seq F)) (basis x_point : seq F)
    (num_verts num_dim d : nat) :
  (foldl (fun x_point dim =>
            foldl (fun x_point vert_lid =>
                     add_position vertices basis x_point vert_lid dim)
                  x_point (range num_verts))
         x_point (range num_dim))`_d
  = if (d < num_dim)%N
    then x_point`_d + \sum_(0 <= v < num_verts) get2 0 vertices v d * basis`_v
    else x_point`_d.
Proof.
elim: num_dim => [|n IH] //.
rewrite range_rcons foldl_rcons add_position_verts IH.
rewrite [in RHS]ltnS eq_sym.
by case: ltngtP => // ->.
Qed.

End PositionLoops.

(** ** QuadN: the two-dimensional element *)

Section CellwiseLoops.

Variables (S I V : Type).

(** A loop in which the pass [m] writes the cells [x] with [key x = m],
    among the cells it owns, always with the value [w x]. *)
Lemma foldl_cellwise (step : S -> nat -> S) (proj : S -> I -> V)
    (owned : pred I) (key : I -> nat) (w : I -> V) (T0 : nat) :
  (forall a m x, (m < T0)%N ->
     proj (step a m) x
     = if owned x && (key x == m) then w x else proj a x) ->
  forall T a x, (T <= T0)%N ->
    proj (foldl step a (range T)) x
    = if owned x && (key x < T)%N then w x else proj a x.
Proof.
move=> stepE; elim=> [|T IH] a x le_T; first by rewrite andbF.
rewrite range_rcons foldl_rcons (stepE _ _ _ le_T) (IH _ _ (ltnW le_T)).
by rewrite [in RHS]ltnS; case: (owned x) => //=; case: ltngtP.
Qed.

End CellwiseLoops.

Section QuadN2D.

Variable F : fieldType.

Lemma basis_partials_ijE (N m : nat) :
  (0 < N)%N ->
  ((QuadN.basis_partials_ij N m).1 - 1 = m %% N)%N
  /\ ((QuadN.basis_partials_ij N m).2 - 1 = m %/ N)%N.
Proof.
move=> N_gt0; rewrite /QuadN.basis_partials_ij !addn1 !subn1 /=.
by rewrite mulnC subSn ?leq_divM //= {1}(divn_eq m N) addKn.
Qed.

(** [lagrange_1D] at an index below the number of nodes, whatever the
    arrays held. *)
Lemma lagrange_1D_fst (interp Dinterp r1 r2 : seq F) (x : F) (xi : seq F)
    (orderN i : nat) :
  QuadN.lagrange_1D interp Dinterp x xi orderN = (r1, r2) ->
  (i < orderN + 1)%N ->
  r1`_i = (lagrange_poly (orderN + 1) (nth 0 xi) i).[x]
  /\ r2`_i = ((lagrange_poly (orderN + 1) (nth 0 xi) i)^`()).[x].
Proof.
move=> E lt_i; have [] := lagrange_1D_poly interp Dinterp x xi lt_i.
by rewrite E.
Qed.

Section Step.

Variables (nodes_1d xi_point : seq F) (orderN : nat).

Local Abbreviation N := (orderN + 1)%N.
Local Abbreviation L i c :=
  ((lagrange_poly (orderN + 1) (nth 0 nodes_1d) i).[xi_point`_c]).
Local Abbreviation dL i c :=
  (((lagrange_poly (orderN + 1) (nth 0 nodes_1d) i)^`()).[xi_point`_c]).

(** One pass of the loop of [basis_partials], array by array. *)
Lemma basis_partials_stepE (a : QuadN.arrays F) (m : nat) :
  (m < N * N)%N ->
  let r := QuadN.basis_partials_step nodes_1d xi_point orderN a m in
  [/\ QuadN.lag_nodes r
      = set2 0 (set2 0 (QuadN.lag_nodes a) m 0 (nodes_1d`_(m %% N)))
             m 1 (nodes_1d`_(m %/ N)),
      QuadN.lag_basis_2d r
      = set_nth 0 (QuadN.lag_basis_2d a) m (L (m %% N) 0%N * L (m %/ N) 1%N)
    & QuadN.lag_partial r
      = set2 0 (set2 0 (QuadN.lag_partial a) m 0
                  (dL (m %% N) 0%N * L (m %/ N) 1%N))
             m 1 (L (m %% N) 0%N * dL (m %/ N) 1%N)].
Proof.
move=> lt_m; have N_gt0 : (0 < N)%N by rewrite addn1.
have lt_i : (m %% N < N)%N by rewrite ltn_pmod.
have lt_j : (m %/ N < N)%N by rewrite ltn_divLR.
have [iE jE] := basis_partials_ijE m N_gt0.
rewrite /QuadN.basis_partials_step.
rewrite [QuadN.basis_partials_ij N m]surjective_pairing iE jE.
case E1: (QuadN.lagrange_1D _ _ _ _ _) => [v1 d1].
case: (QuadN.reset_1d N (v1, d1)) => [v2 d2].
case E2: (QuadN.lagrange_1D _ _ _ _ _) => [v3 d3].
case: (QuadN.reset_1d N (v3, d3)) => [v4 d4] /=.
have [vi di] := lagrange_1D_fst E1 lt_i.
have [vj dj] := lagrange_1D_fst E2 lt_j.
by rewrite !get2_set2 !eqxx /= vi di vj dj.
Qed.

(** The arrays once the loop of [basis_partials] has run. *)
Lemma basis_partialsE (a : QuadN.arrays F) (m d : nat) :
  let r := QuadN.basis_partials a nodes_1d xi_point orderN in
  [/\ get2 0 (QuadN.lag_nodes r) m d
      = if (d < 2)%N && (m < N * N)%N
        then nodes_1d`_(if d == 0%N then m %% N else m %/ N)
        else get2 0 (QuadN.lag_nodes a) m d,
      (QuadN.lag_basis_2d r)`_m
      = if (m < N * N)%N then L (m %% N) 0%N * L (m %/ N) 1%N
        else (QuadN.lag_basis_2d a)`_m
    & get2 0 (QuadN.lag_partial r) m d
      = if (d < 2)%N && (m < N * N)%N
        then (if d == 0%N then dL (m %% N) 0%N * L (m %/ N) 1%N
              else L (m %% N) 0%N * dL (m %/ N) 1%N)
        else get2 0 (QuadN.lag_partial a) m d].
Proof.
rewrite /QuadN.basis_partials; split.
- apply: (@foldl_cellwise _ (nat * nat) _ _
            (fun a (x : nat * nat) => get2 0 (QuadN.lag_nodes a) x.1 x.2)
            (fun x => (x.2 < 2)%N) fst
            (fun x => nodes_1d`_(if x.2 == 0%N then x.1 %% N else x.1 %/ N))
            (N * N) _ (N * N) a (m, d) (leqnn _)).
  move=> b k [m' d'] lt_k /=; have [-> _ _] := basis_partials_stepE b lt_k.
  rewrite !get2_set2; case: (m' =P k) => [->|_] //=; last by rewrite andbF.
  by case: d' => [|[|d']].
- apply: (@foldl_cellwise _ nat _ _
            (fun a x => (QuadN.lag_basis_2d a)`_x) xpredT id
            (fun x => L (x %% N) 0%N * L (x %/ N) 1%N)
            (N * N) _ (N * N) a m (leqnn _)).
  move=> b k m' lt_k /=; have [_ -> _] := basis_partials_stepE b lt_k.
  by rewrite nth_set_nth /=; case: eqP => [->|].
- apply: (@foldl_cellwise _ (nat * nat) _ _
            (fun a (x : nat * nat) => get2 0 (QuadN.lag_partial a) x.1 x.2)
            (fun x => (x.2 < 2)%N) fst
            (fun x => if x.2 == 0%N then dL (x.1 %% N) 0%N * L (x.1 %/ N) 1%N
                      else L (x.1 %% N) 0%N * dL (x.1 %/ N) 1%N)
            (N * N) _ (N * N) a (m, d) (leqnn _)).
  move=> b k [m' d'] lt_k /=; have [_ _ ->] := basis_partials_stepE b lt_k.
  rewrite !get2_set2; case: (m' =P k) => [->|_] //=; last by rewrite andbF.
  by case: d' => [|[|d']].
Qed.

End Step.

Lemma flat2_divmod (N i j : nat) :
  (i < N)%N -> ((i + j * N) %% N = i)%N /\ ((i + j * N) %/ N = j)%N.
Proof.
move=> lt_i; have N_gt0 : (0 < N)%N by apply: leq_ltn_trans lt_i.
by rewrite addnC modnMDl modn_small // divnMDl // divn_small // addn0.
Qed.

Lemma flat2_lt (N i j : nat) :
  (i < N)%N -> (j < N)%N -> (i + j * N < N * N)%N.
Proof.
move=> lt_i lt_j; apply: (@leq_trans (j.+1 * N)).
  by rewrite mulSn -addSn leq_add2r.
by rewrite leq_mul2r lt_j orbT.
Qed.

Lemma sum_tensor2 (a b : nat -> F) (n : nat) :
  \sum_(0 <= j < n) \sum_(0 <= i < n) (a i * b j)
  = (\sum_(0 <= i < n) a i) * (\sum_(0 <= j < n) b j).
Proof.
by rewrite [RHS]mulr_sumr; apply: eq_bigr => j _; rewrite mulr_suml.
Qed.

(** A sum over the flat indices of the element, as a double sum. *)
Lemma sum_flat2 (G : nat -> F) (H : nat -> nat -> F) (N : nat) :
  (forall i j, (i < N)%N -> (j < N)%N -> G (i + j * N)%N = H i j) ->
  \sum_(0 <= m < N * N) G m = \sum_(0 <= j < N) \sum_(0 <= i < N) H i j.
Proof.
move=> GH; rewrite sum_rows.
apply: eq_big_nat => j /andP[_ lt_j]; apply: eq_big_nat => i /andP[_ lt_i].
exact: GH.
Qed.

(** X9.  [QuadN::basis_partials] fills the arrays node by node: for the
    node [(i, j)], numbered [i + j*N] with [N = orderN + 1], it stores
    the coordinates [(nodes_1d(i), nodes_1d(j))], the product of the two
    1D values as the basis value, and the same product with the value of
    one axis replaced by the 1D derivative as the two partials.  The 1D
    values are those [lagrange_1D] returns on any scratch arrays. *)
Theorem X9_basis_partials_cells (a : QuadN.arrays F)
    (nodes_1d xi_point s s' : seq F) (orderN i j : nat) :
  let N := (orderN + 1)%N in
  let r := QuadN.basis_partials a nodes_1d xi_point orderN in
  let m := (i + j * N)%N in
  let l k c := (QuadN.lagrange_1D s s' xi_point`_c nodes_1d orderN).1`_k in
  let dl k c := (QuadN.lagrange_1D s s' xi_point`_c nodes_1d orderN).2`_k in
  (i < N)%N -> (j < N)%N ->
  [/\ get2 0 (QuadN.lag_nodes r) m 0 = nodes_1d`_i,
      get2 0 (QuadN.lag_nodes r) m 1 = nodes_1d`_j,
      (QuadN.lag_basis_2d r)`_m = l i 0%N * l j 1%N,
      get2 0 (QuadN.lag_partial r) m 0 = dl i 0%N * l j 1%N
    & get2 0 (QuadN.lag_partial r) m 1 = l i 0%N * dl j 1%N].
Proof.
move=> N r m l dl lt_i lt_j.
have [mod_m div_m] := flat2_divmod j lt_i.
have lt_m := flat2_lt lt_i lt_j.
have lE k c : (k < N)%N ->
    l k c = (lagrange_poly N (nth 0 nodes_1d) k).[xi_point`_c]
    /\ dl k c = ((lagrange_poly N (nth 0 nodes_1d) k)^`()).[xi_point`_c].
  by move=> lt_k; apply: lagrange_1D_poly.
have [li dli] := lE i 0%N lt_i; have [lj dlj] := lE j 1%N lt_j.
have [n0 b0 p0] := basis_partialsE nodes_1d xi_point orderN a m 0.
have [n1 _ p1] := basis_partialsE nodes_1d xi_point orderN a m 1.
rewrite /r /m n0 n1 b0 p0 p1 lt_m /= mod_m div_m.
by rewrite li dli lj dlj.
Qed.

(** X10.  When the 1D nodes are pairwise distinct, the basis values that
    [QuadN::basis_partials] stores add up to one and each of the two
    partials adds up to zero over the nodes of the element; and at the
    point [(nodes_1d(i'), nodes_1d(j'))] the basis value stored for the
    node [(i, j)] is 1 if the two nodes coincide and 0 otherwise. *)
Theorem X10_basis_partials_sums (a : QuadN.arrays F)
    (nodes_1d xi_point : seq F) (orderN : nat) :
  let N := (orderN + 1)%N in
  let r := QuadN.basis_partials a nodes_1d xi_point orderN in
  distinct_nodes N nodes_1d ->
  [/\ \sum_(0 <= m < N * N) (QuadN.lag_basis_2d r)`_m = 1,
      \sum_(0 <= m < N * N) get2 0 (QuadN.lag_partial r) m 0 = 0,
      \sum_(0 <= m < N * N) get2 0 (QuadN.lag_partial r) m 1 = 0
    & forall i j i' j', (i < N)%N -> (j < N)%N -> (i' < N)%N -> (j' < N)%N ->
        (QuadN.lag_basis_2d
           (QuadN.basis_partials a nodes_1d [:: nodes_1d`_i'; nodes_1d`_j']
              orderN))`_(i + j * N)
        = ((i == i') && (j == j'))%:R].
Proof.
move=> N r dist.
have v_inj := @distinct_nodes_inj F 0 N nodes_1d dist.
have N_gt0 : (0 < N)%N by rewrite /N addn1.
have part x := lagrange_poly_partition x v_inj N_gt0.
pose L k c := (lagrange_poly N (nth 0 nodes_1d) k).[xi_point`_c].
pose dL k c := ((lagrange_poly N (nth 0 nodes_1d) k)^`()).[xi_point`_c].
have sL c : \sum_(0 <= k < N) L k c = 1 by have [] := part xi_point`_c.
have sdL c : \sum_(0 <= k < N) dL k c = 0 by have [] := part xi_point`_c.
have cell i j d : (i < N)%N -> (j < N)%N ->
    (QuadN.lag_basis_2d r)`_(i + j * N) = L i 0%N * L j 1%N
    /\ get2 0 (QuadN.lag_partial r) (i + j * N) d
       = if (d < 2)%N
         then (if d == 0%N then dL i 0%N * L j 1%N else L i 0%N * dL j 1%N)
         else get2 0 (QuadN.lag_partial a) (i + j * N) d.
  move=> lt_i lt_j; have [mod_m div_m] := flat2_divmod j lt_i.
  have [_ -> ->] :=
    basis_partialsE nodes_1d xi_point orderN a (i + j * N)%N d.
  by rewrite (flat2_lt lt_i lt_j) andbT mod_m div_m.
split.
- rewrite (@sum_flat2 _ (fun i j => L i 0%N * L j 1%N)).
    by move=> i j lt_i lt_j; have [] := cell i j 0%N lt_i lt_j.
  by rewrite (sum_tensor2 (L^~ 0%N) (L^~ 1%N)) !sL mulr1.
- rewrite (@sum_flat2 _ (fun i j => dL i 0%N * L j 1%N)).
    by move=> i j lt_i lt_j; have [_] := cell i j 0%N lt_i lt_j.
  by rewrite (sum_tensor2 (dL^~ 0%N) (L^~ 1%N)) sdL mul0r.
- rewrite (@sum_flat2 _ (fun i j => L i 0%N * dL j 1%N)).
    by move=> i j lt_i lt_j; have [_] := cell i j 1%N lt_i lt_j.
  by rewrite (sum_tensor2 (L^~ 0%N) (dL^~ 1%N)) sdL mulr0.
- move=> i j i' j' lt_i lt_j lt_i' lt_j'.
  have [mod_m div_m] := flat2_divmod j lt_i.
  have [_ -> _] := basis_partialsE nodes_1d [:: nodes_1d`_i'; nodes_1d`_j']
                     orderN a (i + j * N)%N 0.
  rewrite (flat2_lt lt_i lt_j) mod_m div_m /= !lagrange_poly_horner.
  by rewrite !(lagrange_at_node v_inj) // -natrM mulnb.
Qed.

End QuadN2D.

Section QuadNPosition.

Variable F : fieldType.
Variable num_dim : nat.

(** The loop nest of [QuadN::corners]. *)
Lemma cornersE (lag_nodes lag_corner : seq (seq F)) (orderN c d : nat) :
  let N := (orderN + 1)%N in
  get2 0 (QuadN.corners num_dim lag_nodes lag_corner orderN) c d
  = if (d < num_dim)%N && (c < 4)%N
    then get2 0 lag_nodes
           (nth 0%N [:: 0; N - 1; N * N - N; N * N - 1]%N c) d
    else get2 0 lag_corner c d.
Proof.
move=> N; rewrite /QuadN.corners -/N.
set ids := [:: _; _; _; _].
have inner (lc : seq (seq F)) (k c' d' : nat) :
    get2 0 (foldl (fun (lc : seq (seq F)) dim =>
                     set2 0 lc k dim (get2 0 lag_nodes (nth 0%N ids k) dim))
                  lc (range num_dim)) c' d'
    = if (c' == k) && (d' < num_dim)%N
      then get2 0 lag_nodes (nth 0%N ids k) d' else get2 0 lc c' d'.
  apply: (@foldl_cellwise _ (nat * nat) _ _
            (fun (lc : seq (seq F)) (x : nat * nat) => get2 0 lc x.1 x.2)
            (fun x => x.1 == k) snd
            (fun x => get2 0 lag_nodes (nth 0%N ids k) x.2)
            num_dim _ num_dim lc (c', d') (leqnn _)).
  move=> b dim [c2 d2] _ /=; rewrite get2_set2.
  by case: (d2 =P dim) => [->|]; rewrite ?andbF.
apply: (@foldl_cellwise _ (nat * nat) _ _
          (fun (lc : seq (seq F)) (x : nat * nat) => get2 0 lc x.1 x.2)
          (fun x => (x.2 < num_dim)%N) fst
          (fun x => get2 0 lag_nodes (nth 0%N ids x.1) x.2)
          4 _ 4 lag_corner (c, d) (leqnn _)).
move=> lc k [c' d'] _ /=; rewrite inner andbC.
by case: (c' =P k) => [->|]; rewrite ?andbF.
Qed.

(** X11.  [QuadN::physical_position] adds to each of the first [num_dim]
    cells of [x_point] the sum over the nodes of the node coordinate
    times the basis value, and leaves the other cells alone; it does not
    clear [x_point] first.  On the arrays that [basis_partials] has
    filled, for an element of order at least 1 with pairwise distinct 1D
    nodes, what it adds to the coordinate [d < 2] is the coordinate [d]
    of the reference point. *)
Theorem X11_QuadN_physical_position (x_point : seq F) (orderN d : nat) :
  let N := (orderN + 1)%N in
  (forall (lag_nodes : seq (seq F)) (lag_basis_2d : seq F),
     (QuadN.physical_position num_dim x_point lag_nodes lag_basis_2d orderN)`_d
     = if (d < num_dim)%N
       then x_point`_d
            + \sum_(0 <= m < N * N) get2 0 lag_nodes m d * lag_basis_2d`_m
       else x_point`_d)
  /\ (forall (a : QuadN.arrays F) (nodes_1d xi_point : seq F),
        let r := QuadN.basis_partials a nodes_1d xi_point orderN in
        distinct_nodes N nodes_1d -> (1 <= orderN)%N ->
        (d < num_dim)%N -> (d < 2)%N ->
        (QuadN.physical_position num_dim x_point (QuadN.lag_nodes r)
           (QuadN.lag_basis_2d r) orderN)`_d
        = x_point`_d + xi_point`_d).
Proof.
move=> N.
have posE (ln : seq (seq F)) (b : seq F) :
    (QuadN.physical_position num_dim x_point ln b orderN)`_d
    = if (d < num_dim)%N
      then x_point`_d + \sum_(0 <= m < N * N) get2 0 ln m d * b`_m
      else x_point`_d.
  exact: position_loop_verts.
split=> [ln b|a nodes_1d xi_point r dist order_gt0 lt_d lt_d2].
  exact: posE.
rewrite posE lt_d; congr (_ + _).
have v_inj := @distinct_nodes_inj F 0 N nodes_1d dist.
have N_gt0 : (0 < N)%N by rewrite /N addn1.
have size_X : (size ('X : {poly F}) <= N)%N.
  by rewrite size_polyX /N addn1 ltnS.
have part x := lagrange_poly_partition x v_inj N_gt0.
have repr x : \sum_(0 <= k < N)
                nodes_1d`_k * (lagrange_poly N (nth 0 nodes_1d) k).[x] = x.
  have /(congr1 (horner^~ x)) := lagrange_interpolation v_inj size_X.
  rewrite horner_sum hornerX => sumX; rewrite -[RHS]sumX.
  by apply: eq_bigr => k _; rewrite hornerZ hornerX.
pose L k c := (lagrange_poly N (nth 0 nodes_1d) k).[xi_point`_c].
have sL c : \sum_(0 <= k < N) L k c = 1 by have [] := part xi_point`_c.
rewrite (@sum_flat2 _ _ (fun i j =>
           (if d == 0%N then nodes_1d`_i else nodes_1d`_j)
           * (L i 0%N * L j 1%N))).
  move=> i j lt_i lt_j; have [mod_m div_m] := flat2_divmod j lt_i.
  have [-> -> _] :=
    basis_partialsE nodes_1d xi_point orderN a (i + j * N)%N d.
  rewrite -/N lt_d2 (flat2_lt lt_i lt_j) mod_m div_m /=.
  by case: (d == 0%N).
case: d lt_d2 {lt_d posE} => [|[|//]] _ /=.
  rewrite (eq_bigr (fun j => xi_point`_0 * L j 1%N)).
    move=> j _; rewrite -[in RHS](repr xi_point`_0) mulr_suml.
    by apply: eq_bigr => i _; rewrite mulrA.
  by rewrite -mulr_sumr sL mulr1.
rewrite (eq_bigr (fun j => nodes_1d`_j * L j 1%N)).
  move=> j _; rewrite (eq_bigr (fun i => L i 0%N * (nodes_1d`_j * L j 1%N))).
    by move=> i _; rewrite mulrCA.
  by rewrite -mulr_suml sL mul1r.
exact: repr.
Qed.

(** X12.  [QuadN::corners] copies the first [num_dim] coordinates of the
    nodes 0, [N-1], [N*N-N] and [N*N-1] into the rows 0 to 3 of
    [lag_corner] and writes nothing else.  On the node array that
    [basis_partials] has filled these are the four corners of the grid:
    the corner [c] has the first 1D node as its coordinate on the axes
    where the bit of [c] is 0 and the last one where it is 1. *)
Theorem X12_QuadN_corners (lag_corner : seq (seq F)) (orderN c d : nat) :
  let N := (orderN + 1)%N in
  (forall lag_nodes : seq (seq F),
     get2 0 (QuadN.corners num_dim lag_nodes lag_corner orderN) c d
     = if (d < num_dim)%N && (c < 4)%N
       then get2 0 lag_nodes
              (nth 0%N [:: 0; N - 1; N * N - N; N * N - 1]%N c) d
       else get2 0 lag_corner c d)
  /\ (forall (a : QuadN.arrays F) (nodes_1d xi_point : seq F),
        let r := QuadN.basis_partials a nodes_1d xi_point orderN in
        (c < 4)%N -> (d < num_dim)%N -> (d < 2)%N ->
        get2 0 (QuadN.corners num_dim (QuadN.lag_nodes r) lag_corner orderN)
             c d
        = nodes_1d`_(if (if d == 0%N then odd c else (2 <= c)%N)
                     then orderN else 0%N)).
Proof.
move=> N; split=> [ln|a nodes_1d xi_point r lt_c lt_d lt_d2].
  exact: cornersE.
rewrite cornersE lt_d lt_c /= -/N.
have lt_o : (orderN < N)%N by rewrite /N addn1.
have N_gt0 : (0 < N)%N by rewrite /N addn1.
have N1 : (N - 1 = orderN + 0 * N)%N by rewrite /N addnK mul0n addn0.
have N2 : (N * N - N = 0 + orderN * N)%N.
  by rewrite add0n -{3}[N]mul1n -mulnBl /N addnK.
have N3 : (N * N - 1 = orderN + orderN * N)%N.
  by rewrite {1}/N mulnDl mul1n {2}/N addnA addnK addnC.
have cell i j : (i < N)%N -> (j < N)%N ->
    get2 0 (QuadN.lag_nodes r) (i + j * N) d
    = nodes_1d`_(if d == 0%N then i else j).
  move=> lt_i lt_j; have [mod_m div_m] := flat2_divmod j lt_i.
  have [-> _ _] :=
    basis_partialsE nodes_1d xi_point orderN a (i + j * N)%N d.
  by rewrite -/N lt_d2 (flat2_lt lt_i lt_j) mod_m div_m.
case: c lt_c => [|[|[|[|//]]]] _ /=.
- by rewrite -[0%N]/(0 + 0 * N)%N cell //; case: (d == 0%N).
- by rewrite N1 cell //; case: (d == 0%N).
- by rewrite N2 cell //; case: (d == 0%N).
- by rewrite N3 cell //; case: (d == 0%N).
Qed.

End QuadNPosition.

(** X9 on the order-2 element with nodes -1, 0, 1 at the point
    (1/2, 1/3): the node (1, 2). *)
Lemma X9_basis_partials_cells_witness :
  let a : QuadN.arrays rat := QuadN.Arrays [::] [::] [::] [::] [::] [::] [::] in
  let nodes_1d : seq rat := [:: - 1; 0; 1] in
  let xi_point : seq rat := [:: 1 / 2%:R; 1 / 3%:R] in
  let r := QuadN.basis_partials a nodes_1d xi_point 2 in
  [/\ (1 < 2 + 1)%N, (2 < 2 + 1)%N
    & get2 0 (QuadN.lag_nodes r) (1 + 2 * (2 + 1)) 1 = nodes_1d`_2].
Proof.
move=> a nodes_1d xi_point r.
have lt1 : (1 < 2 + 1)%N by [].
have lt2 : (2 < 2 + 1)%N by [].
have [_ H _ _ _] :=
  @X9_basis_partials_cells _ a nodes_1d xi_point [::] [::] 2 1 2 lt1 lt2.
split; [exact: lt1 | exact: lt2 | exact: H].
Defined.

(** X10 on the order-2 element with nodes -1, 0, 1 at the point
    (1/2, 1/3). *)
Lemma X10_basis_partials_sums_witness :
  let a : QuadN.arrays rat := QuadN.Arrays [::] [::] [::] [::] [::] [::] [::] in
  let nodes_1d : seq rat := [:: - 1; 0; 1] in
  let xi_point : seq rat := [:: 1 / 2%:R; 1 / 3%:R] in
  let r := QuadN.basis_partials a nodes_1d xi_point 2 in
  distinct_nodes (2 + 1) nodes_1d
  /\ \sum_(0 <= m < (2 + 1) * (2 + 1)) (QuadN.lag_basis_2d r)`_m = 1.
Proof.
move=> a nodes_1d xi_point r.
have dist : distinct_nodes (2 + 1) nodes_1d by vm_compute.
have [H _ _ _] := @X10_basis_partials_sums _ a nodes_1d xi_point 2 dist.
split; [exact: dist | exact: H].
Defined.

(** ** Fixed-order elements: Quad4/8/12, Hex8/20/32 and Tess16 *)

Lemma write_loopE (idx : seq nat) (f : nat -> rat) (a : seq rat) (v : nat) :
  (write_loop idx f a)`_v = if v \in idx then f v else a`_v.
Proof.
rewrite /write_loop; case: ifP => [v_in|/negbT v_notin].
  by apply: (@foldl_set_nth rat 0 _ id f idx a v v_in) => q _ ->.
apply: (@foldl_set_nth_notin rat 0 _ id f idx a v) => q q_in.
by apply: contraNneq v_notin => <-.
Qed.

Lemma write_loop_in (idx : seq nat) (f : nat -> rat) (a : seq rat) (v : nat) :
  v \in idx -> (write_loop idx f a)`_v = f v.
Proof. by rewrite write_loopE => ->. Qed.

Lemma write_loop_notin (idx : seq nat) (f : nat -> rat) (a : seq rat)
    (v : nat) :
  v \notin idx -> (write_loop idx f a)`_v = a`_v.
Proof. by rewrite write_loopE => /negbTE ->. Qed.

(** A property of every listed vertex, one vertex at a time. *)
Lemma forall_in (P : nat -> Prop) (vs : seq nat) :
  foldr (fun v acc => P v /\ acc) True vs -> forall v, v \in vs -> P v.
Proof.
elim: vs => [|w vs IH] //= [Pw /IH {}IH] v.
by rewrite in_cons => /orP[/eqP ->|/IH].
Qed.

(** The cell [v] of a sequence of write loops holds what the last loop
    that visits [v] wrote. *)
Ltac write_loop_nth :=
  repeat match goal with
  | |- context [ (write_loop ?idx ?f ?a)`_?v ] =>
      first [ rewrite (@write_loop_in idx f a v isT)
            | rewrite (@write_loop_notin idx f a v isT) ]
  end.

(** What the last loop that visits the cell wrote. *)
Ltac last_write t :=
  lazymatch t with
  | (write_loop ?idx ?f ?a)`_?v =>
      let b := eval vm_compute in (v \in idx) in
      lazymatch b with
      | true => eval cbv beta in (f v)
      | false => last_write constr:(a`_v)
      end
  | _ => t
  end.

(** The same for a sum of products of cells, all the cells at once. *)
Ltac rebuild t :=
  lazymatch t with
  | (?a + ?b)%R =>
      let a' := rebuild a in
      let b' := rebuild b in constr:((a' + b')%R)
  | (?a * ?b)%R =>
      let a' := rebuild a in
      let b' := rebuild b in constr:((a' * b')%R)
  | (write_loop _ _ _)`_ _ => last_write t
  | _ => t
  end.

Lemma add_eq (a a' b b' : rat) : a = a' -> b = b' -> a + b = a' + b'.
Proof. by move=> -> ->. Qed.

Lemma mul_eq (a a' b b' : rat) : a = a' -> b = b' -> a * b = a' * b'.
Proof. by move=> -> ->. Qed.

Ltac rebuilt :=
  lazymatch goal with
  | |- (_ + _)%R = (_ + _)%R => refine (add_eq _ _); rebuilt
  | |- (_ * _)%R = (_ * _)%R => refine (mul_eq _ _); rebuilt
  | |- (write_loop _ _ _)`_ _ = _ => write_loop_nth; reflexivity
  | |- _ => reflexivity
  end.

Ltac write_loop_cells :=
  lazymatch goal with
  | |- ?lhs = ?rhs =>
      let lhs' := rebuild lhs in
      transitivity lhs'; [ rebuilt | ]
  end.

(** Reads of the static tables. *)
Ltac table_lookup rv tab nd :=
  repeat match goal with
  | |- context [ rv ?v ?d ] =>
      let c := eval lazy beta iota zeta
                 delta [rv tab nd nth muln addn Nat.mul Nat.add] in (rv v d) in
      change (rv v d) with c
  end.

Ltac unroll_sum :=
  rewrite /index_iota subn0 [iota _ _]/= !big_cons big_nil.

(** Cells of a point moved along one axis. *)
Lemma nth_set_nth_same (s : seq rat) (d : nat) (t : rat) :
  (set_nth 0 s d t)`_d = t.
Proof. by rewrite nth_set_nth /= eqxx. Qed.

Lemma nth_set_nth_other (s : seq rat) (d k : nat) (t : rat) :
  k != d -> (set_nth 0 s d t)`_k = s`_k.
Proof. by rewrite nth_set_nth /= => /negbTE ->. Qed.

Ltac moved_point :=
  repeat match goal with
  | |- context [ (set_nth 0 ?s ?d ?t)`_?k ] =>
      first [ rewrite (@nth_set_nth_same s d t)
            | rewrite (@nth_set_nth_other s d k t isT) ]
  end.

(** One goal per listed vertex. *)
Ltac each_vertex :=
  match goal with
  | |- forall v : nat, is_true (v \in ?vs) -> @?P v =>
      let l := eval vm_compute in vs in
      (change vs with l); apply: forall_in; cbn [foldr];
      repeat match goal with
             | |- _ /\ _ => split
             | |- True => exact: I
             end
  end.

(** *** Polynomial expressions *)

Lemma ppoly_eval (e : pexpr) (t : rat) : (ppoly e).[t] = peval e t.
Proof.
elim: e => [|c|a IHa b IHb|a IHa b IHb|a IHa] /=.
- by rewrite hornerX.
- by rewrite hornerC.
- by rewrite hornerD IHa IHb.
- by rewrite hornerM IHa IHb.
- by rewrite hornerN IHa.
Qed.

Lemma ppoly_deriv (e : pexpr) : (ppoly e)^`() = ppoly (pderiv e).
Proof.
elim: e => [|c|a IHa b IHb|a IHa b IHb|a IHa] /=.
- by rewrite derivX polyC1.
- by rewrite derivC.
- by rewrite derivD IHa IHb.
- by rewrite derivM IHa IHb.
- by rewrite derivN IHa.
Qed.

(** A function of one coordinate that an expression describes has the
    derivative of the expression as its derivative. *)
Lemma derivative_by_expr (e : pexpr) (f : rat -> rat) (x dval : rat) :
  (forall t, f t = peval e t) -> dval = peval (pderiv e) x ->
  exists p : {poly rat}, (forall t, f t = p.[t]) /\ dval = (p^`()).[x].
Proof.
move=> fE dE; exists (ppoly e); split=> [t|]; first by rewrite ppoly_eval.
by rewrite ppoly_deriv ppoly_eval.
Qed.

(** Two polynomials with the same value at every rational are equal. *)
Lemma poly_ext (p q : {poly rat}) : (forall t, p.[t] = q.[t]) -> p = q.
Proof.
move=> pq; apply/eqP; rewrite -subr_eq0; apply/eqP.
pose rs : seq rat := [seq n%:R | n <- iota 0 (size (p - q))].
apply: (@roots_geq_poly_eq0 _ _ rs).
- by apply/allP => x _; rewrite rootE hornerD hornerN pq subrr.
- rewrite map_inj_uniq ?iota_uniq // => m n /eqP.
  by rewrite Num.Theory.eqr_nat => /eqP.
- by rewrite size_map size_iota.
Qed.

Lemma not_derivative_by_expr (e : pexpr) (f : rat -> rat) (x dval : rat) :
  (forall t, f t = peval e t) -> dval != peval (pderiv e) x ->
  ~ exists p : {poly rat}, (forall t, f t = p.[t]) /\ dval = (p^`()).[x].
Proof.
move=> fE dE [p [fp dp]]; move/eqP: dE; apply.
have pE : p = ppoly e by apply: poly_ext => t; rewrite -fp fE ppoly_eval.
by rewrite dp pE ppoly_deriv ppoly_eval.
Qed.

(** The expression in [PVar] obtained from a term in [t]. *)
Ltac reify_pexpr t e :=
  lazymatch e with
  | t => constr:(PVar)
  | (?a + ?b)%R =>
      let pa := reify_pexpr t a in
      let pb := reify_pexpr t b in constr:(PAdd pa pb)
  | (?a * ?b)%R =>
      let pa := reify_pexpr t a in
      let pb := reify_pexpr t b in constr:(PMul pa pb)
  | (- ?a)%R => let pa := reify_pexpr t a in constr:(PNeg pa)
  | _ => constr:(PConst e)
  end.

(** The value of a basis function along one axis is the expression that
    the code evaluates; the partial derivative is compared with the
    derivative of that expression. *)
Ltac along_axis basis rv tab nd :=
  let t := fresh "t" in
  intro t; rewrite /basis; write_loop_nth; table_lookup rv tab nd;
  moved_point;
  match goal with
  | |- ?lhs = peval ?E t =>
      let e := reify_pexpr t lhs in unify E e; reflexivity
  end.

Ltac derivative_at basis partial rv tab nd :=
  eapply derivative_by_expr;
  [ along_axis basis rv tab nd
  | rewrite /partial; write_loop_nth; table_lookup rv tab nd;
    cbv [peval pderiv]; field ].

(** *** From a finite check to the properties *)

Lemma nodal_from_check (num_verts num_dim : nat)
    (ref_verts : nat -> nat -> rat)
    (basis : seq rat -> seq rat -> seq rat) :
  (forall out out' xi v, v \in range num_verts ->
     (basis out xi)`_v = (basis out' xi)`_v) ->
  all (fun w =>
         let values := basis [::] (vertex_position num_dim ref_verts w) in
         all (fun v => values`_v == (v == w)%:R) (range num_verts))
      (range num_verts) ->
  nodal_basis num_verts num_dim ref_verts basis.
Proof.
move=> basis_out /allP check out v w lt_v lt_w.
have v_in : v \in range num_verts by rewrite mem_iota.
have w_in : w \in range num_verts by rewrite mem_iota.
rewrite (basis_out out [::]) //; apply/eqP.
by move/allP: (check w w_in); apply.
Qed.

Lemma maps_from_nodal (num_verts num_dim : nat)
    (ref_verts : nat -> nat -> rat)
    (basis : seq rat -> seq rat -> seq rat)
    (physical_position : seq rat -> seq rat -> seq (seq rat) -> seq rat) :
  nodal_basis num_verts num_dim ref_verts basis ->
  interpolates_position num_verts num_dim basis physical_position ->
  forall (x_point : seq rat) (vertices : seq (seq rat)) (w dim : nat),
    (w < num_verts)%N -> (dim < num_dim)%N ->
    (physical_position x_point (vertex_position num_dim ref_verts w)
                       vertices)`_dim
    = get2 0 vertices w dim.
Proof.
move=> nodal interp x V w d lt_w lt_d.
have [-> // _] := interp x [::] (vertex_position num_dim ref_verts w) V d.
rewrite big_mkord (bigD1 (Ordinal lt_w)) //= nodal // eqxx mulr1.
rewrite big1 ?addr0 // => v; rewrite -val_eqE /= => /negbTE neq_vw.
by rewrite nodal // neq_vw mulr0.
Qed.

(** Reads of the table of reference vertices. *)
Ltac vertex_lookup rv tab nd :=
  repeat match goal with
  | |- context [ get2 0 (reference_vertices ?n ?m rv) ?v ?d ] =>
      let c := eval lazy beta iota zeta
                 delta [get2 reference_vertices vertex_position mkseq map
                        iota rv tab nd nth muln addn Nat.mul Nat.add]
               in (get2 0 (reference_vertices n m rv) v d) in
      change (get2 0 (reference_vertices n m rv) v d) with c
  end.

(** *** Quad4 *)

Lemma Quad4_basis_out (out out' xi : seq rat) (v : nat) :
  v \in range Quad4.num_verts_ ->
    (Quad4.basis out xi)`_v = (Quad4.basis out' xi)`_v.
Proof.
move: v; each_vertex; rewrite /Quad4.basis; write_loop_nth; reflexivity.
Qed.

Lemma Quad4_nodal :
  nodal_basis Quad4.num_verts_ Quad4.num_dim_ Quad4.ref_verts Quad4.basis.
Proof.
apply: nodal_from_check; first exact: Quad4_basis_out.
by vm_compute.
Qed.

Lemma Quad4_position :
  interpolates_position Quad4.num_verts_ Quad4.num_dim_
    Quad4.basis Quad4.physical_position.
Proof.
move=> x out xi V d; rewrite /Quad4.physical_position position_loop_verts.
rewrite write_loopE mem_iota add0n leq0n andTb.
split=> [lt_d|le_d]; last by rewrite ltnNge le_d.
rewrite lt_d add0r; apply: eq_big_nat => v; rewrite -[(_ <= v < _)%N]mem_iota.
move=> v_in; congr (_ * _); move: v v_in.
each_vertex; rewrite /Quad4.basis; write_loop_nth; reflexivity.
Qed.

Lemma Quad4_reference (x xi : seq rat) (d : nat) :
  (d < Quad4.num_dim_)%N ->
  (Quad4.physical_position x xi
     (reference_vertices Quad4.num_verts_ Quad4.num_dim_ Quad4.ref_verts))`_d
  = xi`_d.
Proof.
move=> lt_d.
have [-> // _] := Quad4_position x [::] xi
  (reference_vertices Quad4.num_verts_ Quad4.num_dim_ Quad4.ref_verts) d.
rewrite /Quad4.num_verts_; unroll_sum; rewrite /Quad4.basis; write_loop_cells.
table_lookup Quad4.ref_verts Quad4.ref_vert Quad4.num_dim_.
do 2?[case: d lt_d => [|d] lt_d //];
  vertex_lookup Quad4.ref_verts Quad4.ref_vert Quad4.num_dim_; field.
Qed.

(** *** Quad8 *)

Lemma Quad8_basis_out (out out' xi : seq rat) (v : nat) :
  v \in range Quad8.num_verts_ ->
    (Quad8.basis out xi)`_v = (Quad8.basis out' xi)`_v.
Proof.
move: v; each_vertex; rewrite /Quad8.basis; write_loop_nth; reflexivity.
Qed.

Lemma Quad8_nodal :
  nodal_basis Quad8.num_verts_ Quad8.num_dim_ Quad8.ref_verts Quad8.basis.
Proof.
apply: nodal_from_check; first exact: Quad8_basis_out.
by vm_compute.
Qed.

Lemma Quad8_position :
  interpolates_position Quad8.num_verts_ Quad8.num_dim_
    Quad8.basis Quad8.physical_position.
Proof.
move=> x out xi V d; rewrite /Quad8.physical_position position_loop_verts.
rewrite write_loopE mem_iota add0n leq0n andTb.
split=> [lt_d|le_d]; last by rewrite ltnNge le_d.
rewrite lt_d add0r; apply: eq_big_nat => v; rewrite -[(_ <= v < _)%N]mem_iota.
move=> v_in; congr (_ * _); move: v v_in.
each_vertex; rewrite /Quad8.basis; write_loop_nth; reflexivity.
Qed.

Lemma Quad8_reference (x xi : seq rat) (d : nat) :
  (d < Quad8.num_dim_)%N ->
  (Quad8.physical_position x xi
     (reference_vertices Quad8.num_verts_ Quad8.num_dim_ Quad8.ref_verts))`_d
  = xi`_d.
Proof.
move=> lt_d.
have [-> // _] := Quad8_position x [::] xi
  (reference_vertices Quad8.num_verts_ Quad8.num_dim_ Quad8.ref_verts) d.
rewrite /Quad8.num_verts_; unroll_sum; rewrite /Quad8.basis; write_loop_cells.
table_lookup Quad8.ref_verts Quad8.ref_vert Quad8.num_dim_.
do 2?[case: d lt_d => [|d] lt_d //];
  vertex_lookup Quad8.ref_verts Quad8.ref_vert Quad8.num_dim_; field.
Qed.

(** *** Quad12 *)

Lemma Quad12_basis_out (out out' xi : seq rat) (v : nat) :
  v \in range Quad12.num_verts_ ->
    (Quad12.basis out xi)`_v = (Quad12.basis out' xi)`_v.
Proof.
move: v; each_vertex; rewrite /Quad12.basis; write_loop_nth; reflexivity.
Qed.

Lemma Quad12_nodal :
  nodal_basis Quad12.num_verts_ Quad12.num_dim_ Quad12.ref_verts Quad12.basis.
Proof.
apply: nodal_from_check; first exact: Quad12_basis_out.
by vm_compute.
Qed.

Lemma Quad12_position :
  interpolates_position Quad12.num_verts_ Quad12.num_dim_
    Quad12.basis Quad12.physical_position.
Proof.
move=> x out xi V d; rewrite /Quad12.physical_position position_loop_verts.
rewrite write_loopE mem_iota add0n leq0n andTb.
split=> [lt_d|le_d]; last by rewrite ltnNge le_d.
rewrite lt_d add0r; apply: eq_big_nat => v; rewrite -[(_ <= v < _)%N]mem_iota.
move=> v_in; congr (_ * _); move: v v_in.
each_vertex; rewrite /Quad12.basis; write_loop_nth; reflexivity.
Qed.

Lemma Quad12_reference (x xi : seq rat) (d : nat) :
  (d < Quad12.num_dim_)%N ->
  (Quad12.physical_position x xi
     (reference_vertices Quad12.num_verts_ Quad12.num_dim_ Quad12.ref_verts))`_d
  = xi`_d.
Proof.
move=> lt_d.
have [-> // _] := Quad12_position x [::] xi
  (reference_vertices Quad12.num_verts_ Quad12.num_dim_ Quad12.ref_verts) d.
rewrite /Quad12.num_verts_; unroll_sum; rewrite /Quad12.basis; write_loop_cells.
table_lookup Quad12.ref_verts Quad12.ref_vert Quad12.num_dim_.
do 2?[case: d lt_d => [|d] lt_d //];
  vertex_lookup Quad12.ref_verts Quad12.ref_vert Quad12.num_dim_; field.
Qed.

(** *** Hex8 *)

Lemma Hex8_basis_out (out out' xi : seq rat) (v : nat) :
  v \in range Hex8.num_verts_ ->
    (Hex8.basis out xi)`_v = (Hex8.basis out' xi)`_v.
Proof.
move: v; each_vertex; rewrite /Hex8.basis; write_loop_nth; reflexivity.
Qed.

Lemma Hex8_nodal :
  nodal_basis Hex8.num_verts_ Hex8.num_dim_ Hex8.ref_verts Hex8.basis.
Proof.
apply: nodal_from_check; first exact: Hex8_basis_out.
by vm_compute.
Qed.

Lemma Hex8_position :
  interpolates_position Hex8.num_verts_ Hex8.num_dim_
    Hex8.basis Hex8.physical_position.
Proof.
move=> x out xi V d; rewrite /Hex8.physical_position position_loop_verts.
rewrite write_loopE mem_iota add0n leq0n andTb.
split=> [lt_d|le_d]; last by rewrite ltnNge le_d.
rewrite lt_d add0r; apply: eq_big_nat => v; rewrite -[(_ <= v < _)%N]mem_iota.
move=> v_in; congr (_ * _); move: v v_in.
each_vertex; rewrite /Hex8.basis; write_loop_nth; reflexivity.
Qed.

Lemma Hex8_reference (x xi : seq rat) (d : nat) :
  (d < Hex8.num_dim_)%N ->
  (Hex8.physical_position x xi
     (reference_vertices Hex8.num_verts_ Hex8.num_dim_ Hex8.ref_verts))`_d
  = xi`_d.
Proof.
move=> lt_d.
have [-> // _] := Hex8_position x [::] xi
  (reference_vertices Hex8.num_verts_ Hex8.num_dim_ Hex8.ref_verts) d.
rewrite /Hex8.num_verts_; unroll_sum; rewrite /Hex8.basis; write_loop_cells.
table_lookup Hex8.ref_verts Hex8.ref_vert Hex8.num_dim_.
do 3?[case: d lt_d => [|d] lt_d //];
  vertex_lookup Hex8.ref_verts Hex8.ref_vert Hex8.num_dim_; field.
Qed.

(** *** Hex20 *)

Lemma Hex20_basis_out (out out' xi : seq rat) (v : nat) :
  v \in range Hex20.num_verts_ ->
    (Hex20.basis out xi)`_v = (Hex20.basis out' xi)`_v.
Proof.
move: v; each_vertex; rewrite /Hex20.basis; write_loop_nth; reflexivity.
Qed.

Lemma Hex20_nodal :
  nodal_basis Hex20.num_verts_ Hex20.num_dim_ Hex20.ref_verts Hex20.basis.
Proof.
apply: nodal_from_check; first exact: Hex20_basis_out.
by vm_compute.
Qed.

Lemma Hex20_position :
  interpolates_position Hex20.num_verts_ Hex20.num_dim_
    Hex20.basis Hex20.physical_position.
Proof.
move=> x out xi V d; rewrite /Hex20.physical_position position_loop_dims.
rewrite write_loopE mem_iota add0n leq0n andTb.
split=> [lt_d|le_d]; last by rewrite ltnNge le_d.
rewrite lt_d add0r; apply: eq_big_nat => v; rewrite -[(_ <= v < _)%N]mem_iota.
move=> v_in; congr (_ * _); move: v v_in.
each_vertex; rewrite /Hex20.basis; write_loop_nth; reflexivity.
Qed.

Lemma Hex20_reference (x xi : seq rat) (d : nat) :
  (d < Hex20.num_dim_)%N ->
  (Hex20.physical_position x xi
     (reference_vertices Hex20.num_verts_ Hex20.num_dim_ Hex20.ref_verts))`_d
  = xi`_d.
Proof.
move=> lt_d.
have [-> // _] := Hex20_position x [::] xi
  (reference_vertices Hex20.num_verts_ Hex20.num_dim_ Hex20.ref_verts) d.
rewrite /Hex20.num_verts_; unroll_sum; rewrite /Hex20.basis; write_loop_cells.
table_lookup Hex20.ref_verts Hex20.ref_vert Hex20.num_dim_.
do 3?[case: d lt_d => [|d] lt_d //];
  vertex_lookup Hex20.ref_verts Hex20.ref_vert Hex20.num_dim_; field.
Qed.

(** *** Hex32 *)

Lemma Hex32_basis_out (out out' xi : seq rat) (v : nat) :
  v \in range Hex32.num_verts_ ->
    (Hex32.basis out xi)`_v = (Hex32.basis out' xi)`_v.
Proof.
move: v; each_vertex; rewrite /Hex32.basis; write_loop_nth; reflexivity.
Qed.

Lemma Hex32_nodal :
  nodal_basis Hex32.num_verts_ Hex32.num_dim_ Hex32.ref_verts Hex32.basis.
Proof.
apply: nodal_from_check; first exact: Hex32_basis_out.
by vm_compute.
Qed.

(** *** Tess16 *)

Lemma Tess16_basis_out (out out' xi : seq rat) (v : nat) :
  v \in range Tess16.num_verts ->
    (Tess16.basis out xi)`_v = (Tess16.basis out' xi)`_v.
Proof.
move: v; each_vertex; rewrite /Tess16.basis; write_loop_nth; reflexivity.
Qed.

Lemma Tess16_nodal :
  nodal_basis Tess16.num_verts Tess16.num_dim Tess16.ref_verts Tess16.basis.
Proof.
apply: nodal_from_check; first exact: Tess16_basis_out.
by vm_compute.
Qed.

Lemma Tess16_position :
  interpolates_position Tess16.num_verts Tess16.num_dim
    Tess16.basis Tess16.physical_position.
Proof.
move=> x out xi V d; rewrite /Tess16.physical_position position_loop_verts.
rewrite write_loopE mem_iota add0n leq0n andTb.
split=> [lt_d|le_d]; last by rewrite ltnNge le_d.
rewrite lt_d add0r; apply: eq_big_nat => v; rewrite -[(_ <= v < _)%N]mem_iota.
move=> v_in; congr (_ * _); move: v v_in.
each_vertex; rewrite /Tess16.basis; write_loop_nth; reflexivity.
Qed.

Lemma Tess16_reference (x xi : seq rat) (d : nat) :
  (d < Tess16.num_dim)%N ->
  (Tess16.physical_position x xi
     (reference_vertices Tess16.num_verts Tess16.num_dim Tess16.ref_verts))`_d
  = xi`_d.
Proof.
move=> lt_d.
have [-> // _] := Tess16_position x [::] xi
  (reference_vertices Tess16.num_verts Tess16.num_dim Tess16.ref_verts) d.
rewrite /Tess16.num_verts; unroll_sum; rewrite /Tess16.basis; write_loop_cells.
table_lookup Tess16.ref_verts Tess16.ref_vert Tess16.num_dim.
do 4?[case: d lt_d => [|d] lt_d //];
  vertex_lookup Tess16.ref_verts Tess16.ref_vert Tess16.num_dim; field.
Qed.

(** X13.  The bases of the fixed-order quadrilaterals are nodal: the
    basis function of a vertex is 1 at the reference position of that
    vertex, as the table [ref_vert] of the element gives it, and 0 at the
    reference position of every other vertex, for each of Quad4, Quad8
    and Quad12. *)
Theorem X13_quad_bases_are_nodal :
  [/\ nodal_basis Quad4.num_verts_ Quad4.num_dim_ Quad4.ref_verts Quad4.basis,
      nodal_basis Quad8.num_verts_ Quad8.num_dim_ Quad8.ref_verts Quad8.basis
    & nodal_basis Quad12.num_verts_ Quad12.num_dim_ Quad12.ref_verts
        Quad12.basis].
Proof.
split.
- exact: Quad4_nodal.
- exact: Quad8_nodal.
- exact: Quad12_nodal.
Qed.

(** X14.  The bases of the fixed-order hexahedra and of the tesseract
    are nodal: the basis function of a vertex is 1 at the reference
    position of that vertex and 0 at the reference position of every
    other vertex, for each of Hex8, Hex20, Hex32 and Tess16. *)
Theorem X14_hex_tess_bases_are_nodal :
  [/\ nodal_basis Hex8.num_verts_ Hex8.num_dim_ Hex8.ref_verts Hex8.basis,
      nodal_basis Hex20.num_verts_ Hex20.num_dim_ Hex20.ref_verts
        Hex20.basis,
      nodal_basis Hex32.num_verts_ Hex32.num_dim_ Hex32.ref_verts
        Hex32.basis
    & nodal_basis Tess16.num_verts Tess16.num_dim Tess16.ref_verts
        Tess16.basis].
Proof.
split.
- exact: Hex8_nodal.
- exact: Hex20_nodal.
- exact: Hex32_nodal.
- exact: Tess16_nodal.
Qed.

(** X15.  Partition of unity on the quadrilaterals: at every point the
    values that [basis] writes for the vertices of the element add up to
    one, for each of Quad4, Quad8 and Quad12. *)
Theorem X15_quad_partition_of_unity :
  [/\ sums_to 1 Quad4.num_verts_ Quad4.basis,
      sums_to 1 Quad8.num_verts_ Quad8.basis
    & sums_to 1 Quad12.num_verts_ Quad12.basis].
Proof.
split=> out xi.
- rewrite /Quad4.num_verts_; unroll_sum; rewrite /Quad4.basis.
  write_loop_cells.
  table_lookup Quad4.ref_verts Quad4.ref_vert Quad4.num_dim_; field.
- rewrite /Quad8.num_verts_; unroll_sum; rewrite /Quad8.basis.
  write_loop_cells.
  table_lookup Quad8.ref_verts Quad8.ref_vert Quad8.num_dim_; field.
- rewrite /Quad12.num_verts_; unroll_sum; rewrite /Quad12.basis.
  write_loop_cells.
  table_lookup Quad12.ref_verts Quad12.ref_vert Quad12.num_dim_; field.
Qed.

(** X16.  Partition of unity on the hexahedra and the tesseract: at
    every point the values that [basis] writes for the vertices of the
    element add up to one, for each of Hex8, Hex20, Hex32 and Tess16. *)
Theorem X16_hex_tess_partition_of_unity :
  [/\ sums_to 1 Hex8.num_verts_ Hex8.basis,
      sums_to 1 Hex20.num_verts_ Hex20.basis,
      sums_to 1 Hex32.num_verts_ Hex32.basis
    & sums_to 1 Tess16.num_verts Tess16.basis].
Proof.
split=> out xi.
- rewrite /Hex8.num_verts_; unroll_sum; rewrite /Hex8.basis.
  write_loop_cells.
  table_lookup Hex8.ref_verts Hex8.ref_vert Hex8.num_dim_; field.
- rewrite /Hex20.num_verts_; unroll_sum; rewrite /Hex20.basis.
  write_loop_cells.
  table_lookup Hex20.ref_verts Hex20.ref_vert Hex20.num_dim_; field.
- rewrite /Hex32.num_verts_; unroll_sum; rewrite /Hex32.basis.
  write_loop_cells.
  table_lookup Hex32.ref_verts Hex32.ref_vert Hex32.num_dim_; field.
- rewrite /Tess16.num_verts; unroll_sum; rewrite /Tess16.basis.
  write_loop_cells.
  table_lookup Tess16.ref_verts Tess16.ref_vert Tess16.num_dim; field.
Qed.

(** X17.  At every point the values written by each of the two
    partial-derivative routines of the quadrilaterals add up to zero
    over the vertices of the element: the routines for Xi and Eta of
    Quad4, Quad8 and Quad12. *)
Theorem X17_quad_partials_sum_to_zero :
  [/\ each (sums_to 0 Quad4.num_verts_)
        [:: Quad4.partial_xi_basis; Quad4.partial_eta_basis],
      each (sums_to 0 Quad8.num_verts_)
        [:: Quad8.partial_xi_basis; Quad8.partial_eta_basis]
    & each (sums_to 0 Quad12.num_verts_)
        [:: Quad12.partial_xi_basis; Quad12.partial_eta_basis]].
Proof.
split; cbn [each foldr]; repeat split.
- move=> out xi; rewrite /Quad4.num_verts_; unroll_sum;
  rewrite /Quad4.partial_xi_basis.
  write_loop_cells.
  table_lookup Quad4.ref_verts Quad4.ref_vert Quad4.num_dim_; field.
- move=> out xi; rewrite /Quad4.num_verts_; unroll_sum;
  rewrite /Quad4.partial_eta_basis.
  write_loop_cells.
  table_lookup Quad4.ref_verts Quad4.ref_vert Quad4.num_dim_; field.
- move=> out xi; rewrite /Quad8.num_verts_; unroll_sum;
  rewrite /Quad8.partial_xi_basis.
  write_loop_cells.
  table_lookup Quad8.ref_verts Quad8.ref_vert Quad8.num_dim_; field.
- move=> out xi; rewrite /Quad8.num_verts_; unroll_sum;
  rewrite /Quad8.partial_eta_basis.
  write_loop_cells.
  table_lookup Quad8.ref_verts Quad8.ref_vert Quad8.num_dim_; field.
- move=> out xi; rewrite /Quad12.num_verts_; unroll_sum;
  rewrite /Quad12.partial_xi_basis.
  write_loop_cells.
  table_lookup Quad12.ref_verts Quad12.ref_vert Quad12.num_dim_; field.
- move=> out xi; rewrite /Quad12.num_verts_; unroll_sum;
  rewrite /Quad12.partial_eta_basis.
  write_loop_cells.
  table_lookup Quad12.ref_verts Quad12.ref_vert Quad12.num_dim_; field.
Qed.

(** X18.  At every point the values written by each partial-derivative
    routine of the hexahedra and of the tesseract add up to zero over
    the vertices of the element: the routines for Xi, Eta and Mu of
    Hex8, Hex20 and Hex32, and for Xi, Eta, Mu and Tau of Tess16.  This
    includes the Xi routines of Hex20 and Hex32. *)
Theorem X18_hex_tess_partials_sum_to_zero :
  [/\ each (sums_to 0 Hex8.num_verts_)
        [:: Hex8.partial_xi_basis; Hex8.partial_eta_basis;
            Hex8.partial_mu_basis],
      each (sums_to 0 Hex20.num_verts_)
        [:: Hex20.partial_xi_basis; Hex20.partial_eta_basis;
            Hex20.partial_mu_basis],
      each (sums_to 0 Hex32.num_verts_)
        [:: Hex32.partial_xi_basis; Hex32.partial_eta_basis;
            Hex32.partial_mu_basis]
    & each (sums_to 0 Tess16.num_verts)
        [:: Tess16.partial_xi_basis; Tess16.partial_eta_basis;
            Tess16.partial_mu_basis; Tess16.partial_tau_basis]].
Proof.
split; cbn [each foldr]; repeat split.
- move=> out xi; rewrite /Hex8.num_verts_; unroll_sum;
  rewrite /Hex8.partial_xi_basis.
  write_loop_cells.
  table_lookup Hex8.ref_verts Hex8.ref_vert Hex8.num_dim_; field.
- move=> out xi; rewrite /Hex8.num_verts_; unroll_sum;
  rewrite /Hex8.partial_eta_basis.
  write_loop_cells.
  table_lookup Hex8.ref_verts Hex8.ref_vert Hex8.num_dim_; field.
- move=> out xi; rewrite /Hex8.num_verts_; unroll_sum;
  rewrite /Hex8.partial_mu_basis.
  write_loop_cells.
  table_lookup Hex8.ref_verts Hex8.ref_vert Hex8.num_dim_; field.
- move=> out xi; rewrite /Hex20.num_verts_; unroll_sum;
  rewrite /Hex20.partial_xi_basis.
  write_loop_cells.
  table_lookup Hex20.ref_verts Hex20.ref_vert Hex20.num_dim_; field.
- move=> out xi; rewrite /Hex20.num_verts_; unroll_sum;
  rewrite /Hex20.partial_eta_basis.
  write_loop_cells.
  table_lookup Hex20.ref_verts Hex20.ref_vert Hex20.num_dim_; field.
- move=> out xi; rewrite /Hex20.num_verts_; unroll_sum;
  rewrite /Hex20.partial_mu_basis.
  write_loop_cells.
  table_lookup Hex20.ref_verts Hex20.ref_vert Hex20.num_dim_; field.
- move=> out xi; rewrite /Hex32.num_verts_; unroll_sum;
  rewrite /Hex32.partial_xi_basis.
  write_loop_cells.
  table_lookup Hex32.ref_verts Hex32.ref_vert Hex32.num_dim_; field.
- move=> out xi; rewrite /Hex32.num_verts_; unroll_sum;
  rewrite /Hex32.partial_eta_basis.
  write_loop_cells.
  table_lookup Hex32.ref_verts Hex32.ref_vert Hex32.num_dim_; field.
- move=> out xi; rewrite /Hex32.num_verts_; unroll_sum;
  rewrite /Hex32.partial_mu_basis.
  write_loop_cells.
  table_lookup Hex32.ref_verts Hex32.ref_vert Hex32.num_dim_; field.
- move=> out xi; rewrite /Tess16.num_verts; unroll_sum;
  rewrite /Tess16.partial_xi_basis.
  write_loop_cells.
  table_lookup Tess16.ref_verts Tess16.ref_vert Tess16.num_dim; field.
- move=> out xi; rewrite /Tess16.num_verts; unroll_sum;
  rewrite /Tess16.partial_eta_basis.
  write_loop_cells.
  table_lookup Tess16.ref_verts Tess16.ref_vert Tess16.num_dim; field.
- move=> out xi; rewrite /Tess16.num_verts; unroll_sum;
  rewrite /Tess16.partial_mu_basis.
  write_loop_cells.
  table_lookup Tess16.ref_verts Tess16.ref_vert Tess16.num_dim; field.
- move=> out xi; rewrite /Tess16.num_verts; unroll_sum;
  rewrite /Tess16.partial_tau_basis.
  write_loop_cells.
  table_lookup Tess16.ref_verts Tess16.ref_vert Tess16.num_dim; field.
Qed.

(** *** The partial derivatives, routine by routine *)

Lemma Quad4_partial_xi_derivative :
  derivative_on (range Quad4.num_verts_) 0 Quad4.basis Quad4.partial_xi_basis.
Proof.
move=> out xi; each_vertex;
  derivative_at Quad4.basis Quad4.partial_xi_basis
    Quad4.ref_verts Quad4.ref_vert Quad4.num_dim_.
Qed.

Lemma Quad4_partial_eta_derivative :
  derivative_on (range Quad4.num_verts_) 1 Quad4.basis Quad4.partial_eta_basis.
Proof.
move=> out xi; each_vertex;
  derivative_at Quad4.basis Quad4.partial_eta_basis
    Quad4.ref_verts Quad4.ref_vert Quad4.num_dim_.
Qed.

Lemma Quad8_partial_xi_derivative :
  derivative_on (range Quad8.num_verts_) 0 Quad8.basis Quad8.partial_xi_basis.
Proof.
move=> out xi; each_vertex;
  derivative_at Quad8.basis Quad8.partial_xi_basis
    Quad8.ref_verts Quad8.ref_vert Quad8.num_dim_.
Qed.

Lemma Quad8_partial_eta_derivative :
  derivative_on (range Quad8.num_verts_) 1 Quad8.basis Quad8.partial_eta_basis.
Proof.
move=> out xi; each_vertex;
  derivative_at Quad8.basis Quad8.partial_eta_basis
    Quad8.ref_verts Quad8.ref_vert Quad8.num_dim_.
Qed.

Lemma Quad12_partial_xi_derivative :
  derivative_on (range Quad12.num_verts_) 0
    Quad12.basis Quad12.partial_xi_basis.
Proof.
move=> out xi; each_vertex;
  derivative_at Quad12.basis Quad12.partial_xi_basis
    Quad12.ref_verts Quad12.ref_vert Quad12.num_dim_.
Qed.

Lemma Quad12_partial_eta_derivative :
  derivative_on (range Quad12.num_verts_) 1
    Quad12.basis Quad12.partial_eta_basis.
Proof.
move=> out xi; each_vertex;
  derivative_at Quad12.basis Quad12.partial_eta_basis
    Quad12.ref_verts Quad12.ref_vert Quad12.num_dim_.
Qed.

Lemma Hex8_partial_xi_derivative :
  derivative_on (range Hex8.num_verts_) 0 Hex8.basis Hex8.partial_xi_basis.
Proof.
move=> out xi; each_vertex;
  derivative_at Hex8.basis Hex8.partial_xi_basis
    Hex8.ref_verts Hex8.ref_vert Hex8.num_dim_.
Qed.

Lemma Hex8_partial_eta_derivative :
  derivative_on (range Hex8.num_verts_) 1 Hex8.basis Hex8.partial_eta_basis.
Proof.
move=> out xi; each_vertex;
  derivative_at Hex8.basis Hex8.partial_eta_basis
    Hex8.ref_verts Hex8.ref_vert Hex8.num_dim_.
Qed.

Lemma Hex8_partial_mu_derivative :
  derivative_on (range Hex8.num_verts_) 2 Hex8.basis Hex8.partial_mu_basis.
Proof.
move=> out xi; each_vertex;
  derivative_at Hex8.basis Hex8.partial_mu_basis
    Hex8.ref_verts Hex8.ref_vert Hex8.num_dim_.
Qed.

Lemma Hex20_partial_xi_derivative :
  derivative_on 
    [:: 0; 1; 2; 3; 4; 5; 6; 7; 8; 10; 12; 14]%N 0
    Hex20.basis Hex20.partial_xi_basis.
Proof.
move=> out xi; each_vertex;
  derivative_at Hex20.basis Hex20.partial_xi_basis
    Hex20.ref_verts Hex20.ref_vert Hex20.num_dim_.
Qed.

Lemma Hex20_partial_eta_derivative :
  derivative_on (range Hex20.num_verts_) 1 Hex20.basis Hex20.partial_eta_basis.
Proof.
move=> out xi; each_vertex;
  derivative_at Hex20.basis Hex20.partial_eta_basis
    Hex20.ref_verts Hex20.ref_vert Hex20.num_dim_.
Qed.

Lemma Hex20_partial_mu_derivative :
  derivative_on (range Hex20.num_verts_) 2 Hex20.basis Hex20.partial_mu_basis.
Proof.
move=> out xi; each_vertex;
  derivative_at Hex20.basis Hex20.partial_mu_basis
    Hex20.ref_verts Hex20.ref_vert Hex20.num_dim_.
Qed.

Lemma Hex32_partial_xi_derivative :
  derivative_on 
    (range 8 ++ loop_le 16 23 1) 0 Hex32.basis Hex32.partial_xi_basis.
Proof.
move=> out xi; each_vertex;
  derivative_at Hex32.basis Hex32.partial_xi_basis
    Hex32.ref_verts Hex32.ref_vert Hex32.num_dim_.
Qed.

Lemma Hex32_partial_eta_derivative :
  derivative_on (range Hex32.num_verts_) 1 Hex32.basis Hex32.partial_eta_basis.
Proof.
move=> out xi; each_vertex;
  derivative_at Hex32.basis Hex32.partial_eta_basis
    Hex32.ref_verts Hex32.ref_vert Hex32.num_dim_.
Qed.

Lemma Hex32_partial_mu_derivative :
  derivative_on (range Hex32.num_verts_) 2 Hex32.basis Hex32.partial_mu_basis.
Proof.
move=> out xi; each_vertex;
  derivative_at Hex32.basis Hex32.partial_mu_basis
    Hex32.ref_verts Hex32.ref_vert Hex32.num_dim_.
Qed.

Lemma Tess16_partial_xi_derivative :
  derivative_on (range Tess16.num_verts) 0 Tess16.basis Tess16.partial_xi_basis.
Proof.
move=> out xi; each_vertex;
  derivative_at Tess16.basis Tess16.partial_xi_basis
    Tess16.ref_verts Tess16.ref_vert Tess16.num_dim.
Qed.

Lemma Tess16_partial_eta_derivative :
  derivative_on (range Tess16.num_verts) 1
    Tess16.basis Tess16.partial_eta_basis.
Proof.
move=> out xi; each_vertex;
  derivative_at Tess16.basis Tess16.partial_eta_basis
    Tess16.ref_verts Tess16.ref_vert Tess16.num_dim.
Qed.

Lemma Tess16_partial_mu_derivative :
  derivative_on (range Tess16.num_verts) 2 Tess16.basis Tess16.partial_mu_basis.
Proof.
move=> out xi; each_vertex;
  derivative_at Tess16.basis Tess16.partial_mu_basis
    Tess16.ref_verts Tess16.ref_vert Tess16.num_dim.
Qed.

Lemma Tess16_partial_tau_derivative :
  derivative_on (range Tess16.num_verts) 3
    Tess16.basis Tess16.partial_tau_basis.
Proof.
move=> out xi; each_vertex;
  derivative_at Tess16.basis Tess16.partial_tau_basis
    Tess16.ref_verts Tess16.ref_vert Tess16.num_dim.
Qed.

Lemma Hex20_partial_xi_elsewhere (v : nat) :
  v \in [:: 9; 11; 13; 15; 16; 17; 18; 19]%N ->
  ~ derivative_on [:: v] 0 Hex20.basis Hex20.partial_xi_basis.
Proof.
pose xi0 : seq rat := [:: 2%:R; - 3%:R; 5%:R].
move: v; each_vertex; move=> /(_ [::] xi0 _ (mem_head _ _));
  (eapply not_derivative_by_expr;
     [ along_axis Hex20.basis Hex20.ref_verts Hex20.ref_vert Hex20.num_dim_
     | by vm_compute ]).
Qed.

Lemma Hex32_partial_xi_elsewhere (v : nat) :
  v \in (loop_le 8 15 1 ++ loop_le 24 31 1) ->
  ~ derivative_on [:: v] 0 Hex32.basis Hex32.partial_xi_basis.
Proof.
pose xi0 : seq rat := [:: 2%:R; - 3%:R; 5%:R].
move: v; each_vertex; move=> /(_ [::] xi0 _ (mem_head _ _));
  (eapply not_derivative_by_expr;
     [ along_axis Hex32.basis Hex32.ref_verts Hex32.ref_vert Hex32.num_dim_
     | by vm_compute ]).
Qed.

(** X19.  The partial-derivative routines of the quadrilaterals return
    the derivatives of the basis functions: for every vertex and each of
    the two axes, the value of the basis function along that axis is a
    polynomial whose formal derivative at the point is what the routine
    of that axis writes, for Quad4, Quad8 and Quad12. *)
Theorem X19_quad_partials_are_derivatives :
  [/\ gradient_on (range Quad4.num_verts_) Quad4.basis
        [:: Quad4.partial_xi_basis; Quad4.partial_eta_basis],
      gradient_on (range Quad8.num_verts_) Quad8.basis
        [:: Quad8.partial_xi_basis; Quad8.partial_eta_basis]
    & gradient_on (range Quad12.num_verts_) Quad12.basis
        [:: Quad12.partial_xi_basis; Quad12.partial_eta_basis]].
Proof.
split.
- move=> d; do 2?[case: d => [|d] //]; move=> _; cbn [nth].
  + exact: Quad4_partial_xi_derivative.
  + exact: Quad4_partial_eta_derivative.
- move=> d; do 2?[case: d => [|d] //]; move=> _; cbn [nth].
  + exact: Quad8_partial_xi_derivative.
  + exact: Quad8_partial_eta_derivative.
- move=> d; do 2?[case: d => [|d] //]; move=> _; cbn [nth].
  + exact: Quad12_partial_xi_derivative.
  + exact: Quad12_partial_eta_derivative.
Qed.

(** X20.  The partial-derivative routines of Hex8 and Tess16, and the
    Eta and Mu routines of Hex20 and Hex32, return the derivatives of the
    basis functions: for every vertex, the value of the basis function
    along the axis of the routine is a polynomial whose formal derivative
    at the point is what the routine writes. *)
Theorem X20_hex_tess_partials_are_derivatives :
  [/\ gradient_on (range Hex8.num_verts_) Hex8.basis
        [:: Hex8.partial_xi_basis; Hex8.partial_eta_basis;
            Hex8.partial_mu_basis]
    & gradient_on (range Tess16.num_verts) Tess16.basis
        [:: Tess16.partial_xi_basis; Tess16.partial_eta_basis;
            Tess16.partial_mu_basis; Tess16.partial_tau_basis]]
  /\ [/\ derivative_on (range Hex20.num_verts_) 1 Hex20.basis
           Hex20.partial_eta_basis,
         derivative_on (range Hex20.num_verts_) 2 Hex20.basis
           Hex20.partial_mu_basis,
         derivative_on (range Hex32.num_verts_) 1 Hex32.basis
           Hex32.partial_eta_basis
       & derivative_on (range Hex32.num_verts_) 2 Hex32.basis
           Hex32.partial_mu_basis].
Proof.
split; split.
- move=> d; do 3?[case: d => [|d] //]; move=> _; cbn [nth].
  + exact: Hex8_partial_xi_derivative.
  + exact: Hex8_partial_eta_derivative.
  + exact: Hex8_partial_mu_derivative.
- move=> d; do 4?[case: d => [|d] //]; move=> _; cbn [nth].
  + exact: Tess16_partial_xi_derivative.
  + exact: Tess16_partial_eta_derivative.
  + exact: Tess16_partial_mu_derivative.
  + exact: Tess16_partial_tau_derivative.
- exact: Hex20_partial_eta_derivative.
- exact: Hex20_partial_mu_derivative.
- exact: Hex32_partial_eta_derivative.
- exact: Hex32_partial_mu_derivative.
Qed.

(** X21.  The Xi routines of Hex20 and Hex32 return the derivative of
    the basis function for part of the vertices only.  [Hex20::
    partial_xi_basis] does for the corners and for the edge vertices 8,
    10, 12 and 14, and does not for the edge vertices 9, 11, 13, 15 and
    16 to 19.  [Hex32::partial_xi_basis] does for the corners and for the
    vertices 16 to 23, and does not for the vertices 8 to 15 and 24 to
    31. *)
Theorem X21_Hex20_Hex32_partial_xi :
  [/\ derivative_on [:: 0; 1; 2; 3; 4; 5; 6; 7; 8; 10; 12; 14]%N 0
        Hex20.basis Hex20.partial_xi_basis,
      forall v, v \in [:: 9; 11; 13; 15; 16; 17; 18; 19]%N ->
        ~ derivative_on [:: v] 0 Hex20.basis Hex20.partial_xi_basis,
      derivative_on (range 8 ++ loop_le 16 23 1) 0
        Hex32.basis Hex32.partial_xi_basis
    & forall v, v \in (loop_le 8 15 1 ++ loop_le 24 31 1) ->
        ~ derivative_on [:: v] 0 Hex32.basis Hex32.partial_xi_basis].
Proof.
split.
- exact: Hex20_partial_xi_derivative.
- exact: Hex20_partial_xi_elsewhere.
- exact: Hex32_partial_xi_derivative.
- exact: Hex32_partial_xi_elsewhere.
Qed.

(** X22.  [physical_position] of the quadrilaterals interpolates: on
    each of the first [num_dim] coordinates it returns the sum over the
    vertices of the given vertex coordinate times the value that [basis]
    writes for that vertex at the same point, whatever [x_point] held
    before; the other cells of [x_point] keep their value.  This holds
    for Quad4, Quad8 and Quad12. *)
Theorem X22_quad_physical_position_interpolates :
  [/\ interpolates_position Quad4.num_verts_ Quad4.num_dim_
        Quad4.basis Quad4.physical_position,
      interpolates_position Quad8.num_verts_ Quad8.num_dim_
        Quad8.basis Quad8.physical_position
    & interpolates_position Quad12.num_verts_ Quad12.num_dim_
        Quad12.basis Quad12.physical_position].
Proof.
split.
- exact: Quad4_position.
- exact: Quad8_position.
- exact: Quad12_position.
Qed.

(** X23.  [physical_position] of Hex8, Hex20 and Tess16 interpolates:
    on each of the first [num_dim] coordinates it returns the sum over
    the vertices of the given vertex coordinate times the value that
    [basis] writes for that vertex at the same point, whatever [x_point]
    held before; the other cells of [x_point] keep their value. *)
Theorem X23_hex_tess_physical_position_interpolates :
  [/\ interpolates_position Hex8.num_verts_ Hex8.num_dim_
        Hex8.basis Hex8.physical_position,
      interpolates_position Hex20.num_verts_ Hex20.num_dim_
        Hex20.basis Hex20.physical_position
    & interpolates_position Tess16.num_verts Tess16.num_dim
        Tess16.basis Tess16.physical_position].
Proof.
split.
- exact: Hex8_position.
- exact: Hex20_position.
- exact: Tess16_position.
Qed.

(** X24.  [physical_position] of the quadrilaterals maps the reference
    element onto the given one vertex by vertex, and is the identity on
    the reference element: at the reference position of a vertex it
    returns the position given for that vertex, and when the positions
    given are the reference positions it returns the point it was given.
    This holds for Quad4, Quad8 and Quad12. *)
Theorem X24_quad_physical_position_on_the_reference_element :
  [/\ maps_reference Quad4.num_verts_ Quad4.num_dim_ Quad4.ref_verts
        Quad4.physical_position,
      maps_reference Quad8.num_verts_ Quad8.num_dim_ Quad8.ref_verts
        Quad8.physical_position
    & maps_reference Quad12.num_verts_ Quad12.num_dim_ Quad12.ref_verts
        Quad12.physical_position].
Proof.
split; split.
- exact: (maps_from_nodal Quad4_nodal Quad4_position).
- exact: Quad4_reference.
- exact: (maps_from_nodal Quad8_nodal Quad8_position).
- exact: Quad8_reference.
- exact: (maps_from_nodal Quad12_nodal Quad12_position).
- exact: Quad12_reference.
Qed.

(** X25.  [physical_position] of Hex8, Hex20 and Tess16 maps the
    reference element onto the given one vertex by vertex, and is the
    identity on the reference element: at the reference position of a
    vertex it returns the position given for that vertex, and when the
    positions given are the reference positions it returns the point it
    was given. *)
Theorem X25_hex_tess_physical_position_on_the_reference_element :
  [/\ maps_reference Hex8.num_verts_ Hex8.num_dim_ Hex8.ref_verts
        Hex8.physical_position,
      maps_reference Hex20.num_verts_ Hex20.num_dim_ Hex20.ref_verts
        Hex20.physical_position
    & maps_reference Tess16.num_verts Tess16.num_dim Tess16.ref_verts
        Tess16.physical_position].
Proof.
split; split.
- exact: (maps_from_nodal Hex8_nodal Hex8_position).
- exact: Hex8_reference.
- exact: (maps_from_nodal Hex20_nodal Hex20_position).
- exact: Hex20_reference.
- exact: (maps_from_nodal Tess16_nodal Tess16_position).
- exact: Tess16_reference.
Qed.

(** ** The test driver of the Bernstein polynomials *)

Section BernsteinTestFacts.

Variable R : numDomainType.
Variable eval : nat -> nat -> R -> R.

(** A flag that a loop can only raise is up at the end exactly when it
    was up at the start or some pass raised it. *)
Lemma foldl_raise (T : Type) (p : pred T) (s : seq T) (flag : bool) :
  foldl (fun flag x => if p x then true else flag) flag s = flag || has p s.
Proof.
elim: s flag => [|x s IH] flag /=; first by rewrite orbF.
by rewrite IH; case: (p x); rewrite ?orbT.
Qed.

(** X26.  [test4] of the Bernstein test driver reports success as soon as
    one of the values it evaluates is not negative: its result is true
    exactly when, for some pass [i] of the outer loop and some index
    [j < N], the value [eval(N, j, rand_X_i)] is at least 0.  A negative
    value never turns the result back to false. *)
Theorem X26_bernstein_test4_passes_on_one_value (N : nat)
    (rand_X : nat -> R) :
  BernsteinTest.test4 eval N rand_X
  = has (fun i => has (fun j => 0 <= eval N j (rand_X i)) (range N))
        (range 1001).
Proof.
have gen (s : seq nat) (flag : bool) :
    foldl (fun pass i =>
             foldl (fun pass j =>
                      if 0 <= eval N j (rand_X i) then true else pass)
                   pass (range N))
          flag s
    = flag || has (fun i => has (fun j => 0 <= eval N j (rand_X i)) (range N))
                  s.
  elim: s flag => [|i s IH] flag /=; first by rewrite orbF.
  by rewrite IH foldl_raise orbA.
exact: gen.
Qed.

End BernsteinTestFacts.

